(** * Incremental decoding of the XLM transformer (src/XLM/src/model/transformer.py)

    A shallow embedding of the masking utility, the attention cache, the
    incremental decoder pass, the greedy and beam-search decoders and the
    hypothesis pool, with the properties the specification states about them.

    Conventions of the embedding.
    - Python floats are idealised as rationals [Q]; comparisons are the exact
      ones.  Operations of the numeric backend that leave the rationals
      (powers with a float exponent, log-sum-exp, sampling) are fields of the
      class [NumericBackend].
    - A raised exception (a failed [assert], an index out of range, a
      [ZeroDivisionError], a shape that torch rejects) is [None]; the option
      monad threads it.
    - A tensor whose first axis after the source's transposition is the batch
      is a list of batch rows.  The token buffer [generated] of shape
      (max_len, bs) is kept as the list of its bs columns, each a list over
      time: [generated[t, b]] is element [t] of column [b].
    - The network runs in evaluation mode: dropout is the identity. *)

From Stdlib Require Import ZArith QArith Qminmax Lia Lqa.
From stdpp Require Import base option list sorting gmap.

Local Open Scope Z_scope.

(** ** Python helpers *)

(** Python's float division: a zero divisor raises [ZeroDivisionError]. *)
Definition py_div (a b : Q) : option Q :=
  if Qeq_bool b 0 then None else Some (a / b)%Q.

Definition Qlt_bool (a b : Q) : bool := negb (Qle_bool b a).

(** [min(a, b)] of Python: the first argument unless the second is smaller. *)
Definition py_min (a b : Q) : Q := if Qlt_bool b a then b else a.

(** [l[i:]] for a Python index [i], negative indices counting from the end. *)
Definition py_slice_from {A} (i : Z) (l : list A) : list A :=
  let n := Z.of_nat (length l) in
  let start := if i <? 0 then Z.max (n + i) 0 else Z.min i n in
  drop (Z.to_nat start) l.

(** [assert b] *)
Definition py_assert (b : bool) : option unit := if b then Some () else None.

(** [sorted]: a stable sort, here by insertion; [le x y] says that [x] may
    stand before [y]. *)
Fixpoint insert_sorted {A} (le : A → A → bool) (x : A) (l : list A) : list A :=
  match l with
  | [] => [x]
  | y :: l' => if le x y then x :: y :: l' else y :: insert_sorted le x l'
  end.

Definition sorted_by {A} (le : A → A → bool) (l : list A) : list A :=
  foldr (insert_sorted le) [] l.

(** Tuple comparison [(s, i) <= (s', i')] of Python on (float, int). *)
Definition score_idx_le (a b : Q * nat) : bool :=
  if Qeq_bool a.1 b.1 then (a.2 <=? b.2)%nat else Qlt_bool a.1 b.1.

(** [del l[i]]: an index out of range raises. *)
Definition py_del {A} (i : nat) (l : list A) : option (list A) :=
  if (i <? length l)%nat then Some (delete i l) else None.

(** ** The numeric backend *)

Class NumericBackend := {
  (** [n ** p] for an int [n] and a float [p]; [None] when Python raises
      (zero to a negative power) or leaves the reals. *)
  float_pow : Z → Q → option Q;
  (** The logarithm of the sum of the exponentials of a row. *)
  logsumexp : list Q → Q;
  (** [F.softmax] of a row. *)
  softmax : list Q → list Q;
  (** [torch.multinomial(probs, 1)] for row [r] of the draw made at decoding
      step [t]: some index of the row. *)
  softmax_length row : length (softmax row) = length row;
  multinomial : nat → nat → list Q → nat;
  multinomial_range t r probs : probs ≠ [] → (multinomial t r probs < length probs)%nat;
}.

(** [F.log_softmax] of a row. *)
Definition log_softmax `{NumericBackend} (row : list Q) : list Q :=
  map (λ x, x - logsumexp row)%Q row.

(** [torch.topk(row, k, largest=True, sorted=True)]: the [k] largest values
    with their indices, in descending order, equal values by ascending
    index; [k] beyond the row raises. *)
Definition topk (k : nat) (row : list Q) : option (list (Q * nat)) :=
  if (k <=? length row)%nat
  then Some (take k (sorted_by (λ a b, Qle_bool b.1 a.1) (imap (λ i v, (v, i)) row)))
  else None.

(** ** The hypothesis pool: class BeamHypotheses *)

Record BeamHypotheses := mkBeamHypotheses {
  max_len : Z;
  length_penalty : Q;
  early_stopping : bool;
  n_hyp : nat;
  hyp : list (Q * list Z);
  worst_score : Q;
}.

(** [BeamHypotheses.__init__] *)
Definition BeamHypotheses_init (n_hyp : nat) (max_len : Z) (length_penalty : Q)
    (early_stopping : bool) : BeamHypotheses :=
  {| max_len := max_len - 1;
     length_penalty := length_penalty;
     early_stopping := early_stopping;
     n_hyp := n_hyp;
     hyp := [];
     worst_score := 1000000000 |}.

Definition set_hyp (p : BeamHypotheses) (h : list (Q * list Z)) (w : Q) : BeamHypotheses :=
  {| max_len := max_len p;
     length_penalty := length_penalty p;
     early_stopping := early_stopping p;
     n_hyp := n_hyp p;
     hyp := h;
     worst_score := w |}.

(** [BeamHypotheses.add] *)
Definition add `{NumericBackend} (p : BeamHypotheses) (h : list Z) (sum_logprobs : Q)
    : option BeamHypotheses :=
  d ← float_pow (Z.of_nat (length h)) (length_penalty p);
  score ← py_div sum_logprobs d;
  if (length (hyp p) <? n_hyp p)%nat || Qlt_bool (worst_score p) score then
    let hyp1 := hyp p ++ [(score, h)] in
    if (n_hyp p <? length hyp1)%nat then
      let sorted_scores := sorted_by score_idx_le (imap (λ idx e, (e.1, idx)) hyp1) in
      lowest ← sorted_scores !! 0%nat;
      hyp2 ← py_del lowest.2 hyp1;
      second ← sorted_scores !! 1%nat;
      Some (set_hyp p hyp2 second.1)
    else
      Some (set_hyp p hyp1 (py_min score (worst_score p)))
  else Some p.

(** [BeamHypotheses.is_done] *)
Definition is_done `{NumericBackend} (p : BeamHypotheses) (best_sum_logprobs : Q)
    : option bool :=
  if (length (hyp p) <? n_hyp p)%nat then Some false
  else if early_stopping p then Some true
  else
    d ← float_pow (max_len p) (length_penalty p);
    best ← py_div best_sum_logprobs d;
    Some (Qle_bool best (worst_score p)).

(** ** Tensor helpers *)

(** Size of the second axis of a tensor given as a list of rows. *)
Definition dim1 {A} (t : list (list A)) : nat :=
  match t with [] => 0%nat | r :: _ => length r end.

(** [t[m]] for a boolean mask [m] on the first axis: the rows whose bit is set;
    a mask of another length raises [IndexError]. *)
Fixpoint select_rows {A} (m : list bool) (t : list A) : list A :=
  match m, t with
  | b :: m', r :: t' => if b then r :: select_rows m' t' else select_rows m' t'
  | _, _ => []
  end.

Definition bool_index {A} (t : list A) (m : list bool) : option (list A) :=
  if (length m =? length t)%nat then Some (select_rows m t) else None.

(** [t[idx]] for an index tensor [idx] on the first axis (a gather). *)
Definition index_rows {A} (t : list A) (idx : list nat) : option (list A) :=
  mapM (λ i, t !! i) idx.

(** [torch.cat([a, b], dim=2)] on (bs, heads, time, d): the other axes agree. *)
Definition cat_time {A} (a b : list (list A)) : option (list (list A)) :=
  if (length a =? length b)%nat then Some (zip_with app a b) else None.

(** The entries [t[b, i]] and [t[b, q, k]], when the indices are in range. *)
Definition entry2 {A} (t : list (list A)) (b i : nat) : option A :=
  r ← t !! b; r !! i.

Definition entry3 {A} (t : list (list (list A))) (b q k : nat) : option A :=
  r ← t !! b; entry2 r q k.

(** [n] consecutive chunks of [c] elements. *)
Fixpoint chunks {A} (n c : nat) (l : list A) : list (list A) :=
  match n with
  | O => []
  | S n' => take c l :: chunks n' c (drop c l)
  end.

(** [lengths.max()]: raises on an empty tensor. *)
Definition max_list (l : list Z) : option Z :=
  match l with [] => None | x :: l' => Some (foldr Z.max x l') end.

(** ** The masking utility: get_masks *)

Inductive AttnMask :=
| Mask2 (m : list (list bool))          (* (bs, klen) *)
| Mask3 (m : list (list (list bool))).  (* (bs, qlen, klen) *)

(** [alen < lengths[:, None]] *)
Definition length_mask (alen : list nat) (lengths : list Z) : list (list bool) :=
  map (λ len, map (λ a, Z.of_nat a <? len) alen) lengths.

Definition get_masks (slen : nat) (lengths : list Z) (causal : bool)
    : option (list (list bool) * AttnMask) :=
  mx ← max_list lengths;
  _ ← py_assert (mx <=? Z.of_nat slen);
  let bs := length lengths in
  let alen := seq 0 slen in
  let mask := length_mask alen lengths in
  let attn_mask :=
    if causal
    then Mask3 (replicate bs (map (λ q, map (λ k, (k <=? q)%nat) alen) alen))
    else Mask2 mask in
  Some (mask, attn_mask).

(** ** The attention cache *)

Section Network.
Context {H KV : Type}.

(** [cache['slen']] and the per-layer entries [cache[layer_id] = (k, v)];
    a cached tensor of shape (bs, n_heads, time, dim_per_head) is a list of
    batch rows, each the list over time of the heads' slices. *)
Record Cache := mkCache {
  cache_slen : Z;
  cache_kv : gmap nat (list (list KV) * list (list KV));
}.

Definition empty_cache : Cache := {| cache_slen := 0; cache_kv := ∅ |}.

(** ** The attention core: class MultiHeadAttention *)

(** One attention module.  [layer_id] is the number drawn from the class
    counter [NEW_ID] at construction.  [attend q mask ks vs] is the output for
    one query position: the scaled products of [q] with the keys [ks], the
    positions whose mask bit is false filled with minus infinity, softmax,
    the weighted sum of [vs], [unshape] and [out_lin]. *)
Record AttentionWeights := mkWeights {
  q_lin : H → KV;
  k_lin : H → KV;
  v_lin : H → KV;
  attend : KV → list bool → list KV → list KV → H;
}.

Record MultiHeadAttention := mkMHA {
  layer_id : nat;
  weights : AttentionWeights;
}.

(** [(mask == 0).view(mask_reshape)]: the element counts must agree. *)
Definition view_mask (mask : AttnMask) (bs qlen : nat) (klen : Z)
    : option (list (list (list bool))) :=
  if klen <? 0 then None else
  let kl := Z.to_nat klen in
  match mask with
  | Mask3 m =>
      let flat := concat (concat m) in
      if (length flat =? bs * qlen * kl)%nat
      then Some (map (chunks qlen kl) (chunks bs (qlen * kl) flat))
      else None
  | Mask2 m =>
      let flat := concat m in
      if (length flat =? bs * kl)%nat
      then Some (map (λ r, [r]) (chunks bs kl flat))
      else None
  end.

(** [expand_as] on one axis: a size-one axis is repeated, any other size
    must already agree. *)
Definition expand_axis {A} (n : nat) (l : list A) : option (list A) :=
  if (length l =? n)%nat then Some l
  else match l with
       | [x] => Some (replicate n x)
       | _ => None
       end.

(** [.expand_as(scores)] for scores of shape (bs, n_heads, qlen, klen). *)
Definition expand_mask (m : list (list (list bool))) (qlen klen : nat)
    : option (list (list (list bool))) :=
  mapM (λ rows, rows' ← mapM (expand_axis klen) rows; expand_axis qlen rows') m.

(** [MultiHeadAttention.forward].  [cache] is the attribute [self.cache]
    (set by the caller just before the call); the result carries the output
    and the cache after the call. *)
Definition mha_forward (m : MultiHeadAttention) (cache : option Cache)
    (input : list (list H)) (mask : AttnMask) (kv : option (list (list H)))
    (use_cache : bool) : option (list (list H) * option Cache) :=
  _ ← py_assert (negb (use_cache && negb (bool_decide (is_Some cache))));
  let bs := length input in
  let qlen := dim1 input in
  let cslen := from_option cache_slen 0 cache in
  let centry := cache ≫= λ c, cache_kv c !! layer_id m in
  let klen :=
    match kv with
    | None => if use_cache then cslen + Z.of_nat qlen else Z.of_nat qlen
    | Some s => Z.of_nat (dim1 s)
    end in
  mask4 ← view_mask mask bs qlen klen;
  let q := map (map (q_lin (weights m))) input in
  let fresh : option (list (list KV) * list (list KV)) :=
    match kv with
    | None => Some (map (map (k_lin (weights m))) input, map (map (v_lin (weights m))) input)
    | Some s =>
        if negb use_cache || negb (bool_decide (is_Some centry))
        then Some (map (map (k_lin (weights m))) s, map (map (v_lin (weights m))) s)
        else None
    end in
  kv1 ← (if use_cache then
           match centry with
           | Some (k_, v_) =>
               match kv with
               | None =>
                   '(k, v) ← fresh;
                   k' ← cat_time k_ k; v' ← cat_time v_ v; Some (k', v')
               | Some _ => Some (k_, v_)
               end
           | None => fresh
           end
         else fresh);
  let cache' :=
    if use_cache
    then (λ c, {| cache_slen := cache_slen c;
                  cache_kv := <[layer_id m := kv1]> (cache_kv c) |}) <$> cache
    else cache in
  let '(k, v) := kv1 in
  (* scores = q . k^T, weights . v: batch and time axes must agree *)
  _ ← py_assert ((length k =? bs)%nat && (length v =? bs)%nat
                 && (dim1 v =? dim1 k)%nat);
  mask5 ← expand_mask mask4 qlen (dim1 k);
  let out :=
    zip_with (λ qm kvb, zip_with (λ qv mrow, attend (weights m) qv mrow kvb.1 kvb.2) qm.1 qm.2)
      (zip q mask5) (zip k v) in
  Some (out, cache').

(** ** The decoder: class TransformerModel *)

Definition N_MAX_POSITIONS : Z := 1024.

(** The configuration and the learnt layers.  [embed tok pos lang] is
    [layer_norm_emb] of the sum of the token, position and (when given)
    language embeddings; [add_norm1 i x a] is [layer_norm1[i](x + a)],
    [add_norm15] likewise; [ffn_norm2 i x] is [layer_norm2[i](x + ffns[i](x))];
    [mul_mask x b] is the product of [x] with the mask bit [b];
    [pred_layer] is [pred_layer.get_scores], present with [with_output].
    [first_layer_id] is the value of the counter [MultiHeadAttention.NEW_ID]
    when the constructor runs. *)
Record TransformerModel := mkModel {
  is_decoder : bool;
  n_layers : nat;
  n_words : nat;
  n_langs : nat;
  eos_index : Z;
  pad_index : Z;
  use_lang_emb : bool;
  first_layer_id : nat;
  embed : Z → Z → option Z → H;
  mul_mask : H → bool → H;
  self_attn_weights : nat → AttentionWeights;
  encoder_attn_weights : nat → AttentionWeights;
  add_norm1 : nat → H → H → H;
  add_norm15 : nat → H → H → H;
  ffn_norm2 : nat → H → H;
  pred_layer : option (H → list Q);
}.

(** The module lists built by the constructor's loop: each iteration draws an
    id for [attentions[i]] and, in a decoder, the next one for
    [encoder_attn[i]]. *)
Definition attentions (M : TransformerModel) (i : nat) : MultiHeadAttention :=
  {| layer_id := first_layer_id M + (if is_decoder M then 2 * i else i);
     weights := self_attn_weights M i |}.

Definition encoder_attn (M : TransformerModel) (i : nat) : MultiHeadAttention :=
  {| layer_id := first_layer_id M + 2 * i + 1;
     weights := encoder_attn_weights M i |}.

Definition in_range (x n : Z) : bool := (0 <=? x) && (x <? n).

(** The three embedding lookups of one position; an index outside its table
    raises, as does a language id when the model has no language table. *)
Definition embed_lookup (M : TransformerModel) (tok pos : Z) (lang : option Z)
    : option H :=
  if negb (in_range tok (Z.of_nat (n_words M)) && in_range pos N_MAX_POSITIONS)
  then None else
  match lang with
  | Some l =>
      if use_lang_emb M then
        if (1 <? n_langs M)%nat && in_range l (Z.of_nat (n_langs M))
        then Some (embed M tok pos (Some l)) else None
      else Some (embed M tok pos None)
  | None => Some (embed M tok pos None)
  end.

(** [t.size() == (cols, rows)] for a tensor kept as the list of its rows. *)
Definition has_shape {A} (rows cols : nat) (t : list (list A)) : bool :=
  (length t =? rows)%nat && forallb (λ r, (length r =? cols)%nat) t.

(** Broadcast of a two-axis tensor to (rows, cols). *)
Definition expand2 {A} (rows cols : nat) (t : list (list A)) : option (list (list A)) :=
  t' ← mapM (expand_axis cols) t; expand_axis rows t'.

Definition slice_mask (i : Z) (m : AttnMask) : AttnMask :=
  match m with
  | Mask2 r => Mask2 (map (py_slice_from i) r)
  | Mask3 r => Mask3 (map (py_slice_from i) r)
  end.

(** [tensor *= mask.unsqueeze(-1)] *)
Definition apply_mask (M : TransformerModel) (mask : list (list bool))
    (t : list (list H)) : option (list (list H)) :=
  m ← expand2 (length t) (dim1 t) mask;
  Some (zip_with (zip_with (mul_mask M)) t m).

(** Element-wise combination of two tensors of one shape. *)
Definition zip_rows {A B C} (f : A → B → C) (a : list (list A)) (b : list (list B))
    : option (list (list C)) :=
  if (length a =? length b)%nat && (dim1 a =? dim1 b)%nat
  then Some (zip_with (zip_with f) a b) else None.

(** The body of the loop over the layers of [fwd]. *)
Definition fwd_layer (M : TransformerModel) (attn_mask : AttnMask)
    (mask : list (list bool))
    (src : option (list (list H) * list (list bool))) (use_cache : bool)
    (i : nat) (st : list (list H) * option Cache)
    : option (list (list H) * option Cache) :=
  let '(tensor, cache) := st in
  '(attn, cache) ← mha_forward (attentions M i) cache tensor attn_mask None use_cache;
  tensor ← zip_rows (add_norm1 M i) tensor attn;
  '(tensor, cache) ←
    (if is_decoder M then
       match src with
       | Some (src_enc, src_mask) =>
           '(attn, cache) ← mha_forward (encoder_attn M i) cache tensor
                              (Mask2 src_mask) (Some src_enc) use_cache;
           tensor ← zip_rows (add_norm15 M i) tensor attn;
           Some (tensor, cache)
       | None => Some (tensor, cache)
       end
     else Some (tensor, cache));
  let tensor := map (map (ffn_norm2 M i)) tensor in
  tensor ← apply_mask M mask tensor;
  Some (tensor, cache).

Fixpoint fwd_layers (M : TransformerModel) (attn_mask : AttnMask)
    (mask : list (list bool))
    (src : option (list (list H) * list (list bool))) (use_cache : bool)
    (layers : list nat) (st : list (list H) * option Cache)
    : option (list (list H) * option Cache) :=
  match layers with
  | [] => Some st
  | i :: rest =>
      st' ← fwd_layer M attn_mask mask src use_cache i st;
      fwd_layers M attn_mask mask src use_cache rest st'
  end.

(** [t[:, -_slen:]] with [_slen = slen - cache['slen']]: the steps of [fwd]
    under "do not recompute cached elements". *)
Definition cut_cached {A} (cache : option Cache) (use_cache : bool) (slen : nat)
    (t : list (list A)) : list (list A) :=
  match cache with
  | Some c => if use_cache
              then map (py_slice_from (- (Z.of_nat slen - cache_slen c))) t
              else t
  | None => t
  end.

Definition cut_cached_mask (cache : option Cache) (use_cache : bool) (slen : nat)
    (m : AttnMask) : AttnMask :=
  match cache with
  | Some c => if use_cache
              then slice_mask (- (Z.of_nat slen - cache_slen c)) m
              else m
  | None => m
  end.

(** An optional argument of shape (slen, bs), checked when given. *)
Definition checked_arg (bs slen : nat) (a : option (list (list Z)))
    : option (option (list (list Z))) :=
  match a with
  | None => Some None
  | Some t => if has_shape bs slen t then Some (Some t) else None
  end.

(** The embedding layer of [fwd]: token, position and language embeddings,
    summed and normalised. *)
Definition embeddings (M : TransformerModel) (x positions : list (list Z))
    (langs : option (list (list Z))) : option (list (list H)) :=
  positions ← expand2 (length x) (dim1 x) positions;
  toks ← zip_rows pair x positions;
  match langs with
  | None => mapM (mapM (λ tp : Z * Z, embed_lookup M tp.1 tp.2 None)) toks
  | Some l =>
      tl ← zip_rows pair toks l;
      mapM (mapM (λ tpl : Z * Z * Z, embed_lookup M tpl.1.1 tpl.1.2 (Some tpl.2))) tl
  end.

(** [TransformerModel.fwd].  [x], [positions] and [langs] of shape (slen, bs)
    are lists of bs columns; the result, of shape (slen', bs, dim), is the
    list of bs rows of hidden states.  [cache] is [self.cache]. *)
Definition fwd (M : TransformerModel) (cache : option Cache)
    (x : list (list Z)) (lengths : list Z) (causal : bool)
    (src_enc : option (list (list H))) (src_len : option (list Z))
    (positions langs : option (list (list Z))) (use_cache : bool)
    : option (list (list H) * option Cache) :=
  _ ← py_assert (negb (use_cache && negb (bool_decide (is_Some cache))));
  let slen := dim1 x in
  let bs := length x in
  _ ← py_assert (length lengths =? bs)%nat;
  mx ← max_list lengths;
  _ ← py_assert (mx <=? Z.of_nat slen);
  _ ← py_assert (eqb (bool_decide (is_Some src_enc)) (bool_decide (is_Some src_len)));
  _ ← py_assert (negb (bool_decide (is_Some src_enc))
                 || (is_decoder M && (length (default [] src_enc) =? bs)%nat));
  '(mask, attn_mask) ← get_masks slen lengths causal;
  let src : option (list (list H) * list (list bool)) :=
    if is_decoder M then
      enc ← src_enc; len ← src_len;
      Some (enc, length_mask (seq 0 (dim1 enc)) len)
    else None in
  positions ← checked_arg bs slen positions;
  langs ← checked_arg bs slen langs;
  let positions := default [map Z.of_nat (seq 0 slen)] positions in
  let x := cut_cached cache use_cache slen x in
  let positions := cut_cached cache use_cache slen positions in
  let langs := cut_cached cache use_cache slen <$> langs in
  let mask := cut_cached cache use_cache slen mask in
  let attn_mask := cut_cached_mask cache use_cache slen attn_mask in
  tensor ← embeddings M x positions langs;
  tensor ← apply_mask M mask tensor;
  st ← fwd_layers M attn_mask mask src use_cache
         (seq 0 (n_layers M)) (tensor, cache);
  let tensor := st.1 in
  let cache : option Cache := st.2 in
  let cache :=
    if use_cache
    then (λ c, {| cache_slen := cache_slen c + Z.of_nat (dim1 tensor);
                  cache_kv := cache_kv c |}) <$> cache
    else cache in
  Some (tensor, cache).

(** ** Greedy and sampling decoding: TransformerModel.generate *)

(** [max_len]: an int, or a tensor with one maximum per sentence. *)
Inductive MaxLen :=
| MaxInt (n : Z)
| MaxTensor (l : list Z).

(** [l[m] = vals] with [f] combining the old element and the new value. *)
Fixpoint masked_update {A B} (f : B → A → B) (m : list bool) (vals : list A)
    (l : list B) : list B :=
  match m, l with
  | true :: m', x :: l' =>
      match vals with
      | v :: vals' => f x v :: masked_update f m' vals' l'
      | [] => x :: l'
      end
  | false :: m', x :: l' => x :: masked_update f m' vals l'
  | _, _ => l
  end.

(** The loop variables of [generate]. *)
Record GenState := mkGenState {
  generated : list (list Z);
  gen_len : list Z;
  unfinished_sents : list Z;
  gen_cache : option Cache;
  cur_len : nat;
  previous_unfinished_mask : list bool;
}.

(** [self.cache[k] = (t[restricted_mask] for t in v)] for every int key. *)
Definition restrict_cache (restricted_mask : list bool) (c : Cache) : option Cache :=
  _ ← py_assert (bool_decide (map_Forall
         (λ _ (e : list (list KV) * list (list KV)),
            length e.1 = length restricted_mask ∧ length e.2 = length restricted_mask)
         (cache_kv c)));
  Some {| cache_slen := cache_slen c;
          cache_kv := (λ e, (select_rows restricted_mask e.1,
                             select_rows restricted_mask e.2)) <$> cache_kv c |}.

(** The choice of the next words from the scores of the active sentences. *)
Definition next_words_of `{NumericBackend} (sample_temperature : option Q)
    (step : nat) (scores : list (list Q)) : option (list Z) :=
  match sample_temperature with
  | None =>
      mapM (λ row, top ← topk 1 row; e ← top !! 0%nat; Some (Z.of_nat e.2)) scores
  | Some temp =>
      _ ← py_assert (negb (Qeq_bool temp 0));
      mapM (λ ir : nat * list Q,
              _ ← py_assert (negb (bool_decide (ir.2 = [])));
              Some (Z.of_nat (multinomial step ir.1
                                (softmax (map (λ s, s / temp)%Q ir.2)))))
           (imap pair scores)
  end.

(** [unfinished_sents.ne(0)] *)
Definition unfinished_mask_of (st : GenState) : list bool :=
  map (λ u, negb (u =? 0)) (unfinished_sents st).

(** The head of an iteration of [generate]: the cache as the iteration hands
    it to [fwd], every entry restricted to the sentences still unfinished
    when the mask has changed since the previous iteration. *)
Definition step_cache (st : GenState) : option (option Cache) :=
  let unfinished_mask := unfinished_mask_of st in
  _ ← py_assert (length unfinished_mask =? length (previous_unfinished_mask st))%nat;
  let should_modify :=
    existsb id (zip_with xorb unfinished_mask (previous_unfinished_mask st)) in
  restricted_mask ← bool_index unfinished_mask (previous_unfinished_mask st);
  match gen_cache st with
  | Some c => if should_modify then Some <$> restrict_cache restricted_mask c
              else Some (Some c)
  | None => Some None
  end.

(** One iteration of the [while] loop of [generate], up to the [break] test. *)
Definition generate_step `{NumericBackend} (M : TransformerModel)
    (src_enc : list (list H)) (src_len : list Z)
    (positions langs : list (list Z)) (max_lengths : list Z)
    (sample_temperature : option Q) (st : GenState) : option GenState :=
  let unfinished_mask := unfinished_mask_of st in
  cache ← step_cache st;
  x ← bool_index (generated st) unfinished_mask;
  lengths ← bool_index (gen_len st) unfinished_mask;
  pos ← bool_index positions unfinished_mask;
  lng ← bool_index langs unfinished_mask;
  enc ← bool_index src_enc unfinished_mask;
  len ← bool_index src_len unfinished_mask;
  out ← fwd M cache (map (take (cur_len st)) x) lengths true (Some enc) (Some len)
          (Some (map (take (cur_len st)) pos)) (Some (map (take (cur_len st)) lng)) true;
  let tensor := out.1 in
  let cache : option Cache := out.2 in
  _ ← py_assert ((dim1 tensor =? 1)%nat && (length tensor =? length x)%nat);
  last_h ← mapM (λ row : list H, last row) tensor;
  pred ← pred_layer M;
  let scores := map pred last_h in
  next_words ← next_words_of sample_temperature (cur_len st) scores;
  let generated1 :=
    masked_update (λ col w, <[cur_len st := w]> col) unfinished_mask next_words
      (generated st) in
  _ ← py_assert (length (gen_len st) =? length (unfinished_sents st))%nat;
  let gen_len1 := zip_with Z.add (gen_len st) (unfinished_sents st) in
  _ ← py_assert ((length max_lengths =? length (unfinished_sents st))%nat
                 && (length generated1 =? length max_lengths)%nat);
  let force := zip_with (λ ml u, (ml =? Z.of_nat (cur_len st) + 1) && (u =? 1))
                 max_lengths (unfinished_sents st) in
  let generated2 :=
    zip_with (λ col (f : bool), if f then <[cur_len st := eos_index M]> col else col)
      generated1 force in
  ml_active ← bool_index max_lengths unfinished_mask;
  let factors :=
    zip_with (λ w ml, (if w =? eos_index M then 0 else 1)
                      * (if ml =? Z.of_nat (cur_len st) + 1 then 0 else 1))
      next_words ml_active in
  let unfinished1 := masked_update Z.mul unfinished_mask factors (unfinished_sents st) in
  Some {| generated := generated2;
          gen_len := gen_len1;
          unfinished_sents := unfinished1;
          gen_cache := cache;
          cur_len := S (cur_len st);
          previous_unfinished_mask := unfinished_mask |}.

(** The [while cur_len < global_max_len] loop; [n] is
    [global_max_len - cur_len], the number of iterations the test still
    allows.  The loop is left early once [unfinished_sents.max() == 0]. *)
Fixpoint generate_loop `{NumericBackend} (M : TransformerModel)
    (src_enc : list (list H)) (src_len : list Z)
    (positions langs : list (list Z)) (max_lengths : list Z)
    (sample_temperature : option Q) (n : nat) (st : GenState) : option GenState :=
  match n with
  | O => Some st
  | S n' =>
      st' ← generate_step M src_enc src_len positions langs max_lengths
              sample_temperature st;
      mx ← max_list (unfinished_sents st');
      if mx =? 0 then Some st'
      else generate_loop M src_enc src_len positions langs max_lengths
             sample_temperature n' st'
  end.

(** Number of occurrences of a token in a tensor. *)
Definition count_tok (tok : Z) (t : list (list Z)) : nat :=
  length (filter (λ x, x = tok) (concat t)).

(** [TransformerModel.generate]: the columns of [generated[:cur_len]] and
    [gen_len]. *)
Definition generate `{NumericBackend} (M : TransformerModel)
    (src_enc : list (list H)) (src_len : list Z) (tgt_lang_id : Z)
    (max_len : MaxLen) (sample_temperature : option Q)
    : option (list (list Z) * list Z) :=
  let bs := length src_len in
  '(max_lengths, global_max_len) ←
    match max_len with
    | MaxInt n => Some (replicate bs n, n)
    | MaxTensor l => mx ← max_list l; Some (l, mx)
    end;
  _ ← py_assert (length src_enc =? bs)%nat;
  (* generated = src_len.new(global_max_len, bs); generated[0].fill_(eos) *)
  _ ← py_assert (1 <=? global_max_len);
  let gml := Z.to_nat global_max_len in
  let generated0 := replicate bs (eos_index M :: replicate (gml - 1) (pad_index M)) in
  let positions := replicate bs (map Z.of_nat (seq 0 gml)) in
  let langs := replicate bs (replicate gml tgt_lang_id) in
  let st0 := {| generated := generated0;
                gen_len := replicate bs 1;
                unfinished_sents := replicate bs 1;
                gen_cache := Some empty_cache;
                cur_len := 1;
                previous_unfinished_mask := replicate bs true |} in
  st ← generate_loop M src_enc src_len positions langs max_lengths
         sample_temperature (gml - 1) st0;
  _ ← py_assert (count_tok (eos_index M) (generated st) =? 2 * bs)%nat;
  Some (map (take (cur_len st)) (generated st), gen_len st).

(** ** Beam search: TransformerModel.generate_beam *)

(** The loop variables of [generate_beam]. *)
Record BeamState := mkBeamState {
  b_generated : list (list Z);
  beam_scores : list Q;
  b_cache : option Cache;
  generated_hyps : list BeamHypotheses;
  done : list bool;
  b_cur_len : nat;
}.

(** [self.cache[k] = (self.cache[k][0][beam_idx], self.cache[k][1][beam_idx])]
    for every key but ['slen']. *)
Definition reindex_cache (beam_idx : list nat) (c : Cache) : option Cache :=
  _ ← py_assert (bool_decide (map_Forall
         (λ _ (e : list (list KV) * list (list KV)),
            Forall (λ i, i < length e.1 ∧ i < length e.2)%nat beam_idx)
         (cache_kv c)));
  Some {| cache_slen := cache_slen c;
          cache_kv := (λ e, (omap (λ i, e.1 !! i) beam_idx,
                             omap (λ i, e.2 !! i) beam_idx)) <$> cache_kv c |}.

(** [t.max()] of a float tensor. *)
Definition max_listQ (l : list Q) : option Q :=
  match l with [] => None | x :: l' => Some (foldr Qmax x l') end.

(** The walk over the candidates of one sentence: the [for idx, value in zip(...)]
    loop with its [break]. *)
Fixpoint beam_walk `{NumericBackend} (M : TransformerModel) (beam_size : nat)
    (last_step : bool) (cur_len : nat) (generated : list (list Z)) (sent_id : nat)
    (cands : list (Q * nat)) (pool : BeamHypotheses)
    (next_sent_beam : list (Q * Z * nat))
    : option (BeamHypotheses * list (Q * Z * nat)) :=
  match cands with
  | [] => Some (pool, next_sent_beam)
  | (value, idx) :: rest =>
      let beam_id := (idx / n_words M)%nat in
      let word_id := Z.of_nat (idx mod n_words M) in
      r ← (if (word_id =? eos_index M) || last_step then
             col ← generated !! (sent_id * beam_size + beam_id)%nat;
             pool' ← add pool (take cur_len col) value;
             Some (pool', next_sent_beam)
           else
             Some (pool, next_sent_beam
                           ++ [(value, word_id, (sent_id * beam_size + beam_id)%nat)]));
      if (length r.2 =? beam_size)%nat then Some r
      else beam_walk M beam_size last_step cur_len generated sent_id rest r.1 r.2
  end.

(** The body of [for sent_id in range(bs)]: the new [done] flag, the pool and
    the beams this sentence contributes to [next_batch_beam]. *)
Definition beam_sentence `{NumericBackend} (M : TransformerModel) (beam_size : nat)
    (last_step : bool) (cur_len : nat) (generated : list (list Z)) (sent_id : nat)
    (cands : list (Q * nat)) (done_s : bool) (pool : BeamHypotheses)
    : option (bool * BeamHypotheses * list (Q * Z * nat)) :=
  d ← (if done_s then Some true
       else best ← max_listQ (cands.*1); is_done pool best);
  if d : bool then Some (true, pool, replicate beam_size (0%Q, pad_index M, 0%nat))
  else
    r ← beam_walk M beam_size last_step cur_len generated sent_id cands pool [];
    _ ← py_assert (if last_step then (length r.2 =? 0)%nat
                   else negb (beam_size =? 0)%nat);
    let next_sent_beam :=
      if (length r.2 =? 0)%nat
      then replicate beam_size (0%Q, pad_index M, 0%nat) else r.2 in
    Some (false, r.1, next_sent_beam).

(** The loop over the sentences, accumulating [done], the pools and
    [next_batch_beam]. *)
Fixpoint beam_sentences `{NumericBackend} (M : TransformerModel) (beam_size : nat)
    (last_step : bool) (cur_len : nat) (generated : list (list Z)) (sent_id : nat)
    (cands : list (list (Q * nat))) (dones : list bool) (pools : list BeamHypotheses)
    (next_batch_beam : list (Q * Z * nat))
    : option (list bool * list BeamHypotheses * list (Q * Z * nat)) :=
  match cands, dones, pools with
  | c :: cands', d :: dones', p :: pools' =>
      r ← beam_sentence M beam_size last_step cur_len generated sent_id c d p;
      let nbb := next_batch_beam ++ r.2 in
      _ ← py_assert (length nbb =? beam_size * (sent_id + 1))%nat;
      rest ← beam_sentences M beam_size last_step cur_len generated (S sent_id)
               cands' dones' pools' nbb;
      Some (r.1.1 :: rest.1.1, r.1.2 :: rest.1.2, rest.2)
  | [], [], [] => Some ([], [], next_batch_beam)
  | _, _, _ => None
  end.

(** One iteration of the [while] loop of [generate_beam], up to the [break]. *)
Definition beam_step `{NumericBackend} (M : TransformerModel)
    (bs beam_size : nat) (global_max_len : nat)
    (src_enc : list (list H)) (src_len : list Z)
    (positions langs : list (list Z)) (st : BeamState) : option BeamState :=
  let cur := b_cur_len st in
  out ← fwd M (b_cache st) (map (take cur) (b_generated st))
          (replicate (bs * beam_size) (Z.of_nat cur)) true
          (Some src_enc) (Some src_len)
          (Some (map (take cur) positions)) (Some (map (take cur) langs)) true;
  let tensor := out.1 in
  let cache : option Cache := out.2 in
  _ ← py_assert ((dim1 tensor =? 1)%nat && (length tensor =? bs * beam_size)%nat);
  last_h ← mapM (λ row : list H, last row) tensor;
  pred ← pred_layer M;
  let scores := map (λ h, log_softmax (pred h)) last_h in
  _ ← py_assert (has_shape (bs * beam_size) (n_words M) scores);
  _ ← py_assert (length (beam_scores st) =? length scores)%nat;
  let _scores := zip_with (λ row b, map (λ s, s + b)%Q row) scores (beam_scores st) in
  let _scores := map (λ g : list (list Q), concat g) (chunks bs beam_size _scores) in
  cands ← mapM (topk (2 * beam_size)) _scores;
  let last_step := (cur + 1 =? global_max_len)%nat in
  r ← beam_sentences M beam_size last_step cur (b_generated st) 0 cands
        (done st) (generated_hyps st) [];
  let next_batch_beam := r.2 in
  _ ← py_assert (length next_batch_beam =? bs * beam_size)%nat;
  let beam_words := next_batch_beam.*1.*2 in
  let beam_idx := next_batch_beam.*2 in
  generated1 ← index_rows (b_generated st) beam_idx;
  let generated2 := zip_with (λ col w, <[cur := w]> col) generated1 beam_words in
  cache ← match cache with
          | Some c => Some <$> reindex_cache beam_idx c
          | None => None
          end;
  Some {| b_generated := generated2;
          beam_scores := next_batch_beam.*1.*1;
          b_cache := cache;
          generated_hyps := r.1.2;
          done := r.1.1;
          b_cur_len := S cur |}.

(** The [while cur_len < global_max_len] loop; [n] is
    [global_max_len - cur_len].  The loop is left early once [all(done)]. *)
Fixpoint beam_loop `{NumericBackend} (M : TransformerModel)
    (bs beam_size : nat) (global_max_len : nat)
    (src_enc : list (list H)) (src_len : list Z)
    (positions langs : list (list Z)) (n : nat) (st : BeamState) : option BeamState :=
  match n with
  | O => Some st
  | S n' =>
      st' ← beam_step M bs beam_size global_max_len src_enc src_len positions langs st;
      if forallb id (done st') then Some st'
      else beam_loop M bs beam_size global_max_len src_enc src_len positions langs n' st'
  end.

(** The column [decoded[:, hyp_index, i]] written for one hypothesis. *)
Definition decoded_column (M : TransformerModel) (rows : nat) (hypo : list Z)
    : option (list Z) :=
  _ ← py_assert (length hypo <? rows)%nat;
  Some (hypo ++ eos_index M :: replicate (rows - length hypo - 1) (pad_index M)).

(** [TransformerModel.generate_beam].  [decoded], of shape
    (tgt_len.max(), beam_size, bs), is the list over the sentences [i] of the
    list over [hyp_index] of the columns [decoded[:, hyp_index, i]]. *)
Definition generate_beam `{NumericBackend} (M : TransformerModel)
    (src_enc : list (list H)) (src_len : list Z) (tgt_lang_id : Z)
    (beam_size : nat) (length_penalty : Q) (early_stopping : bool)
    (max_len : MaxLen) : option (list (list (list Z)) * list Z) :=
  let bs := length src_len in
  global_max_len ←
    match max_len with
    | MaxInt n => Some n
    | MaxTensor l => max_list l
    end;
  _ ← py_assert (length src_enc =? length src_len)%nat;
  _ ← py_assert (1 <=? beam_size)%nat;
  let src_enc := concat (map (replicate beam_size) src_enc) in
  let src_len := concat (map (replicate beam_size) src_len) in
  _ ← py_assert (1 <=? global_max_len);
  let gml := Z.to_nat global_max_len in
  let generated0 :=
    replicate (bs * beam_size) (eos_index M :: replicate (gml - 1) (pad_index M)) in
  let hyps0 :=
    replicate bs (BeamHypotheses_init beam_size global_max_len length_penalty
                    early_stopping) in
  let positions := replicate (bs * beam_size) (map Z.of_nat (seq 0 gml)) in
  let langs := replicate (bs * beam_size) (replicate gml tgt_lang_id) in
  let scores0 :=
    concat (replicate bs (0%Q :: replicate (beam_size - 1) (-1000000000)%Q)) in
  let st0 := {| b_generated := generated0;
                beam_scores := scores0;
                b_cache := Some empty_cache;
                generated_hyps := hyps0;
                done := replicate bs false;
                b_cur_len := 1 |} in
  st ← beam_loop M bs beam_size gml src_enc src_len positions langs (gml - 1) st0;
  (* select the best hypotheses *)
  let best :=
    map (λ p, (sorted_by (λ a b : Q * list Z, Qle_bool b.1 a.1) (hyp p)).*2)
      (generated_hyps st) in
  tgt_len ← mapM (λ sorted_hyps : list (list Z),
                    mx ← max_list (map (λ h, Z.of_nat (length h)) sorted_hyps);
                    Some (mx + 1)) best;
  rows ← max_list tgt_len;
  (* generate target batch *)
  decoded ← mapM (λ hypo_list : list (list Z),
                    _ ← py_assert (length hypo_list <=? beam_size)%nat;
                    cols ← mapM (decoded_column M (Z.to_nat rows)) hypo_list;
                    Some (cols ++ replicate (beam_size - length hypo_list)
                                    (replicate (Z.to_nat rows) (pad_index M))))
               best;
  _ ← py_assert (count_tok (eos_index M) (concat decoded) =? 2 * beam_size * bs)%nat;
  Some (decoded, tgt_len).

End Network.

(** ** Concrete instances used by the examples *)

(** A backend whose length normaliser is the length itself (length penalty 1),
    whose softmax rows are taken as already normalised and whose sampler
    always draws index 0. *)
Program Definition unit_backend : NumericBackend :=
  {| float_pow := λ n _, Some (inject_Z n);
     logsumexp := λ _, 0%Q;
     softmax := λ row, row;
     multinomial := λ _ _ _, 0%nat |}.
Next Obligation. done. Qed.
Next Obligation. intros _ _ [|? ?] ?; simpl; [done | lia]. Qed.

(** A decoder over a vocabulary of four words (1 is the end marker, 2 the
    padding) whose hidden state at a position is the list of the tokens up to
    it: the embedding of a token is the token, keys and values carry it, and
    attention returns the values it is given.  [pred] reads the scores of the
    next word off that list. *)
Definition toy_weights : @AttentionWeights (list Z) Z :=
  {| q_lin := λ h, default 0 (last h);
     k_lin := λ h, default 0 (last h);
     v_lin := λ h, default 0 (last h);
     attend := λ _ _ _ vs, vs |}.

Definition toy_model (pred : list Z → list Q) : @TransformerModel (list Z) Z :=
  {| is_decoder := true; n_layers := 1; n_words := 4; n_langs := 2;
     eos_index := 1; pad_index := 2; use_lang_emb := true; first_layer_id := 0;
     embed := λ tok _ _, [tok];
     mul_mask := λ h b, if b then h else [];
     self_attn_weights := λ _, toy_weights;
     encoder_attn_weights := λ _, toy_weights;
     add_norm1 := λ _ _ a, a;
     add_norm15 := λ _ x _, x;
     ffn_norm2 := λ _ x, x;
     pred_layer := Some pred |}.

(** Scores under which word 0 follows the start marker and the end marker
    follows anything else. *)
Definition toy_pred (h : list Z) : list Q :=
  match h with
  | [1] => [(-1 # 10)%Q; (-3)%Q; (-5)%Q; (-4)%Q]
  | _ => [(-3)%Q; (-1 # 10)%Q; (-5)%Q; (-4)%Q]
  end.

(** * Properties *)

(** ** Rational comparisons *)

Lemma Qlt_bool_iff (a b : Q) : Qlt_bool a b = true ↔ (a < b)%Q.
Proof.
  unfold Qlt_bool. rewrite negb_true_iff.
  destruct (Qle_bool b a) eqn:E.
  - apply Qle_bool_iff in E. split; [done | intros; exfalso; lra].
  - split; [intros _ | done].
    destruct (Qlt_le_dec a b) as [|Hle]; [done |].
    apply Qle_bool_iff in Hle. congruence.
Qed.

Lemma Qlt_bool_false (a b : Q) : Qlt_bool a b = false ↔ (b <= a)%Q.
Proof.
  unfold Qlt_bool. rewrite negb_false_iff. apply Qle_bool_iff.
Qed.

Lemma Qeq_bool_false (a b : Q) : Qeq_bool a b = false ↔ ¬ (a == b)%Q.
Proof.
  split.
  - intros E Heq. apply Qeq_bool_iff in Heq. congruence.
  - intros Hne. destruct (Qeq_bool a b) eqn:E; [| done].
    apply Qeq_bool_iff in E. done.
Qed.

Lemma py_div_Some (a b : Q) : ¬ (b == 0)%Q → py_div a b = Some (a / b)%Q.
Proof. intros Hb. unfold py_div. by rewrite (proj2 (Qeq_bool_false b 0) Hb). Qed.

(** ** The stable insertion sort *)

Section sorted_by_facts.
Context {A : Type} (le : A → A → bool).

Lemma insert_sorted_perm x l : insert_sorted le x l ≡ₚ x :: l.
Proof.
  induction l as [|y l IH]; simpl; [done |].
  destruct (le x y); [done |].
  rewrite IH. apply Permutation_swap.
Qed.

Lemma sorted_by_perm l : sorted_by le l ≡ₚ l.
Proof.
  induction l as [|x l IH]; simpl; [done |].
  unfold sorted_by in *. simpl. by rewrite insert_sorted_perm, IH.
Qed.

Lemma sorted_by_length l : length (sorted_by le l) = length l.
Proof. apply Permutation_length, sorted_by_perm. Qed.

Hypothesis le_total : ∀ x y, le x y = true ∨ le y x = true.
Hypothesis le_trans : ∀ x y z, le x y = true → le y z = true → le x z = true.

Lemma insert_sorted_sorted x l :
  StronglySorted (λ a b, le a b = true) l →
  StronglySorted (λ a b, le a b = true) (insert_sorted le x l).
Proof.
  induction 1 as [|y l Hs IH Hy]; simpl.
  - repeat constructor.
  - destruct (le x y) eqn:E.
    + constructor; [by constructor |].
      constructor; [done |].
      eapply Forall_impl; [exact Hy |]. intros z Hz. by eapply le_trans.
    + constructor; [done |].
      rewrite insert_sorted_perm. constructor; [| done].
      destruct (le_total x y); congruence.
Qed.

Lemma sorted_by_sorted l : StronglySorted (λ a b, le a b = true) (sorted_by le l).
Proof.
  induction l as [|x l IH]; [constructor |].
  unfold sorted_by in *. simpl. by apply insert_sorted_sorted.
Qed.

End sorted_by_facts.

(** ** The hypothesis pool *)

Section pool_facts.
Context `{NumericBackend}.


(** C10.  On a pool holding exactly [n_hyp] hypotheses, an [add] whose
    normalised score equals the worst retained score changes nothing. *)
Theorem add_tie_rejected (p : BeamHypotheses) (h : list Z) (sum_logprobs d : Q) :
  length (hyp p) = n_hyp p →
  float_pow (Z.of_nat (length h)) (length_penalty p) = Some d →
  ¬ (d == 0)%Q →
  (sum_logprobs / d == worst_score p)%Q →
  add p h sum_logprobs = Some p.
Proof.
  intros Hlen Hd Hd0 Htie. unfold add. rewrite Hd. simpl.
  rewrite py_div_Some by done. simpl.
  rewrite (proj2 (Nat.ltb_ge _ _)) by lia.
  rewrite (proj2 (Qlt_bool_false _ _)); [done |].
  rewrite Htie. apply Qle_refl.
Qed.

End pool_facts.

(** *** The order on (score, index) pairs *)

Ltac q_tests :=
  repeat match goal with
  | H : Qeq_bool _ _ = true |- _ => apply Qeq_bool_iff in H
  | H : Qeq_bool _ _ = false |- _ => apply Qeq_bool_false in H
  | H : Qlt_bool _ _ = true |- _ => apply Qlt_bool_iff in H
  | H : Qlt_bool _ _ = false |- _ => apply Qlt_bool_false in H
  | H : Qle_bool _ _ = true |- _ => apply Qle_bool_iff in H
  | H : (_ <=? _)%nat = true |- _ => apply Nat.leb_le in H
  | H : (_ <=? _)%nat = false |- _ => apply Nat.leb_gt in H
  end.

Lemma score_idx_le_total a b : score_idx_le a b = true ∨ score_idx_le b a = true.
Proof.
  unfold score_idx_le.
  destruct (Qeq_bool a.1 b.1) eqn:E1, (Qeq_bool b.1 a.1) eqn:E2; q_tests.
  - destruct (Nat.leb_spec a.2 b.2); [by left | right]. apply Nat.leb_le. lia.
  - exfalso. apply E2. by symmetry.
  - exfalso. apply E1. by symmetry.
  - destruct (Qlt_le_dec a.1 b.1) as [Hl|Hl].
    + left. by apply Qlt_bool_iff.
    + right. apply Qlt_bool_iff. destruct (Qle_lt_or_eq _ _ Hl); [done | by exfalso].
Qed.

Lemma score_idx_le_trans a b c :
  score_idx_le a b = true → score_idx_le b c = true → score_idx_le a c = true.
Proof.
  unfold score_idx_le.
  destruct (Qeq_bool a.1 b.1) eqn:E1, (Qeq_bool b.1 c.1) eqn:E2,
    (Qeq_bool a.1 c.1) eqn:E3; intros H1 H2; q_tests;
    try (apply Nat.leb_le; lia); try (apply Qlt_bool_iff; lra);
    exfalso; try lra.
  all: apply E3 || apply E2 || apply E1; lra.
Qed.

Lemma score_idx_le_score a b : score_idx_le a b = true → (a.1 <= b.1)%Q.
Proof.
  unfold score_idx_le. destruct (Qeq_bool a.1 b.1) eqn:E; intros Hle; q_tests; lra.
Qed.

(** *** The two lowest entries of a pool with an entry too many *)

Definition indexed (l : list (Q * list Z)) : list (Q * nat) :=
  imap (λ idx e, (e.1, idx)) l.

Lemma elem_of_indexed l s i :
  (s, i) ∈ indexed l ↔ ∃ e, l !! i = Some e ∧ e.1 = s.
Proof.
  unfold indexed. rewrite elem_of_lookup_imap. split.
  - intros (j & e & Heq & Hj). injection Heq as -> ->. eauto.
  - intros (e & Hi & <-). eauto.
Qed.

Lemma indexed_snd l : (indexed l).*2 = seq 0 (length l).
Proof.
  unfold indexed. rewrite fmap_imap.
  rewrite (imap_ext _ (λ j _, j)) by done.
  rewrite imap_seq_0. by rewrite list_fmap_id.
Qed.

Lemma lowest_two (l : list (Q * list Z)) :
  (2 ≤ length l)%nat →
  ∃ a b rest e0 e1,
    sorted_by score_idx_le (indexed l) = a :: b :: rest
    ∧ l !! a.2 = Some e0 ∧ e0.1 = a.1
    ∧ l !! b.2 = Some e1 ∧ e1.1 = b.1
    ∧ a.2 ≠ b.2
    ∧ (∀ e, e ∈ l → (a.1 <= e.1)%Q)
    ∧ (∀ j e, j ≠ a.2 → l !! j = Some e → (b.1 <= e.1)%Q).
Proof.
  intros Hlen.
  pose proof (sorted_by_perm score_idx_le (indexed l)) as Hperm.
  pose proof (sorted_by_sorted score_idx_le score_idx_le_total
                score_idx_le_trans (indexed l)) as Hsorted.
  pose proof (sorted_by_length score_idx_le (indexed l)) as Hl.
  unfold indexed at 2 in Hl. rewrite length_imap in Hl.
  destruct (sorted_by score_idx_le (indexed l)) as [|a [|b rest]] eqn:Es;
    simpl in Hl; try lia.
  assert (Ha : a ∈ indexed l) by (rewrite <- Hperm; set_solver).
  assert (Hb : b ∈ indexed l) by (rewrite <- Hperm; set_solver).
  destruct a as [s0 i0], b as [s1 i1].
  apply elem_of_indexed in Ha as (e0 & He0 & Hs0).
  apply elem_of_indexed in Hb as (e1 & He1 & Hs1).
  assert (Hnd : NoDup (((s0, i0) :: (s1, i1) :: rest).*2)).
  { rewrite Hperm, indexed_snd. apply NoDup_seq. }
  apply StronglySorted_cons in Hsorted as [Ha_le Hsorted].
  apply StronglySorted_cons in Hsorted as [Hb_le _].
  exists (s0, i0), (s1, i1), rest, e0, e1. simpl. repeat split; try done.
  - simpl in Hnd. apply NoDup_cons in Hnd as [Hni _]. set_solver.
  - intros e He. apply list_elem_of_lookup in He as [j Hj].
    assert (Hin : (e.1, j) ∈ (s0, i0) :: (s1, i1) :: rest).
    { rewrite Hperm. apply elem_of_indexed. eauto. }
    apply elem_of_cons in Hin as [Heq | Hin].
    + injection Heq as -> ->. lra.
    + rewrite Forall_forall in Ha_le.
      apply (score_idx_le_score (s0, i0) (e.1, j)). by apply Ha_le.
  - intros j e Hne Hj.
    assert (Hin : (e.1, j) ∈ (s0, i0) :: (s1, i1) :: rest).
    { rewrite Hperm. apply elem_of_indexed. eauto. }
    apply elem_of_cons in Hin as [Heq | Hin]; [by injection Heq as -> -> |].
    apply elem_of_cons in Hin as [Heq | Hin].
    + injection Heq as -> ->. lra.
    + rewrite Forall_forall in Hb_le.
      apply (score_idx_le_score (s1, i1) (e.1, j)). by apply Hb_le.
Qed.

(** *** The invariant of the pool *)

(** [w] is the least score of [l] and some entry of [l] carries it. *)
Definition is_min_score (w : Q) (l : list (Q * list Z)) : Prop :=
  (∃ e, e ∈ l ∧ e.1 = w) ∧ ∀ e, e ∈ l → (w <= e.1)%Q.

(** At most [n_hyp] entries, and [worst_score] is their least score (before
    the first entry it is still a bound no log-probability exceeds). *)
Definition pool_ok (p : BeamHypotheses) : Prop :=
  (1 ≤ n_hyp p)%nat
  ∧ (length (hyp p) ≤ n_hyp p)%nat
  ∧ match hyp p with
    | [] => (0 <= worst_score p)%Q
    | _ => is_min_score (worst_score p) (hyp p)
    end.

(** A call [add(h, s)] of the decoder: [s] is a sum of log-probabilities and
    the normaliser [len(h) ** length_penalty] is a positive number. *)
Definition valid_call `{NumericBackend} (lp : Q) (c : list Z * Q) : Prop :=
  ∃ d, float_pow (Z.of_nat (length c.1)) lp = Some d ∧ (0 < d)%Q ∧ (c.2 <= 0)%Q.

(** A sequence of [add] calls. *)
Fixpoint adds `{NumericBackend} (p : BeamHypotheses) (calls : list (list Z * Q))
    : option BeamHypotheses :=
  match calls with
  | [] => Some p
  | c :: rest => p' ← add p c.1 c.2; adds p' rest
  end.

(** What one [add] of a hypothesis with normalised score [score] does. *)
Definition add_effect (p : BeamHypotheses) (h : list Z) (score : Q)
    (p' : BeamHypotheses) : Prop :=
  let new := (score, h) in
  ((length (hyp p) < n_hyp p)%nat → hyp p' = hyp p ++ [new])
  ∧ ((length (hyp p) = n_hyp p)%nat → (worst_score p < score)%Q →
     ∃ i e, (i < length (hyp p))%nat ∧ hyp p !! i = Some e
            ∧ hyp p' = delete i (hyp p ++ [new])
            ∧ ∀ e', e' ∈ hyp p ++ [new] → (e.1 <= e'.1)%Q)
  ∧ ((length (hyp p) = n_hyp p)%nat → (score <= worst_score p)%Q → p' = p).

Section pool_invariant.
Context `{NumericBackend}.

Lemma pool_ok_init n m lp es : (1 ≤ n)%nat → pool_ok (BeamHypotheses_init n m lp es).
Proof. intros Hn. repeat split; simpl; [done | lia | lra]. Qed.

Lemma add_fields p h s p' :
  add p h s = Some p' →
  n_hyp p' = n_hyp p ∧ length_penalty p' = length_penalty p
  ∧ max_len p' = max_len p ∧ early_stopping p' = early_stopping p.
Proof.
  unfold add. intros Hadd.
  repeat (simplify_option_eq || case_match); done.
Qed.

Lemma elem_of_delete_lookup {A} (l : list A) i e :
  e ∈ delete i l → ∃ j, j ≠ i ∧ l !! j = Some e.
Proof.
  intros He. apply list_elem_of_lookup in He as [j Hj].
  rewrite list_lookup_delete in Hj. case_decide; eexists; split; try exact Hj; lia.
Qed.

Lemma lookup_elem_of_delete {A} (l : list A) i j e :
  j ≠ i → l !! j = Some e → e ∈ delete i l.
Proof.
  intros Hne Hj. apply list_elem_of_lookup.
  destruct (decide (j < i)%nat).
  - exists j. by rewrite list_lookup_delete_lt.
  - exists (j - 1)%nat. rewrite list_lookup_delete_ge by lia.
    by replace (S (j - 1)) with j by lia.
Qed.

Lemma add_step p h s d :
  pool_ok p →
  float_pow (Z.of_nat (length h)) (length_penalty p) = Some d →
  (0 < d)%Q → (s <= 0)%Q →
  ∃ p', add p h s = Some p' ∧ pool_ok p'
        ∧ add_effect p h (s / d) p'
        ∧ (hyp p' ≠ [] → is_min_score (worst_score p') (hyp p')).
Proof.
  intros (Hn & Hlen & Hmin) Hd Hd0 Hs.
  assert (Hscore : (s / d <= 0)%Q).
  { apply Qle_shift_div_r; [done | lra]. }
  unfold add. rewrite Hd. simpl. rewrite py_div_Some by lra. simpl.
  set (score := (s / d)%Q) in *.
  destruct (Nat.ltb_spec (length (hyp p)) (n_hyp p)) as [Hlt | Hge]; simpl.
  - (* room left: append *)
    rewrite length_app. simpl.
    rewrite (proj2 (Nat.ltb_ge _ _)) by lia.
    eexists. split; [done |].
    assert (Hm : is_min_score (py_min score (worst_score p)) (hyp p ++ [(score, h)])).
    { unfold py_min. destruct (hyp p) as [|e0 l0] eqn:Eh.
      - rewrite (proj2 (Qlt_bool_false _ _)) by lra. split.
        + exists (score, h). set_solver.
        + intros e He. apply list_elem_of_singleton in He as ->. simpl. lra.
      - destruct Hmin as [(e & He & Hew) Hall].
        destruct (Qlt_bool (worst_score p) score) eqn:E; q_tests.
        + split.
          * exists e. split; [set_solver | done].
          * intros e' He'. apply elem_of_app in He' as [He' | He'].
            -- by apply Hall.
            -- apply list_elem_of_singleton in He' as ->. simpl. lra.
        + split.
          * exists (score, h). set_solver.
          * intros e' He'. apply elem_of_app in He' as [He' | He'].
            -- specialize (Hall _ He'). lra.
            -- apply list_elem_of_singleton in He' as ->. simpl. lra. }
    split; [| split].
    + split; [done |]. split; simpl.
      * rewrite length_app. simpl. lia.
      * destruct (hyp p ++ [(score, h)]) eqn:E; [| done].
        by destruct (hyp p).
    + split; [done |]. split; intros; lia.
    + done.
  - assert (Hfull : length (hyp p) = n_hyp p) by lia.
    destruct (Qlt_bool (worst_score p) score) eqn:E; q_tests.
    + (* better than the worst: append, then drop the lowest *)
      rewrite length_app. simpl.
      rewrite (proj2 (Nat.ltb_lt _ _)) by lia.
      destruct (lowest_two (hyp p ++ [(score, h)])) as
        (a & b & rest & e0 & e1 & Es & He0 & Hs0 & He1 & Hs1 & Hne & Hlow & Hsec).
      { rewrite length_app. simpl. lia. }
      fold (indexed (hyp p ++ [(score, h)])). rewrite Es. simpl.
      unfold py_del. rewrite (proj2 (Nat.ltb_lt _ _)) by (by eapply lookup_lt_Some).
      simpl. eexists. split; [done |].
      assert (Hm : is_min_score b.1 (delete a.2 (hyp p ++ [(score, h)]))).
      { split.
        - exists e1. split; [| done]. by eapply lookup_elem_of_delete.
        - intros e He. apply elem_of_delete_lookup in He as (j & Hj & Hje).
          by eapply Hsec. }
      assert (Hold : (a.2 < length (hyp p))%nat).
      { destruct (hyp p) as [|x l0] eqn:Eh; [simpl in *; lia |].
        destruct Hmin as [(e & He & Hew) _].
        assert (Hae : (a.1 <= e.1)%Q) by (apply Hlow; set_solver).
        apply lookup_lt_Some in He0 as Hlt. rewrite length_app in Hlt. simpl in Hlt.
        destruct (decide (a.2 = length (x :: l0))) as [Heq | ?]; [| simpl in *; lia].
        rewrite Heq in He0. rewrite lookup_app_r in He0 by done.
        rewrite Nat.sub_diag in He0. injection He0 as <-. simpl in *.
        exfalso. rewrite <- Hs0, Hew in Hae. clearbody score. lra. }
      split; [| split].
      * split; [done |]. split; simpl.
        -- rewrite length_delete by (by eapply lookup_lt_is_Some, lookup_lt_Some).
           rewrite length_app. simpl. lia.
        -- destruct (delete a.2 (hyp p ++ [(score, h)])) eqn:Ed; [| done].
           destruct Hm as [(e & He & _) _]. set_solver.
      * split; [intros; lia |]. split; simpl.
        -- intros _ _. exists a.2, e0. split; [done |]. split.
           ++ by rewrite lookup_app_l in He0.
           ++ split; [done |]. intros e' He'. rewrite Hs0. by apply Hlow.
        -- intros _ Hle. lra.
      * done.
    + (* not better: unchanged *)
      eexists. split; [done |]. split; [done |]. split.
      * split; [intros; lia |]. split; [intros _ Hlt; lra | done].
      * intros Hne. destruct (hyp p); done.
Qed.

(** C7.  From a fresh pool with [n_hyp >= 1], after any sequence of [add]
    calls carrying sums of log-probabilities, a further [add] returns, keeps
    at most [n_hyp] entries, inserts the hypothesis exactly when there is
    room or its normalised score strictly exceeds the worst retained one,
    evicts at most one entry, a worst-scoring one, and leaves [worst_score]
    equal to the least retained score. *)
Theorem add_sequence_spec (n : nat) (lp : Q) (max_length : Z) (es : bool)
    (calls : list (list Z * Q)) (h : list Z) (s d : Q) :
  (1 ≤ n)%nat →
  Forall (valid_call lp) calls →
  float_pow (Z.of_nat (length h)) lp = Some d → (0 < d)%Q → (s <= 0)%Q →
  ∃ p p',
    adds (BeamHypotheses_init n max_length lp es) calls = Some p
    ∧ add p h s = Some p'
    ∧ n_hyp p = n
    ∧ (length (hyp p') ≤ n)%nat
    ∧ add_effect p h (s / d) p'
    ∧ is_min_score (worst_score p') (hyp p').
Proof.
  intros Hn Hcalls Hd Hd0 Hs.
  assert (Hgen : ∀ p0, pool_ok p0 → length_penalty p0 = lp →
            ∃ p, adds p0 calls = Some p ∧ pool_ok p ∧ length_penalty p = lp
                 ∧ n_hyp p = n_hyp p0).
  { induction Hcalls as [|c calls (dc & Hdc & Hdc0 & Hsc) _ IH]; intros p0 Hok Hlp.
    - exists p0. done.
    - simpl. rewrite <- Hlp in Hdc.
      destruct (add_step p0 c.1 c.2 dc Hok Hdc Hdc0 Hsc) as (p1 & Hadd & Hok1 & _).
      rewrite Hadd. simpl.
      destruct (add_fields _ _ _ _ Hadd) as (Hn1 & Hlp1 & _).
      destruct (IH p1 Hok1) as (p & Hp & Hokp & Hlpp & Hnp); [congruence |].
      exists p. split; [done |]. split; [done |]. split; [done |]. congruence. }
  destruct (Hgen (BeamHypotheses_init n max_length lp es)) as (p & Hp & Hok & Hlp & Hnp);
    [by apply pool_ok_init | done |].
  rewrite <- Hlp in Hd.
  destruct (add_step p h s d Hok Hd Hd0 Hs) as (p' & Hadd & Hok' & Heff & Hm).
  assert (Hne : hyp p' ≠ []).
  { destruct Heff as (Hroom & Hevict & Hsame).
    destruct Hok as (? & Hlen & Hmin).
    destruct (decide (length (hyp p) < n_hyp p)%nat) as [Hlt | Hge].
    - rewrite (Hroom Hlt). by destruct (hyp p).
    - intros Hempty.
      destruct (Qlt_le_dec (worst_score p) (s / d)) as [Hb | Hb].
      + destruct (Hevict ltac:(lia) Hb) as (i & e & Hi & _ & Hdel & _).
        apply (f_equal length) in Hdel. rewrite Hempty in Hdel.
        rewrite length_delete in Hdel.
        * rewrite length_app in Hdel. simpl in Hdel. lia.
        * apply lookup_lt_is_Some. rewrite length_app. lia.
      + rewrite (Hsame ltac:(lia) Hb) in Hempty.
        rewrite Hempty in Hge. simpl in Hge. lia. }
  exists p, p'. split; [done |]. split; [done |]. split; [done |]. split.
  - destruct Hok' as (_ & Hlen & _).
    destruct (add_fields _ _ _ _ Hadd) as (Hn1 & _). simpl in Hnp. lia.
  - split; [done |]. by apply Hm.
Qed.

End pool_invariant.

(** *** Instances *)

Definition pool_example : BeamHypotheses :=
  {| max_len := 4; length_penalty := 1; early_stopping := false; n_hyp := 1;
     hyp := [((-1)%Q, [1; 7])]; worst_score := (-1)%Q |}.


Lemma add_tie_rejected_witness :
  @add unit_backend pool_example [1; 5] (-2) = Some pool_example.
Proof.
  apply (@add_tie_rejected unit_backend pool_example [1; 5] (-2) 2);
    [reflexivity | reflexivity | by vm_compute | by vm_compute].
Defined.

Lemma add_sequence_spec_witness :
  ∃ p p',
    @adds unit_backend (BeamHypotheses_init 2 10 1 false)
      [([1; 5], (-4)%Q); ([1; 6; 7], (-3)%Q)] = Some p
    ∧ @add unit_backend p [1; 8] (-1) = Some p'
    ∧ n_hyp p = 2%nat
    ∧ (length (hyp p') ≤ 2)%nat
    ∧ add_effect p [1; 8] (-1 / 2) p'
    ∧ is_min_score (worst_score p') (hyp p').
Proof.
  apply (@add_sequence_spec unit_backend 2 1 10 false
           [([1; 5], (-4)%Q); ([1; 6; 7], (-3)%Q)] [1; 8] (-1) 2).
  - lia.
  - repeat constructor; eexists; (split; [reflexivity |]); by vm_compute.
  - reflexivity.
  - by vm_compute.
  - by vm_compute.
Defined.

(** ** The masking utility *)

Lemma max_list_spec (l : list Z) :
  l ≠ [] → ∃ m, max_list l = Some m ∧ m ∈ l ∧ ∀ x, x ∈ l → x <= m.
Proof.
  destruct l as [|x l]; [done | intros _]. simpl. eexists. split; [done |].
  induction l as [|y l [IHin IHle]]; simpl.
  - split; [set_solver |]. intros z Hz. apply list_elem_of_singleton in Hz. lia.
  - split.
    + destruct (Z.max_spec y (foldr Z.max x l)) as [[_ ->] | [_ ->]]; set_solver.
    + intros z Hz. apply elem_of_cons in Hz as [-> | Hz].
      * specialize (IHle x ltac:(set_solver)). lia.
      * apply elem_of_cons in Hz as [-> | Hz]; [lia |].
        specialize (IHle z ltac:(set_solver)). lia.
Qed.

Lemma max_list_replicate n x : (0 < n)%nat → max_list (replicate n x) = Some x.
Proof.
  destruct n as [|n]; [lia | intros _]. simpl. f_equal.
  induction n as [|n IH]; simpl; [done |]. rewrite IH. lia.
Qed.

Lemma lookup_length_mask alen lengths b t len a :
  lengths !! b = Some len → alen !! t = Some a →
  entry2 (length_mask alen lengths) b t = Some (Z.of_nat a <? len).
Proof.
  intros Hb Ht. unfold entry2, length_mask.
  rewrite list_lookup_fmap, Hb. simpl. by rewrite list_lookup_fmap, Ht.
Qed.

(** C2, as the code has it.  With [causal] set, [get_masks] returns the
    validity mask, true at (b, t) iff [t < lengths[b]], and beside it an
    attention mask of shape (bs, slen, slen) that is true at (b, q, k) iff
    [k <= q]: the attention mask is the lower triangle alone, whatever the
    lengths. *)
Theorem get_masks_causal (slen : nat) (lengths : list Z) :
  lengths ≠ [] →
  (∀ len, len ∈ lengths → len <= Z.of_nat slen) →
  ∃ mask m,
    get_masks slen lengths true = Some (mask, Mask3 m)
    ∧ length mask = length lengths ∧ length m = length lengths
    ∧ (∀ b t len, lengths !! b = Some len → (t < slen)%nat →
         entry2 mask b t = Some (bool_decide (Z.of_nat t < len)))
    ∧ (∀ b q k, (b < length lengths)%nat → (q < slen)%nat → (k < slen)%nat →
         entry3 m b q k = Some (bool_decide (k ≤ q)%nat)).
Proof.
  intros Hne Hle. unfold get_masks.
  destruct (max_list_spec lengths Hne) as (mx & -> & Hin & _). simpl.
  rewrite (proj2 (Z.leb_le _ _)) by (by apply Hle). simpl.
  eexists _, _. split; [done |].
  split; [by unfold length_mask; rewrite length_fmap |].
  split; [by rewrite length_replicate |]. split.
  - intros b t len Hb Ht.
    rewrite (lookup_length_mask _ _ b t len t Hb) by (by apply lookup_seq_lt).
    f_equal. destruct (Z.ltb_spec (Z.of_nat t) len).
    + by rewrite bool_decide_eq_true_2.
    + by rewrite bool_decide_eq_false_2 by lia.
  - intros b q k Hb Hq Hk. unfold entry3, entry2.
    rewrite lookup_replicate_2 by done. simpl.
    rewrite list_lookup_fmap, lookup_seq_lt by done. simpl.
    rewrite list_lookup_fmap, lookup_seq_lt by done. simpl.
    f_equal. destruct (Nat.leb_spec k q).
    + by rewrite bool_decide_eq_true_2.
    + by rewrite bool_decide_eq_false_2 by lia.
Qed.

Lemma get_masks_causal_witness :
  ∃ mask m,
    get_masks 3 [1; 3] true = Some (mask, Mask3 m)
    ∧ length mask = 2%nat ∧ length m = 2%nat
    ∧ (∀ b t len, [1; 3] !! b = Some len → (t < 3)%nat →
         entry2 mask b t = Some (bool_decide (Z.of_nat t < len)))
    ∧ (∀ b q k, (b < 2)%nat → (q < 3)%nat → (k < 3)%nat →
         entry3 m b q k = Some (bool_decide (k ≤ q)%nat)).
Proof.
  apply (get_masks_causal 3 [1; 3]); [done |].
  intros len Hlen. repeat (apply elem_of_cons in Hlen as [-> | Hlen]; [lia |]).
  by apply elem_of_nil in Hlen.
Defined.

(** C2, as the specification states it, fails: for a sentence of length 1 in
    a buffer of 3 steps the query position 2 may attend to the key position 1,
    which lies beyond the valid length. *)
Lemma get_masks_causal_ignores_lengths :
  ∃ mask m,
    get_masks 3 [1] true = Some (mask, Mask3 m)
    ∧ entry3 m 0 2 1 = Some true
    ∧ ¬ ((1 ≤ 2)%nat ∧ 1 < 1).
Proof. eexists _, _. split; [reflexivity |]. split; [reflexivity | lia]. Qed.

(** ** Tensors as lists of rows *)

(** [t] has [bs] rows and row [b] is [g b]. *)
Definition rows_are {A} (t : list A) (bs : nat) (g : nat → A) : Prop :=
  length t = bs ∧ ∀ b, (b < bs)%nat → t !! b = Some (g b).

Section rows_facts.
Context {A B C : Type}.
Implicit Types (t : list A) (g : nat → A).

Lemma rows_are_unique t t' bs g : rows_are t bs g → rows_are t' bs g → t = t'.
Proof.
  intros [Hl Hg] [Hl' Hg']. apply list_eq. intros i.
  destruct (decide (i < bs)%nat) as [Hi | Hi].
  - by rewrite Hg, Hg'.
  - rewrite (lookup_ge_None_2 t i) by lia.
    by rewrite (lookup_ge_None_2 t' i) by lia.
Qed.

Lemma rows_are_ext t bs g g' :
  (∀ b, (b < bs)%nat → g b = g' b) → rows_are t bs g → rows_are t bs g'.
Proof. intros Hext [Hl Hg]. split; [done |]. intros b Hb. by rewrite Hg, Hext. Qed.

Lemma rows_are_fmap (f : A → B) t bs g :
  rows_are t bs g → rows_are (f <$> t) bs (λ b, f (g b)).
Proof.
  intros [Hl Hg]. split; [by rewrite length_fmap |].
  intros b Hb. by rewrite list_lookup_fmap, Hg.
Qed.

Lemma rows_are_map (f : A → B) t bs g :
  rows_are t bs g → rows_are (map f t) bs (λ b, f (g b)).
Proof. apply rows_are_fmap. Qed.

Lemma rows_are_zip_with (f : A → B → C) t (u : list B) bs g h :
  rows_are t bs g → rows_are u bs h →
  rows_are (zip_with f t u) bs (λ b, f (g b) (h b)).
Proof.
  intros [Hl Hg] [Hl' Hh]. split; [rewrite length_zip_with; lia |].
  intros b Hb. by rewrite lookup_zip_with, Hg, Hh.
Qed.

Lemma rows_are_replicate bs (x : A) : rows_are (replicate bs x) bs (λ _, x).
Proof. split; [apply length_replicate |]. intros. by apply lookup_replicate_2. Qed.

Lemma rows_are_Forall (P : A → Prop) t bs g :
  rows_are t bs g → (∀ b, (b < bs)%nat → P (g b)) → Forall P t.
Proof.
  intros [Hl Hg] HP. apply Forall_lookup. intros i x Hi.
  assert (i < bs)%nat as Hlt by (rewrite <- Hl; by eapply lookup_lt_Some).
  rewrite Hg in Hi by done. injection Hi as <-. by apply HP.
Qed.

Lemma rows_are_dim1 (tt : list (list A)) bs (gg : nat → list A) n :
  (0 < bs)%nat → rows_are tt bs gg → length (gg 0%nat) = n → dim1 tt = n.
Proof.
  intros Hbs [Hl Hg] Hn. specialize (Hg 0%nat Hbs).
  destruct tt as [|r tt]; [done |]. simpl in *. by injection Hg as ->.
Qed.

Lemma rows_are_mapM (f : A → option B) t bs g (h : nat → B) :
  rows_are t bs g → (∀ b, (b < bs)%nat → f (g b) = Some (h b)) →
  ∃ u, mapM f t = Some u ∧ rows_are u bs h.
Proof.
  intros [Hl Hg] Hf. exists (h <$> seq 0 bs). split.
  - apply mapM_Some. apply Forall2_lookup. intros i.
    rewrite list_lookup_fmap.
    destruct (decide (i < bs)%nat) as [Hi | Hi].
    + rewrite Hg, lookup_seq_lt by done. constructor. by apply Hf.
    + rewrite (lookup_ge_None_2 t i) by lia.
      rewrite (lookup_ge_None_2 (seq 0 bs) i) by (rewrite length_seq; lia).
      constructor.
  - split; [by rewrite length_fmap, length_seq |].
    intros b Hb. by rewrite list_lookup_fmap, lookup_seq_lt.
Qed.

End rows_facts.

(** *** Shapes that need no broadcast *)

Lemma expand_axis_same {A} n (l : list A) : length l = n → expand_axis n l = Some l.
Proof. intros Hl. unfold expand_axis. by rewrite (proj2 (Nat.eqb_eq _ _) Hl). Qed.

Section shape_facts.
Context {A : Type}.

Lemma mapM_expand_axis c (t : list (list A)) :
  Forall (λ r, length r = c) t → mapM (expand_axis c) t = Some t.
Proof.
  intros Hall. apply mapM_Some. induction Hall; constructor; [| done].
  by apply expand_axis_same.
Qed.

Lemma expand2_same rows cols (t : list (list A)) :
  length t = rows → Forall (λ r, length r = cols) t → expand2 rows cols t = Some t.
Proof.
  intros Hl Hall. unfold expand2. rewrite mapM_expand_axis by done. simpl.
  by apply expand_axis_same.
Qed.

Lemma length_concat_rect c (l : list (list A)) :
  Forall (λ r, length r = c) l → length (concat l) = (length l * c)%nat.
Proof.
  induction 1 as [|r l Hr _ IH]; simpl; [done |]. rewrite length_app, IH, Hr. lia.
Qed.

Lemma chunks_concat c (l : list (list A)) :
  Forall (λ r, length r = c) l → chunks (length l) c (concat l) = l.
Proof.
  induction 1 as [|r l Hr _ IH]; simpl; [done |].
  rewrite take_app_length' by done. rewrite drop_app_length' by done. by rewrite IH.
Qed.

Lemma has_shape_spec rows cols (t : list (list A)) :
  has_shape rows cols t = true ↔ length t = rows ∧ Forall (λ r, length r = cols) t.
Proof.
  unfold has_shape. rewrite andb_true_iff, Nat.eqb_eq, forallb_forall, Forall_forall.
  split; intros [Hl Hall]; (split; [done |]); intros r Hr.
  - apply Nat.eqb_eq, Hall. by apply list_elem_of_In.
  - apply Nat.eqb_eq, Hall. by apply list_elem_of_In.
Qed.

End shape_facts.

(** ** One sentence at a time

    The batched pass treats every batch row alike.  The functions below say
    what it computes for one row, from that row's share of the cache; the
    batched functions are then shown to compute exactly this on every row. *)

Section row_semantics.
Context {H KV : Type}.
Local Abbreviation RowCache := (gmap nat (list KV * list KV)).
Implicit Types (M : @TransformerModel H KV) (m : @MultiHeadAttention H KV).
Implicit Types (rc : nat → RowCache).

(** Keys and values one row attends to, as [forward] assembles them. *)
Definition row_kv m (r : RowCache) (input : list H) (kv : option (list H))
    : list KV * list KV :=
  let w := weights m in
  match kv, r !! layer_id m with
  | None, Some e => (e.1 ++ map (k_lin w) input, e.2 ++ map (v_lin w) input)
  | None, None => (map (k_lin w) input, map (v_lin w) input)
  | Some _, Some e => e
  | Some s, None => (map (k_lin w) s, map (v_lin w) s)
  end.

(** [forward] on one row with caching: the outputs and the row's cache. *)
Definition row_mha m (r : RowCache) (input : list H) (mask : list (list bool))
    (kv : option (list H)) : list H * RowCache :=
  let e := row_kv m r input kv in
  (zip_with (λ qv mrow, attend (weights m) qv mrow e.1 e.2)
     (map (q_lin (weights m)) input) mask,
   <[layer_id m := e]> r).

(** The batched cache [kvs] holds, for each of its [bs] rows [b], the entries
    of [rc b]. *)
Definition cache_rows (kvs : gmap nat (list (list KV) * list (list KV)))
    (bs : nat) rc : Prop :=
  ∀ id,
    match kvs !! id with
    | None => ∀ b, (b < bs)%nat → rc b !! id = None
    | Some e =>
        rows_are e.1 bs (λ b, (default ([], []) (rc b !! id)).1)
        ∧ rows_are e.2 bs (λ b, (default ([], []) (rc b !! id)).2)
        ∧ ∀ b, (b < bs)%nat → is_Some (rc b !! id)
    end.

Lemma cache_rows_insert kvs bs rc id k v (fe : nat → list KV * list KV) :
  cache_rows kvs bs rc →
  rows_are k bs (λ b, (fe b).1) → rows_are v bs (λ b, (fe b).2) →
  cache_rows (<[id := (k, v)]> kvs) bs (λ b, <[id := fe b]> (rc b)).
Proof.
  intros Hc Hk Hv id'. destruct (decide (id = id')) as [<- | Hne].
  - rewrite lookup_insert_eq. simpl. split; [| split].
    + eapply rows_are_ext; [| exact Hk]. intros b _. by rewrite lookup_insert_eq.
    + eapply rows_are_ext; [| exact Hv]. intros b _. by rewrite lookup_insert_eq.
    + intros b _. by rewrite lookup_insert_eq.
  - rewrite lookup_insert_ne by done. specialize (Hc id').
    destruct (kvs !! id') as [e |].
    + destruct Hc as (H1 & H2 & H3). split; [| split].
      * eapply rows_are_ext; [| exact H1]. intros b _. by rewrite lookup_insert_ne.
      * eapply rows_are_ext; [| exact H2]. intros b _. by rewrite lookup_insert_ne.
      * intros b Hb. rewrite lookup_insert_ne by done. by apply H3.
    + intros b Hb. rewrite lookup_insert_ne by done. by apply Hc.
Qed.

Lemma view_mask3_same (m3 : list (list (list bool))) bs qlen klen :
  length m3 = bs →
  Forall (λ rows, length rows = qlen ∧ Forall (λ r, length r = klen) rows) m3 →
  view_mask (Mask3 m3) bs qlen (Z.of_nat klen) = Some m3.
Proof.
  intros Hl Hall. unfold view_mask.
  rewrite (proj2 (Z.ltb_ge _ _)) by lia. rewrite Nat2Z.id.
  assert (Hrows : Forall (λ r, length r = (qlen * klen)%nat) (@concat bool <$> m3)).
  { apply Forall_fmap. eapply Forall_impl; [exact Hall |].
    intros rows [Hq Hk]. simpl. rewrite (length_concat_rect klen) by done. by rewrite Hq. }
  assert (Hflat : concat (concat m3) = concat (@concat bool <$> m3)).
  { clear. induction m3 as [|r m3 IH]; simpl; [done |].
    by rewrite concat_app, IH. }
  rewrite Hflat. rewrite (length_concat_rect (qlen * klen)) by done.
  rewrite length_fmap, Hl.
  rewrite (proj2 (Nat.eqb_eq _ _)) by lia.
  f_equal. rewrite <- Hl, <- (length_fmap (@concat bool) m3).
  rewrite chunks_concat by done.
  rewrite <- list_fmap_compose. rewrite <- (list_fmap_id m3) at 2.
  apply Forall_fmap_ext. eapply Forall_impl; [exact Hall |].
  intros rows [Hq Hk]. simpl. rewrite <- Hq. by apply chunks_concat.
Qed.

Lemma expand_mask_same (m3 : list (list (list bool))) qlen klen :
  Forall (λ rows, length rows = qlen ∧ Forall (λ r, length r = klen) rows) m3 →
  expand_mask m3 qlen klen = Some m3.
Proof.
  intros Hall. unfold expand_mask. apply mapM_Some.
  induction Hall as [|rows m3 [Hq Hk] _ IH]; constructor; [| done].
  rewrite mapM_expand_axis by done. simpl. by apply expand_axis_same.
Qed.

Lemma view_mask2_same (sm : list (list bool)) bs qlen klen :
  length sm = bs → Forall (λ r, length r = klen) sm →
  view_mask (Mask2 sm) bs qlen (Z.of_nat klen) = Some ((λ r, [r]) <$> sm).
Proof.
  intros Hl Hall. unfold view_mask.
  rewrite (proj2 (Z.ltb_ge _ _)) by lia. rewrite Nat2Z.id.
  rewrite (length_concat_rect klen) by done. rewrite Hl.
  rewrite (proj2 (Nat.eqb_eq _ _)) by lia.
  by rewrite <- Hl, chunks_concat.
Qed.

Lemma expand_mask_broadcast (sm : list (list bool)) qlen klen :
  Forall (λ r, length r = klen) sm →
  expand_mask ((λ r, [r]) <$> sm) qlen klen = Some (replicate qlen <$> sm).
Proof.
  intros Hall. unfold expand_mask. apply mapM_Some.
  induction Hall as [|r sm Hr _ IH]; constructor; [| done].
  simpl. rewrite expand_axis_same by done. simpl.
  unfold expand_axis. simpl. by destruct qlen as [|[|q]].
Qed.

End row_semantics.

Section attention_rows.
Context {H KV : Type}.
Local Abbreviation RowCache := (gmap nat (list KV * list KV)).
Implicit Types (M : @TransformerModel H KV) (m : @MultiHeadAttention H KV).
Implicit Types (rc : nat → RowCache) (c : @Cache KV).

Lemma cache_rows_lookup kvs bs rc id b :
  cache_rows kvs bs rc → (b < bs)%nat →
  match kvs !! id with
  | None => rc b !! id = None
  | Some e => ∃ kb vb, rc b !! id = Some (kb, vb)
                       ∧ e.1 !! b = Some kb ∧ e.2 !! b = Some vb
  end.
Proof.
  intros Hc Hb. specialize (Hc id). destruct (kvs !! id) as [e |]; [| by apply Hc].
  destruct Hc as ((_ & Hk) & (_ & Hv) & Hs).
  destruct (Hs b Hb) as [[kb vb] Hr]. exists kb, vb.
  rewrite Hk, Hv, Hr by done. done.
Qed.

(** Self-attention over a batch is self-attention over each of its rows. *)
Lemma mha_forward_self m c input bs n (gin : nat → list H) am
    (gmask : nat → list (list bool)) rc (cs : nat) :
  (0 < bs)%nat →
  rows_are input bs gin → (∀ b, (b < bs)%nat → length (gin b) = n) →
  cache_slen c = Z.of_nat cs →
  rows_are am bs gmask →
  (∀ b, (b < bs)%nat →
     length (gmask b) = n ∧ Forall (λ r, length r = (cs + n)%nat) (gmask b)) →
  cache_rows (cache_kv c) bs rc →
  (∀ b, (b < bs)%nat →
     match rc b !! layer_id m with
     | Some e => length e.1 = cs ∧ length e.2 = cs
     | None => cs = 0%nat
     end) →
  ∃ out kvs',
    mha_forward m (Some c) input (Mask3 am) None true
      = Some (out, Some {| cache_slen := cache_slen c; cache_kv := kvs' |})
    ∧ rows_are out bs (λ b, (row_mha m (rc b) (gin b) (gmask b) None).1)
    ∧ cache_rows kvs' bs (λ b, (row_mha m (rc b) (gin b) (gmask b) None).2).
Proof.
  intros Hbs Hin Hn Hcs Hmsk Hmask Hc Hent.
  assert (Hd1 : dim1 input = n) by (eapply rows_are_dim1; eauto).
  unfold mha_forward. simpl. rewrite Hd1, Hcs, <- Nat2Z.inj_add.
  destruct Hin as [Hlin Hgin]. rewrite Hlin.
  rewrite view_mask3_same; first last.
  { eapply rows_are_Forall; [exact Hmsk | done]. }
  { apply Hmsk. }
  simpl.
  set (kf := map (map (k_lin (weights m))) input).
  set (vf := map (map (v_lin (weights m))) input).
  assert (Hkf : rows_are kf bs (λ b, map (k_lin (weights m)) (gin b))).
  { by apply (rows_are_fmap (map (k_lin (weights m))) input bs gin). }
  assert (Hvf : rows_are vf bs (λ b, map (v_lin (weights m)) (gin b))).
  { by apply (rows_are_fmap (map (v_lin (weights m))) input bs gin). }
  (* the keys and values after the update of the cache *)
  assert (Hkv : ∃ k v,
    (match cache_kv c !! layer_id m with
     | Some (k_, v_) => k' ← cat_time k_ kf; v' ← cat_time v_ vf; Some (k', v')
     | None => Some (kf, vf)
     end) = Some (k, v)
    ∧ rows_are k bs (λ b, (row_kv m (rc b) (gin b) None).1)
    ∧ rows_are v bs (λ b, (row_kv m (rc b) (gin b) None).2)).
  { pose proof (Hc (layer_id m)) as Hcm.
    destruct (cache_kv c !! layer_id m) as [[k_ v_] |] eqn:Ec.
    - destruct Hcm as (Hk_ & Hv_ & Hs). simpl in *.
      unfold cat_time.
      rewrite (proj2 (Nat.eqb_eq (length k_) (length kf)))
        by (destruct Hk_, Hkf; congruence).
      rewrite (proj2 (Nat.eqb_eq (length v_) (length vf)))
        by (destruct Hv_, Hvf; congruence).
      simpl. eexists _, _. split; [done |]. split.
      + eapply rows_are_ext; [| exact (rows_are_zip_with app _ _ _ _ _ Hk_ Hkf)].
        intros b Hb. simpl. unfold row_kv.
        destruct (Hs b Hb) as [e ->]. done.
      + eapply rows_are_ext; [| exact (rows_are_zip_with app _ _ _ _ _ Hv_ Hvf)].
        intros b Hb. simpl. unfold row_kv.
        destruct (Hs b Hb) as [e ->]. done.
    - eexists _, _. split; [done |]. split.
      + eapply rows_are_ext; [| exact Hkf]. intros b Hb. simpl.
        unfold row_kv. by rewrite (Hcm b Hb).
      + eapply rows_are_ext; [| exact Hvf]. intros b Hb. simpl.
        unfold row_kv. by rewrite (Hcm b Hb). }
  destruct Hkv as (k & v & Hkv & Hk & Hv).
  assert (Hlen_kv : ∀ b, (b < bs)%nat →
            length (row_kv m (rc b) (gin b) None).1 = (cs + n)%nat
            ∧ length (row_kv m (rc b) (gin b) None).2 = (cs + n)%nat).
  { intros b Hb. specialize (Hent b Hb). unfold row_kv.
    destruct (rc b !! layer_id m) as [e |]; simpl.
    - rewrite !length_app, !length_map, Hn by done. lia.
    - rewrite !length_map, Hn by done. lia. }
  rewrite Hkv; simpl.
  all: rewrite (proj1 Hk), (proj1 Hv), Nat.eqb_refl; simpl.
  all: rewrite (rows_are_dim1 k bs _ (cs + n) Hbs Hk) by (by apply Hlen_kv).
  all: rewrite (rows_are_dim1 v bs _ (cs + n) Hbs Hv) by (by apply Hlen_kv).
  all: rewrite Nat.eqb_refl; simpl.
  all: rewrite expand_mask_same
         by (eapply rows_are_Forall; [exact Hmsk | done]); simpl.
  all: eexists _, _; split; [done |]; split.
  all: try (apply (cache_rows_insert _ _ _ _ _ _
                     (λ b, row_kv m (rc b) (gin b) None)); done).
  all: pose proof (rows_are_fmap (map (q_lin (weights m))) input bs gin
                     (conj Hlin Hgin)) as Hq.
  all: eapply rows_are_ext;
         [| exact (rows_are_zip_with _ _ _ _ _ _
                     (rows_are_zip_with pair _ _ _ _ _ Hq Hmsk)
                     (rows_are_zip_with pair _ _ _ _ _ Hk Hv))].
  all: intros b Hb; done.
Qed.

(** Attention over the source, likewise. *)
Lemma mha_forward_cross m c input bs n (gin : nat → list H) sm
    (gsm : nat → list bool) enc (genc : nat → list H) rc (S : nat) :
  (0 < bs)%nat →
  rows_are input bs gin → (∀ b, (b < bs)%nat → length (gin b) = n) →
  rows_are enc bs genc → (∀ b, (b < bs)%nat → length (genc b) = S) →
  rows_are sm bs gsm → (∀ b, (b < bs)%nat → length (gsm b) = S) →
  cache_rows (cache_kv c) bs rc →
  (∀ b, (b < bs)%nat →
     match rc b !! layer_id m with
     | Some e => length e.1 = S ∧ length e.2 = S
     | None => True
     end) →
  ∃ out kvs',
    mha_forward m (Some c) input (Mask2 sm) (Some enc) true
      = Some (out, Some {| cache_slen := cache_slen c; cache_kv := kvs' |})
    ∧ rows_are out bs
        (λ b, (row_mha m (rc b) (gin b) (replicate n (gsm b)) (Some (genc b))).1)
    ∧ cache_rows kvs' bs
        (λ b, (row_mha m (rc b) (gin b) (replicate n (gsm b)) (Some (genc b))).2).
Proof.
  intros Hbs Hin Hn Henc HS Hsm Hsml Hc Hent.
  assert (Hd1 : dim1 input = n) by (eapply rows_are_dim1; eauto).
  assert (HdS : dim1 enc = S) by (eapply rows_are_dim1; eauto).
  unfold mha_forward. simpl. rewrite Hd1, HdS.
  destruct Hin as [Hlin Hgin]. rewrite Hlin.
  rewrite view_mask2_same; first last.
  { eapply rows_are_Forall; [exact Hsm | done]. }
  { apply Hsm. }
  simpl.
  set (kf := map (map (k_lin (weights m))) enc).
  set (vf := map (map (v_lin (weights m))) enc).
  assert (Hkf : rows_are kf bs (λ b, map (k_lin (weights m)) (genc b))).
  { by apply (rows_are_fmap (map (k_lin (weights m))) enc bs genc). }
  assert (Hvf : rows_are vf bs (λ b, map (v_lin (weights m)) (genc b))).
  { by apply (rows_are_fmap (map (v_lin (weights m))) enc bs genc). }
  assert (Hkv : ∃ k v,
    (match cache_kv c !! layer_id m with
     | Some (k_, v_) => Some (k_, v_)
     | None =>
         if negb (bool_decide (is_Some (cache_kv c !! layer_id m)))
         then Some (kf, vf) else None
     end) = Some (k, v)
    ∧ rows_are k bs (λ b, (row_kv m (rc b) (gin b) (Some (genc b))).1)
    ∧ rows_are v bs (λ b, (row_kv m (rc b) (gin b) (Some (genc b))).2)).
  { pose proof (Hc (layer_id m)) as Hcm.
    destruct (cache_kv c !! layer_id m) as [[k_ v_] |] eqn:Ec.
    - destruct Hcm as (Hk_ & Hv_ & Hs). simpl in *.
      eexists _, _. split; [done |]. split.
      + eapply rows_are_ext; [| exact Hk_]. intros b Hb. simpl. unfold row_kv.
        destruct (Hs b Hb) as [e ->]. done.
      + eapply rows_are_ext; [| exact Hv_]. intros b Hb. simpl. unfold row_kv.
        destruct (Hs b Hb) as [e ->]. done.
    - rewrite bool_decide_eq_false_2 by (by intros [? ?]). simpl.
      eexists _, _. split; [done |]. split.
      + eapply rows_are_ext; [| exact Hkf]. intros b Hb. simpl.
        unfold row_kv. by rewrite (Hcm b Hb).
      + eapply rows_are_ext; [| exact Hvf]. intros b Hb. simpl.
        unfold row_kv. by rewrite (Hcm b Hb). }
  destruct Hkv as (k & v & Hkv & Hk & Hv).
  assert (Hlen_kv : ∀ b, (b < bs)%nat →
            length (row_kv m (rc b) (gin b) (Some (genc b))).1 = S
            ∧ length (row_kv m (rc b) (gin b) (Some (genc b))).2 = S).
  { intros b Hb. specialize (Hent b Hb). unfold row_kv.
    destruct (rc b !! layer_id m) as [e |]; simpl; [done |].
    by rewrite !length_map, HS. }
  destruct (cache_kv c !! layer_id m) as [[k_ v_] |] eqn:Ec; simpl in *.
  all: try rewrite bool_decide_eq_false_2 in * by (by intros [? ?]); simpl in *.
  all: injection Hkv as -> ->.
  all: rewrite (proj1 Hk), (proj1 Hv), Nat.eqb_refl; simpl.
  all: rewrite (rows_are_dim1 _ bs _ S Hbs Hk) by (by apply Hlen_kv).
  all: rewrite (rows_are_dim1 _ bs _ S Hbs Hv) by (by apply Hlen_kv).
  all: rewrite Nat.eqb_refl; simpl.
  all: rewrite expand_mask_broadcast
         by (eapply rows_are_Forall; [exact Hsm | done]); simpl.
  all: eexists _, _; split; [done |]; split.
  all: try (apply (cache_rows_insert _ _ _ _ _ _
                     (λ b, row_kv m (rc b) (gin b) (Some (genc b)))); done).
  all: pose proof (rows_are_fmap (map (q_lin (weights m))) input bs gin
                     (conj Hlin Hgin)) as Hq.
  all: pose proof (rows_are_fmap (replicate n) sm bs gsm Hsm) as Hrep.
  all: eapply rows_are_ext;
         [| exact (rows_are_zip_with _ _ _ _ _ _
                     (rows_are_zip_with pair _ _ _ _ _ Hq Hrep)
                     (rows_are_zip_with pair _ _ _ _ _ Hk Hv))].
  all: intros b Hb; done.
Qed.

End attention_rows.

Section decoder_rows.
Context {H KV : Type}.
Local Abbreviation RowCache := (gmap nat (list KV * list KV)).
Implicit Types (M : @TransformerModel H KV).
Implicit Types (rc : nat → RowCache) (c : @Cache KV).

(** One layer of a decoder on one row: self-attention, attention over the
    source [enc] under its mask [smask], feed-forward, validity mask. *)
Definition row_layer M (enc : list H) (smask : list bool) (mask_bits : list bool)
    (attn_rows : list (list bool)) (i : nat) (st : list H * RowCache)
    : list H * RowCache :=
  let a := row_mha (attentions M i) st.2 st.1 attn_rows None in
  let t1 := zip_with (add_norm1 M i) st.1 a.1 in
  let a2 := row_mha (encoder_attn M i) a.2 t1 (replicate (length t1) smask)
              (Some enc) in
  let t2 := zip_with (add_norm15 M i) t1 a2.1 in
  (zip_with (mul_mask M) (map (ffn_norm2 M i) t2) mask_bits, a2.2).

Definition row_layers M (enc : list H) (smask : list bool) (mask_bits : list bool)
    (attn_rows : list (list bool)) (layers : list nat) (st : list H * RowCache)
    : list H * RowCache :=
  foldl (λ st i, row_layer M enc smask mask_bits attn_rows i st) st layers.

(** What the cache of one row holds for layer [j] before a pass over [n] new
    steps that follow [cs] cached ones, and after it. *)
Definition entry_before M (r : RowCache) (cs S j : nat) : Prop :=
  match r !! layer_id (attentions M j) with
  | Some e => length e.1 = cs ∧ length e.2 = cs
  | None => cs = 0%nat
  end
  ∧ match r !! layer_id (encoder_attn M j) with
    | Some e => length e.1 = S ∧ length e.2 = S
    | None => True
    end.

Definition entry_after M (r : RowCache) (cs S j : nat) : Prop :=
  (∃ e, r !! layer_id (attentions M j) = Some e ∧ length e.1 = cs ∧ length e.2 = cs)
  ∧ (∃ e, r !! layer_id (encoder_attn M j) = Some e
          ∧ length e.1 = S ∧ length e.2 = S).

Lemma layer_ids_distinct M i j :
  is_decoder M = true →
  layer_id (attentions M i) ≠ layer_id (encoder_attn M j)
  ∧ (i ≠ j → layer_id (attentions M i) ≠ layer_id (attentions M j))
  ∧ (i ≠ j → layer_id (encoder_attn M i) ≠ layer_id (encoder_attn M j)).
Proof. intros Hd. unfold attentions, encoder_attn. simpl. rewrite Hd. lia. Qed.

Lemma row_mha_length (m : @MultiHeadAttention H KV) (r : RowCache) input mask kv n :
  length input = n → length mask = n → length (row_mha m r input mask kv).1 = n.
Proof.
  intros Hi Hm. unfold row_mha. simpl. rewrite length_zip_with, length_map. lia.
Qed.

Lemma row_layer_length M enc smask mask_bits attn_rows i st n :
  length st.1 = n → length mask_bits = n → length attn_rows = n →
  length (row_layer M enc smask mask_bits attn_rows i st).1 = n.
Proof.
  intros Ht Hm Ha. unfold row_layer, row_mha. simpl.
  repeat (rewrite length_zip_with || rewrite length_map || rewrite length_replicate).
  lia.
Qed.

(** The effect of one layer on the entries of a row. *)
Lemma row_layer_entries M enc smask mask_bits attn_rows i st cs S n :
  is_decoder M = true →
  length st.1 = n → length attn_rows = n → length enc = S →
  entry_before M st.2 cs S i →
  let r' := (row_layer M enc smask mask_bits attn_rows i st).2 in
  entry_after M r' (cs + n) S i
  ∧ ∀ id, id ≠ layer_id (attentions M i) → id ≠ layer_id (encoder_attn M i) →
          r' !! id = st.2 !! id.
Proof.
  intros Hd Ht Ha Hs [Hself Hcross].
  destruct (layer_ids_distinct M i i Hd) as (Hne & _).
  unfold row_layer, row_mha. cbn [fst snd]. split; [split |].
  - rewrite lookup_insert_ne by done. rewrite lookup_insert_eq.
    eexists. split; [done |]. unfold row_kv.
    destruct (st.2 !! layer_id (attentions M i)) as [e |]; cbn [fst snd].
    + rewrite !length_app, !length_map. lia.
    + rewrite !length_map. lia.
  - rewrite lookup_insert_eq. eexists. split; [done |]. unfold row_kv.
    rewrite lookup_insert_ne by done.
    destruct (st.2 !! layer_id (encoder_attn M i)) as [e |]; cbn [fst snd]; [done |].
    by rewrite !length_map.
  - intros id H1 H2. by rewrite !lookup_insert_ne.
Qed.

Lemma zip_rows_rows {A B C} (f : A → B → C) (a : list (list A)) (b : list (list B))
    bs n ga gb :
  (0 < bs)%nat →
  rows_are a bs ga → rows_are b bs gb →
  length (ga 0%nat) = n → length (gb 0%nat) = n →
  zip_rows f a b = Some (zip_with (zip_with f) a b).
Proof.
  intros Hbs Ha Hb Hna Hnb. unfold zip_rows.
  rewrite (rows_are_dim1 a bs ga n), (rows_are_dim1 b bs gb n) by done.
  rewrite (proj1 Ha), (proj1 Hb), !Nat.eqb_refl. done.
Qed.

Lemma apply_mask_rows M (mask : list (list bool)) (t : list (list H)) bs n gt gm :
  (0 < bs)%nat →
  rows_are t bs gt → (∀ b, (b < bs)%nat → length (gt b) = n) →
  rows_are mask bs gm → (∀ b, (b < bs)%nat → length (gm b) = n) →
  apply_mask M mask t = Some (zip_with (zip_with (mul_mask M)) t mask).
Proof.
  intros Hbs Ht Hnt Hm Hnm. unfold apply_mask.
  rewrite (rows_are_dim1 t bs gt n) by auto. rewrite (proj1 Ht).
  rewrite expand2_same; [done | apply Hm |].
  eapply rows_are_Forall; [exact Hm | done].
Qed.

(** One layer over a batch is that layer over each of its rows. *)
Lemma fwd_layer_rows M c tensor mask am enc sm bs n cs S
    (gin : nat → list H) (gm : nat → list bool) (gam : nat → list (list bool))
    (genc : nat → list H) (gsm : nat → list bool) rc i :
  is_decoder M = true → (0 < bs)%nat →
  rows_are tensor bs gin → (∀ b, (b < bs)%nat → length (gin b) = n) →
  rows_are mask bs gm → (∀ b, (b < bs)%nat → length (gm b) = n) →
  rows_are am bs gam →
  (∀ b, (b < bs)%nat →
     length (gam b) = n ∧ Forall (λ r, length r = (cs + n)%nat) (gam b)) →
  rows_are enc bs genc → (∀ b, (b < bs)%nat → length (genc b) = S) →
  rows_are sm bs gsm → (∀ b, (b < bs)%nat → length (gsm b) = S) →
  cache_slen c = Z.of_nat cs →
  cache_rows (cache_kv c) bs rc →
  (∀ b, (b < bs)%nat → entry_before M (rc b) cs S i) →
  ∃ out kvs',
    fwd_layer M (Mask3 am) mask (Some (enc, sm)) true i (tensor, Some c)
      = Some (out, Some {| cache_slen := cache_slen c; cache_kv := kvs' |})
    ∧ rows_are out bs
        (λ b, (row_layer M (genc b) (gsm b) (gm b) (gam b) i (gin b, rc b)).1)
    ∧ cache_rows kvs' bs
        (λ b, (row_layer M (genc b) (gsm b) (gm b) (gam b) i (gin b, rc b)).2).
Proof.
  intros Hd Hbs Ht Hnt Hm Hnm Ham Hnam Henc HS Hsm Hnsm Hcs Hc Hent.
  unfold fwd_layer.
  destruct (mha_forward_self (attentions M i) c tensor bs n gin am gam rc cs)
    as (a1 & kvs1 & -> & Ha1 & Hc1); try done.
  { intros b Hb. apply (Hent b Hb). }
  cbn [mbind option_bind].
  set (ga1 := λ b, (row_mha (attentions M i) (rc b) (gin b) (gam b) None).1) in *.
  set (rc1 := λ b, (row_mha (attentions M i) (rc b) (gin b) (gam b) None).2) in *.
  assert (Hla1 : ∀ b, (b < bs)%nat → length (ga1 b) = n).
  { intros b Hb. apply row_mha_length; [by apply Hnt | by apply Hnam]. }
  rewrite (zip_rows_rows _ _ _ bs n gin ga1) by auto.
  cbn [mbind option_bind]. rewrite Hd.
  pose proof (rows_are_zip_with (zip_with (add_norm1 M i)) _ _ _ _ _ Ht Ha1) as Ht1.
  set (gt1 := λ b, zip_with (add_norm1 M i) (gin b) (ga1 b)) in *.
  assert (Hlt1 : ∀ b, (b < bs)%nat → length (gt1 b) = n).
  { intros b Hb. unfold gt1. rewrite length_zip_with, Hnt, Hla1 by done. lia. }
  destruct (mha_forward_cross (encoder_attn M i)
              {| cache_slen := cache_slen c; cache_kv := kvs1 |}
              (zip_with (zip_with (add_norm1 M i)) tensor a1)
              bs n gt1 sm gsm enc genc rc1 S)
    as (a2 & kvs2 & -> & Ha2 & Hc2); try done.
  { intros b Hb. unfold rc1, row_mha. cbn [snd].
    destruct (layer_ids_distinct M i i Hd) as (Hne & _).
    rewrite lookup_insert_ne by done. apply (Hent b Hb). }
  cbn [mbind option_bind cache_slen].
  set (ga2 := λ b, (row_mha (encoder_attn M i) (rc1 b) (gt1 b)
                      (replicate n (gsm b)) (Some (genc b))).1) in *.
  assert (Hla2 : ∀ b, (b < bs)%nat → length (ga2 b) = n).
  { intros b Hb. apply row_mha_length; [by apply Hlt1 | apply length_replicate]. }
  rewrite (zip_rows_rows _ _ _ bs n gt1 ga2) by auto.
  cbn [mbind option_bind].
  pose proof (rows_are_zip_with (zip_with (add_norm15 M i)) _ _ _ _ _ Ht1 Ha2) as Ht2.
  set (gt2 := λ b, zip_with (add_norm15 M i) (gt1 b) (ga2 b)) in *.
  pose proof (rows_are_map (map (ffn_norm2 M i)) _ _ _ Ht2) as Ht3.
  rewrite (apply_mask_rows M mask _ bs n _ gm Hbs Ht3); [| | done | done].
  2:{ intros b Hb. cbn beta. unfold gt2.
      rewrite length_map, length_zip_with, Hlt1, Hla2 by done. lia. }
  cbn [mbind option_bind].
  eexists _, _. split; [done |]. split.
  - eapply rows_are_ext;
      [| exact (rows_are_zip_with (zip_with (mul_mask M)) _ _ _ _ _ Ht3 Hm)].
    intros b Hb. cbn beta. unfold row_layer. cbn [fst snd].
    fold (ga1 b). fold (gt1 b). fold (rc1 b). rewrite (Hlt1 b Hb). done.
  - eapply (λ H, H) in Hc2. intros id. specialize (Hc2 id).
    destruct (kvs2 !! id) as [e |].
    + destruct Hc2 as (H1 & H2 & H3). split; [| split].
      * eapply rows_are_ext; [| exact H1]. intros b Hb. cbn beta.
        unfold row_layer. cbn [fst snd].
        fold (ga1 b). fold (gt1 b). fold (rc1 b). by rewrite (Hlt1 b Hb).
      * eapply rows_are_ext; [| exact H2]. intros b Hb. cbn beta.
        unfold row_layer. cbn [fst snd].
        fold (ga1 b). fold (gt1 b). fold (rc1 b). by rewrite (Hlt1 b Hb).
      * intros b Hb. unfold row_layer. cbn [fst snd].
        fold (ga1 b). fold (gt1 b). fold (rc1 b). rewrite (Hlt1 b Hb). by apply H3.
    + intros b Hb. unfold row_layer. cbn [fst snd].
      fold (ga1 b). fold (gt1 b). fold (rc1 b). rewrite (Hlt1 b Hb). by apply Hc2.
Qed.

Lemma row_layers_length M enc smask mask_bits attn_rows layers st n :
  length st.1 = n → length mask_bits = n → length attn_rows = n →
  length (row_layers M enc smask mask_bits attn_rows layers st).1 = n.
Proof.
  intros Ht Hm Ha. revert st Ht.
  induction layers as [|i layers IH]; intros st Ht; [done |].
  apply IH. by apply row_layer_length.
Qed.

Lemma entry_before_other M (r r' : RowCache) cs S i j :
  is_decoder M = true → i ≠ j →
  (∀ id, id ≠ layer_id (attentions M i) → id ≠ layer_id (encoder_attn M i) →
         r' !! id = r !! id) →
  entry_before M r cs S j → entry_before M r' cs S j.
Proof.
  intros Hd Hne Hsame [H1 H2].
  destruct (layer_ids_distinct M i j Hd) as (Ha & Hb & Hc).
  destruct (layer_ids_distinct M j i Hd) as (Ha' & Hb' & Hc').
  unfold entry_before. rewrite !Hsame; auto.
Qed.

Lemma entry_after_other M (r r' : RowCache) cs S i j :
  is_decoder M = true → i ≠ j →
  (∀ id, id ≠ layer_id (attentions M i) → id ≠ layer_id (encoder_attn M i) →
         r' !! id = r !! id) →
  entry_after M r cs S j → entry_after M r' cs S j.
Proof.
  intros Hd Hne Hsame [H1 H2].
  destruct (layer_ids_distinct M i j Hd) as (Ha & Hb & Hc).
  destruct (layer_ids_distinct M j i Hd) as (Ha' & Hb' & Hc').
  unfold entry_after. rewrite !Hsame; auto.
Qed.

(** After the layers, every one of them has its entries, grown by the new
    steps (self-attention) or as long as the source (attention over it). *)
Lemma row_layers_entries M enc smask mask_bits attn_rows layers st cs S n :
  is_decoder M = true → NoDup layers →
  length st.1 = n → length mask_bits = n → length attn_rows = n → length enc = S →
  (∀ j, j ∈ layers → entry_before M st.2 cs S j) →
  let r' := (row_layers M enc smask mask_bits attn_rows layers st).2 in
  (∀ j, j ∈ layers → entry_after M r' (cs + n) S j)
  ∧ (∀ id, (∀ j, j ∈ layers → id ≠ layer_id (attentions M j)
                              ∧ id ≠ layer_id (encoder_attn M j)) →
           r' !! id = st.2 !! id).
Proof.
  intros Hd Hnd Ht Hm Ha Hs. revert st Ht.
  induction Hnd as [|i layers Hi Hnd IH]; intros st Ht Hbefore.
  - split; [intros j Hj; by apply elem_of_nil in Hj | done].
  - cbn [row_layers foldl].
    destruct (row_layer_entries M enc smask mask_bits attn_rows i st cs S n)
      as [Hafter Hsame]; try done.
    { apply Hbefore. set_solver. }
    set (st1 := row_layer M enc smask mask_bits attn_rows i st) in *.
    destruct (IH st1) as [IH1 IH2].
    { by apply row_layer_length. }
    { intros j Hj. eapply (entry_before_other M st.2 _ cs S i j); try done.
      - intros ->. done.
      - apply Hbefore. set_solver. }
    fold (row_layers M enc smask mask_bits attn_rows layers st1).
    split.
    + intros j Hj. apply elem_of_cons in Hj as [-> | Hj]; [| by apply IH1].
      destruct Hafter as [(e1 & He1 & Hl1) (e2 & He2 & Hl2)].
      split.
      * exists e1. split; [| done]. rewrite IH2; [done |].
        intros j Hj. destruct (layer_ids_distinct M i j Hd) as (? & Hx & ?).
        destruct (layer_ids_distinct M i i Hd) as (? & _).
        destruct (layer_ids_distinct M j i Hd) as (? & Hy & ?).
        split; [apply Hx | ]; try (intros ->; done). done.
      * exists e2. split; [| done]. rewrite IH2; [done |].
        intros j Hj. destruct (layer_ids_distinct M i j Hd) as (? & ? & Hx).
        destruct (layer_ids_distinct M j i Hd) as (? & _).
        split; [| apply Hx; intros ->; done]. intros Heq. by symmetry in Heq.
    + intros id Hid. rewrite IH2 by (intros j Hj; apply Hid; set_solver).
      apply Hsame; apply (Hid i); set_solver.
Qed.

(** The layers over a batch are the layers over each of its rows. *)
Lemma fwd_layers_rows M mask am enc sm bs n cs S
    (gm : nat → list bool) (gam : nat → list (list bool))
    (genc : nat → list H) (gsm : nat → list bool) layers :
  is_decoder M = true → (0 < bs)%nat → NoDup layers →
  rows_are mask bs gm → (∀ b, (b < bs)%nat → length (gm b) = n) →
  rows_are am bs gam →
  (∀ b, (b < bs)%nat →
     length (gam b) = n ∧ Forall (λ r, length r = (cs + n)%nat) (gam b)) →
  rows_are enc bs genc → (∀ b, (b < bs)%nat → length (genc b) = S) →
  rows_are sm bs gsm → (∀ b, (b < bs)%nat → length (gsm b) = S) →
  ∀ c tensor (gin : nat → list H) rc,
  rows_are tensor bs gin → (∀ b, (b < bs)%nat → length (gin b) = n) →
  cache_slen c = Z.of_nat cs →
  cache_rows (cache_kv c) bs rc →
  (∀ b j, (b < bs)%nat → j ∈ layers → entry_before M (rc b) cs S j) →
  ∃ out kvs',
    fwd_layers M (Mask3 am) mask (Some (enc, sm)) true layers (tensor, Some c)
      = Some (out, Some {| cache_slen := cache_slen c; cache_kv := kvs' |})
    ∧ rows_are out bs
        (λ b, (row_layers M (genc b) (gsm b) (gm b) (gam b) layers (gin b, rc b)).1)
    ∧ cache_rows kvs' bs
        (λ b, (row_layers M (genc b) (gsm b) (gm b) (gam b) layers (gin b, rc b)).2).
Proof.
  intros Hd Hbs Hnd Hm Hnm Ham Hnam Henc HS Hsm Hnsm.
  induction Hnd as [|i layers Hi Hnd IH]; intros c tensor gin rc Ht Hnt Hcs Hc Hent.
  - cbn [fwd_layers row_layers foldl fst snd].
    exists tensor, (cache_kv c). split; [by destruct c |]. done.
  - cbn [fwd_layers].
    destruct (fwd_layer_rows M c tensor mask am enc sm bs n cs S gin gm gam genc gsm
                rc i) as (t1 & kvs1 & -> & Ht1 & Hc1); try done.
    { intros b Hb. apply Hent; [done | set_solver]. }
    cbn [mbind option_bind].
    destruct (IH {| cache_slen := cache_slen c; cache_kv := kvs1 |} t1
                (λ b, (row_layer M (genc b) (gsm b) (gm b) (gam b) i (gin b, rc b)).1)
                (λ b, (row_layer M (genc b) (gsm b) (gm b) (gam b) i (gin b, rc b)).2)
                Ht1)
      as (out & kvs' & -> & Hout & Hc'); try done.
    { intros b Hb. apply row_layer_length; [by apply Hnt | by apply Hnm |].
      by apply Hnam. }
    { intros b j Hb Hj.
      destruct (row_layer_entries M (genc b) (gsm b) (gm b) (gam b) i
                  (gin b, rc b) cs S n) as [_ Hsame]; try done.
      - by apply Hnt.
      - by apply Hnam.
      - by apply HS.
      - apply Hent; [done | set_solver].
      - eapply (entry_before_other M (rc b) _ cs S i j); try done.
        + intros ->. done.
        + apply Hent; [done | set_solver]. }
    exists out, kvs'. split; [done |]. split.
    + eapply rows_are_ext; [| exact Hout]. intros b Hb. cbn beta.
      unfold row_layers. cbn [foldl]. by destruct (row_layer _ _ _ _ _ _ _).
    + intros id. specialize (Hc' id). destruct (kvs' !! id) as [e |].
      * destruct Hc' as (H1 & H2 & H3). split; [| split].
        -- eapply rows_are_ext; [| exact H1]. intros b Hb. cbn beta.
           unfold row_layers. cbn [foldl]. by destruct (row_layer _ _ _ _ _ _ _).
        -- eapply rows_are_ext; [| exact H2]. intros b Hb. cbn beta.
           unfold row_layers. cbn [foldl]. by destruct (row_layer _ _ _ _ _ _ _).
        -- intros b Hb. specialize (H3 b Hb). unfold row_layers. cbn [foldl].
           by destruct (row_layer _ _ _ _ _ _ _).
      * intros b Hb. specialize (Hc' b Hb). unfold row_layers. cbn [foldl].
        by destruct (row_layer _ _ _ _ _ _ _).
Qed.

End decoder_rows.

Section fwd_rows.
Context {H KV : Type}.
Local Abbreviation RowCache := (gmap nat (list KV * list KV)).
Implicit Types (M : @TransformerModel H KV).
Implicit Types (rc : nat → RowCache) (c : @Cache KV).

(** The lower triangle: row [q] of the causal mask over [slen] steps. *)
Definition causal_rows (slen : nat) : list (list bool) :=
  map (λ q, map (λ k, (k <=? q)%nat) (seq 0 slen)) (seq 0 slen).

(** The incremental pass of a decoder on one sentence: [x], [pos] and [lang]
    are the [slen] tokens, positions and language ids so far, of which the
    first [cs] are in the cache [r]; [enc] is the encoded source and [srclen]
    its valid length.  The result is the hidden states of the [slen - cs] new
    steps and the cache of the sentence. *)
Definition row_fwd M (cs slen : nat) (len : Z) (x pos lang : list Z)
    (enc : list H) (srclen : Z) (r : RowCache) : option (list H * RowCache) :=
  let mask_bits := drop cs (map (λ a, Z.of_nat a <? len) (seq 0 slen)) in
  let attn_rows := drop cs (causal_rows slen) in
  let smask := map (λ a, Z.of_nat a <? srclen) (seq 0 (length enc)) in
  emb ← mapM (λ tpl : Z * Z * Z, embed_lookup M tpl.1.1 tpl.1.2 (Some tpl.2))
         (zip (zip (drop cs x) (drop cs pos)) (drop cs lang));
  Some (row_layers M enc smask mask_bits attn_rows (seq 0 (n_layers M))
          (zip_with (mul_mask M) emb mask_bits, r)).

Lemma py_slice_from_drop {A} (l : list A) (cs slen : nat) :
  length l = slen → (cs < slen)%nat →
  py_slice_from (- (Z.of_nat slen - Z.of_nat cs)) l = drop cs l.
Proof.
  intros Hl Hcs. unfold py_slice_from. rewrite Hl.
  rewrite (proj2 (Z.ltb_lt _ _)) by lia. f_equal. lia.
Qed.

Lemma cut_cached_drop {A} c (t : list (list A)) (cs slen : nat) :
  cache_slen c = Z.of_nat cs → (cs < slen)%nat →
  Forall (λ r, length r = slen) t →
  cut_cached (Some c) true slen t = map (drop cs) t.
Proof.
  intros Hc Hcs Hall. unfold cut_cached. rewrite Hc.
  induction Hall as [|r t Hr _ IH]; simpl; [done |].
  rewrite py_slice_from_drop by done. by rewrite IH.
Qed.

Lemma length_causal_rows slen :
  length (causal_rows slen) = slen
  ∧ Forall (λ r, length r = slen) (causal_rows slen).
Proof.
  unfold causal_rows. split; [by rewrite length_map, length_seq |].
  apply Forall_map, Forall_forall. intros q _. simpl.
  by rewrite length_map, length_seq.
Qed.

Lemma max_list_le (l : list Z) (bound : Z) :
  l ≠ [] → (∀ x, x ∈ l → x <= bound) →
  ∃ mx, max_list l = Some mx ∧ mx <= bound.
Proof.
  intros Hne Hle. destruct (max_list_spec l Hne) as (mx & Hmx & Hin & _).
  exists mx. split; [done |]. by apply Hle.
Qed.

Lemma rows_are_elem {A} (t : list A) bs g x :
  rows_are t bs g → x ∈ t → ∃ b, (b < bs)%nat ∧ x = g b.
Proof.
  intros [Hl Hg] Hx. apply list_elem_of_lookup in Hx as [b Hb].
  assert (b < bs)%nat as Hlt by (rewrite <- Hl; by eapply lookup_lt_Some).
  exists b. split; [done |]. rewrite Hg in Hb by done. by injection Hb.
Qed.

Lemma rows_are_nonempty {A} (t : list A) bs g : (0 < bs)%nat → rows_are t bs g → t ≠ [].
Proof. intros Hbs [Hl _] ->. simpl in Hl. lia. Qed.

Lemma row_fwd_inv M cs slen len x pos lang enc srclen (r : RowCache) res :
  row_fwd M cs slen len x pos lang enc srclen r = Some res →
  ∃ emb,
    mapM (λ tpl : Z * Z * Z, embed_lookup M tpl.1.1 tpl.1.2 (Some tpl.2))
      (zip (zip (drop cs x) (drop cs pos)) (drop cs lang)) = Some emb
    ∧ res = row_layers M enc (map (λ a, Z.of_nat a <? srclen) (seq 0 (length enc)))
              (drop cs (map (λ a, Z.of_nat a <? len) (seq 0 slen)))
              (drop cs (causal_rows slen)) (seq 0 (n_layers M))
              (zip_with (mul_mask M) emb
                 (drop cs (map (λ a, Z.of_nat a <? len) (seq 0 slen))), r).
Proof.
  unfold row_fwd. intros Hr.
  destruct (mapM _ _) as [emb |] eqn:E; [| done].
  exists emb. split; [done |]. simpl in Hr. by injection Hr.
Qed.

(** The incremental pass over a batch is the incremental pass over each of
    its sentences. *)
Lemma fwd_rows M c x lengths enc sl pos lang bs slen cs S
    (gx : nat → list Z) (glen : nat → Z) (genc : nat → list H) (gsl : nat → Z)
    (gpos glang : nat → list Z) rc (gout : nat → list H * RowCache) :
  is_decoder M = true → (0 < bs)%nat → (cs < slen)%nat →
  rows_are x bs gx → (∀ b, (b < bs)%nat → length (gx b) = slen) →
  rows_are lengths bs glen → (∀ b, (b < bs)%nat → glen b <= Z.of_nat slen) →
  rows_are enc bs genc → (∀ b, (b < bs)%nat → length (genc b) = S) →
  rows_are sl bs gsl →
  rows_are pos bs gpos → (∀ b, (b < bs)%nat → length (gpos b) = slen) →
  rows_are lang bs glang → (∀ b, (b < bs)%nat → length (glang b) = slen) →
  cache_slen c = Z.of_nat cs →
  cache_rows (cache_kv c) bs rc →
  (∀ b j, (b < bs)%nat → (j < n_layers M)%nat → entry_before M (rc b) cs S j) →
  (∀ b, (b < bs)%nat →
     row_fwd M cs slen (glen b) (gx b) (gpos b) (glang b) (genc b) (gsl b) (rc b)
       = Some (gout b)) →
  ∃ out kvs',
    fwd M (Some c) x lengths true (Some enc) (Some sl) (Some pos) (Some lang) true
      = Some (out, Some {| cache_slen := Z.of_nat slen; cache_kv := kvs' |})
    ∧ rows_are out bs (λ b, (gout b).1)
    ∧ cache_rows kvs' bs (λ b, (gout b).2).
Proof.
  intros Hd Hbs Hcs Hx Hnx Hlen Hnlen Henc HS Hsl Hpos Hnpos Hlang Hnlang
    Hc Hrc Hent Hrow.
  set (n := (slen - cs)%nat).
  assert (Hd1 : dim1 x = slen) by (eapply rows_are_dim1; eauto).
  destruct (max_list_le lengths (Z.of_nat slen)) as (mx & Hmx & Hmxle).
  { by eapply rows_are_nonempty. }
  { intros v Hv. destruct (rows_are_elem _ _ _ _ Hlen Hv) as (b & Hb & ->). auto. }
  unfold fwd. cbn [py_assert andb negb bool_decide mbind option_bind].
  rewrite bool_decide_eq_true_2 by eauto. cbn [negb andb py_assert mbind option_bind].
  rewrite Hd1, (proj1 Hlen), (proj1 Hx), Nat.eqb_refl.
  cbn [py_assert mbind option_bind]. rewrite Hmx.
  cbn [mbind option_bind]. rewrite (proj2 (Z.leb_le _ _) Hmxle).
  cbn [py_assert mbind option_bind].
  rewrite !bool_decide_eq_true_2 by eauto.
  cbn [eqb negb orb py_assert mbind option_bind default from_option id].
  rewrite Hd, (proj1 Henc), Nat.eqb_refl.
  cbn [andb orb py_assert mbind option_bind].
  unfold get_masks. rewrite Hmx. cbn [mbind option_bind].
  rewrite (proj2 (Z.leb_le _ _) Hmxle). cbn [py_assert mbind option_bind].
  unfold checked_arg.
  rewrite (proj2 (has_shape_spec bs slen pos))
    by (split; [apply Hpos | eapply rows_are_Forall; eauto]).
  rewrite (proj2 (has_shape_spec bs slen lang))
    by (split; [apply Hlang | eapply rows_are_Forall; eauto]).
  cbn [mbind option_bind default from_option id fmap option_fmap option_map].
  rewrite !(cut_cached_drop c _ cs slen Hc Hcs);
    try (eapply rows_are_Forall; eauto; fail).
  2:{ unfold length_mask. apply Forall_map, Forall_forall. intros v _. cbn beta.
      by rewrite length_map, length_seq. }
  (* the masks *)
  set (gm := λ b, drop cs (map (λ a, Z.of_nat a <? glen b) (seq 0 slen))).
  assert (Hmask : rows_are (map (drop cs) (length_mask (seq 0 slen) lengths)) bs gm).
  { exact (rows_are_map (drop cs) _ _ _
             (rows_are_map (λ len, map (λ a, Z.of_nat a <? len) (seq 0 slen))
                _ _ _ Hlen)). }
  assert (Hnm : ∀ b, (b < bs)%nat → length (gm b) = n).
  { intros b _. unfold gm. by rewrite length_drop, length_map, length_seq. }
  unfold cut_cached_mask, slice_mask. rewrite Hc, (proj1 Hlen).
  set (gam := λ b : nat, drop cs (causal_rows slen)).
  assert (Ham : rows_are
            (map (py_slice_from (- (Z.of_nat slen - Z.of_nat cs)))
               (replicate bs (causal_rows slen))) bs gam).
  { eapply rows_are_ext;
      [| exact (rows_are_map (py_slice_from (- (Z.of_nat slen - Z.of_nat cs)))
                  _ _ _ (rows_are_replicate bs (causal_rows slen)))].
    intros b _. cbn beta. unfold gam.
    apply py_slice_from_drop; [apply length_causal_rows | done]. }
  fold (causal_rows slen).
  assert (Hnam : ∀ b, (b < bs)%nat →
            length (gam b) = n ∧ Forall (λ r, length r = (cs + n)%nat) (gam b)).
  { intros b _. unfold gam. destruct (length_causal_rows slen) as [Hl Hall].
    split; [by rewrite length_drop, Hl |].
    apply Forall_drop. eapply Forall_impl; [exact Hall |].
    intros r Hr. cbn beta in *. unfold n. lia. }
  (* the source mask *)
  set (gsm := λ b, map (λ a, Z.of_nat a <? gsl b) (seq 0 (length (genc b)))).
  assert (HdS : dim1 enc = S) by (eapply rows_are_dim1; eauto).
  assert (Hsm : rows_are (length_mask (seq 0 (dim1 enc)) sl) bs gsm).
  { rewrite HdS. unfold length_mask.
    eapply rows_are_ext;
      [| exact (rows_are_map (λ len, map (λ a, Z.of_nat a <? len) (seq 0 S))
                  _ _ _ Hsl)].
    intros b Hb. cbn beta. unfold gsm. by rewrite HS. }
  assert (Hnsm : ∀ b, (b < bs)%nat → length (gsm b) = S).
  { intros b Hb. unfold gsm. by rewrite length_map, length_seq, HS. }
  (* the embeddings *)
  pose proof (rows_are_map (drop cs) _ _ _ Hx) as Hx'.
  pose proof (rows_are_map (drop cs) _ _ _ Hpos) as Hpos'.
  pose proof (rows_are_map (drop cs) _ _ _ Hlang) as Hlang'.
  assert (Hndrop : ∀ g : nat → list Z,
            (∀ b, (b < bs)%nat → length (g b) = slen) →
            ∀ b, (b < bs)%nat → length (drop cs (g b)) = n).
  { intros g Hg b Hb. rewrite length_drop, Hg by done. done. }
  unfold embeddings.
  rewrite (rows_are_dim1 _ bs _ n Hbs Hx') by (by apply Hndrop).
  rewrite (proj1 Hx').
  rewrite expand2_same;
    [| apply Hpos' | eapply rows_are_Forall; [exact Hpos' | by apply Hndrop]].
  cbn [mbind option_bind].
  rewrite (zip_rows_rows pair _ _ bs n _ _ Hbs Hx' Hpos') by (by apply Hndrop).
  cbn [mbind option_bind].
  pose proof (rows_are_zip_with (zip_with pair) _ _ _ _ _ Hx' Hpos') as Htoks.
  rewrite (zip_rows_rows pair _ _ bs n _ _ Hbs Htoks Hlang'); first last.
  { by apply Hndrop. }
  { cbn beta. rewrite length_zip_with, !Hndrop by done. lia. }
  cbn [mbind option_bind].
  pose proof (rows_are_zip_with (zip_with pair) _ _ _ _ _ Htoks Hlang') as Htl.
  set (gemb := λ b, default []
         (mapM (λ tpl : Z * Z * Z, embed_lookup M tpl.1.1 tpl.1.2 (Some tpl.2))
            (zip (zip (drop cs (gx b)) (drop cs (gpos b))) (drop cs (glang b))))).
  destruct (rows_are_mapM
              (mapM (λ tpl : Z * Z * Z, embed_lookup M tpl.1.1 tpl.1.2 (Some tpl.2)))
              _ bs _ gemb Htl) as (emb & -> & Hemb).
  { intros b Hb. cbn beta. unfold gemb.
    destruct (row_fwd_inv _ _ _ _ _ _ _ _ _ _ _ (Hrow b Hb)) as (e & -> & _). done. }
  cbn [mbind option_bind].
  assert (Hnemb : ∀ b, (b < bs)%nat → length (gemb b) = n).
  { intros b Hb. unfold gemb.
    destruct (row_fwd_inv _ _ _ _ _ _ _ _ _ _ _ (Hrow b Hb)) as (e & He & _).
    rewrite He. cbn. apply length_mapM in He. rewrite <- He.
    rewrite !length_zip_with, !Hndrop by done. lia. }
  rewrite (apply_mask_rows M _ emb bs n gemb gm Hbs Hemb Hnemb Hmask Hnm).
  cbn [mbind option_bind].
  pose proof (rows_are_zip_with (zip_with (mul_mask M)) _ _ _ _ _ Hemb Hmask) as Ht0.
  destruct (fwd_layers_rows M _ _ enc _ bs n cs S gm gam genc gsm
              (seq 0 (n_layers M)) Hd Hbs (NoDup_seq 0 _) Hmask Hnm Ham Hnam
              Henc HS Hsm Hnsm c _ _ rc Ht0) as (out & kvs' & Hrun & Hout & Hkvs).
  { intros b Hb. cbn beta. rewrite length_zip_with, Hnemb, Hnm by done. lia. }
  { done. }
  { done. }
  { intros b j Hb Hj. apply Hent; [done |]. apply elem_of_seq in Hj. lia. }
  rewrite Hrun. cbn [mbind option_bind fst snd fmap option_fmap option_map].
  assert (Hres : ∀ b, (b < bs)%nat →
            gout b = row_layers M (genc b) (gsm b) (gm b) (gam b) (seq 0 (n_layers M))
                       (zip_with (mul_mask M) (gemb b) (gm b), rc b)).
  { intros b Hb.
    destruct (row_fwd_inv _ _ _ _ _ _ _ _ _ _ _ (Hrow b Hb)) as (e & He & ->).
    unfold gemb. rewrite He. done. }
  assert (Hdout : dim1 out = n).
  { eapply (rows_are_dim1 out bs _ n Hbs Hout).
    apply row_layers_length; [| by apply Hnm | by apply Hnam].
    cbn [fst]. rewrite length_zip_with, Hnemb, Hnm by done. lia. }
  rewrite Hdout, Hc. cbn [cache_slen cache_kv].
  replace (Z.of_nat cs + Z.of_nat n) with (Z.of_nat slen) by (unfold n; lia).
  exists out, kvs'. split; [done |]. split.
  - eapply rows_are_ext; [| exact Hout]. intros b Hb. cbn beta. by rewrite Hres.
  - intros id. specialize (Hkvs id). destruct (kvs' !! id) as [e |].
    + destruct Hkvs as (H1 & H2 & H3). split; [| split].
      * eapply rows_are_ext; [| exact H1]. intros b Hb. cbn beta. by rewrite Hres.
      * eapply rows_are_ext; [| exact H2]. intros b Hb. cbn beta. by rewrite Hres.
      * intros b Hb. rewrite Hres by done. by apply H3.
    + intros b Hb. rewrite Hres by done. by apply Hkvs.
Qed.

End fwd_rows.

(** ** The incremental pass and the cache: shapes *)

Section fwd_shapes.
Context {H KV : Type}.
Local Abbreviation RowCache := (gmap nat (list KV * list KV)).
Implicit Types (M : @TransformerModel H KV).
Implicit Types (rc : nat → RowCache) (c : @Cache KV).

(** Indices the embedding tables accept. *)
Definition tok_ok M (tok : Z) : Prop := in_range tok (Z.of_nat (n_words M)) = true.
Definition pos_ok (p : Z) : Prop := in_range p N_MAX_POSITIONS = true.
Definition lang_ok M (l : Z) : Prop :=
  use_lang_emb M = false
  ∨ ((1 < n_langs M)%nat ∧ in_range l (Z.of_nat (n_langs M)) = true).

Lemma embed_lookup_ok M tok p l :
  tok_ok M tok → pos_ok p → lang_ok M l →
  is_Some (embed_lookup M tok p (Some l)).
Proof.
  unfold tok_ok, pos_ok, lang_ok, embed_lookup. intros -> -> Hl. simpl.
  destruct (use_lang_emb M); [| done].
  destruct Hl as [? | [Hn ->]]; [done |].
  by rewrite (proj2 (Nat.ltb_lt _ _) Hn).
Qed.

Lemma row_fwd_total M cs slen len x pos lang enc srclen (r : RowCache) :
  Forall (tok_ok M) (drop cs x) → Forall pos_ok (drop cs pos) →
  Forall (lang_ok M) (drop cs lang) →
  is_Some (row_fwd M cs slen len x pos lang enc srclen r).
Proof.
  intros Hx Hp Hl. unfold row_fwd.
  destruct (mapM _ _) as [emb |] eqn:E; [done |].
  exfalso. apply (is_Some_None (A := list H)). rewrite <- E.
  apply mapM_is_Some. apply Forall_forall. intros [[tok p] l] Hin. simpl.
  apply elem_of_zip_with in Hin as (tp & l' & Heq & Htp & Hl').
  injection Heq as <- <-.
  apply elem_of_zip_with in Htp as (tok' & p' & Heq & Htok & Hp').
  injection Heq as <- <-.
  rewrite Forall_forall in Hx, Hp, Hl. apply embed_lookup_ok; auto.
Qed.

(** The result of the pass on one row: as many hidden states as new steps,
    and for every layer keys and values grown to [slen] steps for
    self-attention, of the source's length for attention over the source. *)
Lemma row_fwd_shape M cs slen len x pos lang enc srclen (r : RowCache) res S :
  is_decoder M = true → (cs ≤ slen)%nat →
  length x = slen → length pos = slen → length lang = slen → length enc = S →
  (∀ j, (j < n_layers M)%nat → entry_before M r cs S j) →
  row_fwd M cs slen len x pos lang enc srclen r = Some res →
  length res.1 = (slen - cs)%nat
  ∧ ∀ j, (j < n_layers M)%nat → entry_after M res.2 slen S j.
Proof.
  intros Hd Hcs Hx Hp Hl Hs Hent Hr.
  destruct (row_fwd_inv _ _ _ _ _ _ _ _ _ _ _ Hr) as (emb & Hemb & ->).
  apply length_mapM in Hemb. rewrite !length_zip_with, !length_drop in Hemb.
  assert (Hn0 : length (zip_with (mul_mask M) emb
              (drop cs (map (λ a, Z.of_nat a <? len) (seq 0 slen))))
              = (slen - cs)%nat).
  { rewrite length_zip_with, length_drop, length_map, length_seq. lia. }
  split.
  - apply row_layers_length; [done | |].
    + by rewrite length_drop, length_map, length_seq.
    + rewrite length_drop. by rewrite (proj1 (length_causal_rows slen)).
  - intros j Hj.
    destruct (row_layers_entries M enc
                (map (λ a, Z.of_nat a <? srclen) (seq 0 (length enc)))
                (drop cs (map (λ a, Z.of_nat a <? len) (seq 0 slen)))
                (drop cs (causal_rows slen)) (seq 0 (n_layers M))
                (zip_with (mul_mask M) emb
                   (drop cs (map (λ a, Z.of_nat a <? len) (seq 0 slen))), r)
                cs S (slen - cs) Hd (NoDup_seq 0 _)) as [Hafter _]; try done.
    + by rewrite length_drop, length_map, length_seq.
    + rewrite length_drop. by rewrite (proj1 (length_causal_rows slen)).
    + intros i Hi. apply Hent. apply elem_of_seq in Hi. lia.
    + assert (Hin : j ∈ seq 0 (n_layers M)) by (apply elem_of_seq; lia).
      pose proof (Hafter j Hin) as Haj.
      by replace (cs + (slen - cs))%nat with slen in Haj by lia.
Qed.

End fwd_shapes.

(** ** The incremental pass and the cache: the batch *)

(** A tensor of [bs] rows of [n] entries. *)
Definition rect {A} (bs n : nat) (t : list (list A)) : Prop :=
  length t = bs ∧ Forall (λ r, length r = n) t.

Lemma rows_are_default {A} (t : list A) (d : A) :
  rows_are t (length t) (λ b, default d (t !! b)).
Proof.
  split; [done |]. intros b Hb.
  destruct (lookup_lt_is_Some_2 t b Hb) as [y ->]. done.
Qed.

Lemma rect_rows {A} (t : list (list A)) bs n :
  rect bs n t →
  rows_are t bs (λ b, default [] (t !! b))
  ∧ ∀ b, (b < bs)%nat → length (default [] (t !! b)) = n.
Proof.
  intros [Hl Hall]. split.
  - rewrite <- Hl. apply rows_are_default.
  - intros b Hb. rewrite <- Hl in Hb.
    destruct (lookup_lt_is_Some_2 t b Hb) as [y Hy]. rewrite Hy. simpl.
    by eapply (proj1 (Forall_lookup _ _) Hall).
Qed.

Lemma rows_rect {A} (t : list (list A)) bs n g :
  rows_are t bs g → (∀ b, (b < bs)%nat → length (g b) = n) → rect bs n t.
Proof. intros Ht Hn. split; [apply Ht | by eapply rows_are_Forall]. Qed.

Section fwd_batch.
Context {H KV : Type}.
Local Abbreviation RowCache := (gmap nat (list KV * list KV)).
Implicit Types (M : @TransformerModel H KV).
Implicit Types (rc : nat → RowCache) (c : @Cache KV).

(** The cache a pass may start from: [cs] steps accumulated for [bs]
    sentences, over a source of [S] positions.  A layer that has a
    self-attention entry holds [cs] steps in it, and none only while
    nothing is accumulated; an entry for the attention over the source holds
    [S] positions. *)
Definition cache_ok M c (bs cs S : nat) : Prop :=
  cache_slen c = Z.of_nat cs
  ∧ (∀ id e, cache_kv c !! id = Some e → length e.1 = bs ∧ length e.2 = bs)
  ∧ ∀ j, (j < n_layers M)%nat →
      match cache_kv c !! layer_id (attentions M j) with
      | Some e => rect bs cs e.1 ∧ rect bs cs e.2
      | None => cs = 0%nat
      end
      ∧ match cache_kv c !! layer_id (encoder_attn M j) with
        | Some e => rect bs S e.1 ∧ rect bs S e.2
        | None => True
        end.

(** The cache a pass leaves: every layer has both entries. *)
Definition cache_full M c (bs cs S : nat) : Prop :=
  cache_slen c = Z.of_nat cs
  ∧ (∀ id e, cache_kv c !! id = Some e → length e.1 = bs ∧ length e.2 = bs)
  ∧ ∀ j, (j < n_layers M)%nat →
      (∃ e, cache_kv c !! layer_id (attentions M j) = Some e
            ∧ rect bs cs e.1 ∧ rect bs cs e.2)
      ∧ (∃ e, cache_kv c !! layer_id (encoder_attn M j) = Some e
              ∧ rect bs S e.1 ∧ rect bs S e.2).


Lemma cache_ok_empty M bs S : cache_ok M empty_cache bs 0 S.
Proof.
  split; [done |]. unfold empty_cache. cbn [cache_kv]. split.
  - intros id e He. by rewrite lookup_empty in He.
  - intros j _. by rewrite !lookup_empty.
Qed.

(** The share of row [b] in a batched cache. *)
Definition cache_row (kvs : gmap nat (list (list KV) * list (list KV))) (b : nat)
    : RowCache :=
  (λ e, (default [] (e.1 !! b), default [] (e.2 !! b))) <$> kvs.

Lemma cache_rows_cache_row kvs bs :
  (∀ id e, kvs !! id = Some e → length e.1 = bs ∧ length e.2 = bs) →
  cache_rows kvs bs (cache_row kvs).
Proof.
  intros Hrows id. destruct (kvs !! id) as [e |] eqn:E.
  - destruct (Hrows id e E) as [H1 H2]. split; [| split].
    + eapply rows_are_ext; [| rewrite <- H1; apply (rows_are_default e.1 [])].
      intros b _. unfold cache_row. by rewrite lookup_fmap, E.
    + eapply rows_are_ext; [| rewrite <- H2; apply (rows_are_default e.2 [])].
      intros b _. unfold cache_row. by rewrite lookup_fmap, E.
    + intros b _. unfold cache_row. by rewrite lookup_fmap, E.
  - intros b _. unfold cache_row. by rewrite lookup_fmap, E.
Qed.

Lemma cache_ok_entry_before M c bs cs S b j :
  cache_ok M c bs cs S → (b < bs)%nat → (j < n_layers M)%nat →
  entry_before M (cache_row (cache_kv c) b) cs S j.
Proof.
  intros (_ & _ & Hl) Hb Hj. destruct (Hl j Hj) as [H1 H2].
  unfold entry_before, cache_row. rewrite !lookup_fmap. split.
  - destruct (cache_kv c !! layer_id (attentions M j)) as [e |]; [| done].
    destruct H1 as [Hk Hv]. simpl.
    split; [apply (rect_rows _ _ _ Hk) | apply (rect_rows _ _ _ Hv)]; done.
  - destruct (cache_kv c !! layer_id (encoder_attn M j)) as [e |]; [| done].
    destruct H2 as [Hk Hv]. simpl.
    split; [apply (rect_rows _ _ _ Hk) | apply (rect_rows _ _ _ Hv)]; done.
Qed.

Lemma cache_rows_full M kvs bs cs S (gr : nat → RowCache) :
  (0 < bs)%nat →
  cache_rows kvs bs gr →
  (∀ b j, (b < bs)%nat → (j < n_layers M)%nat → entry_after M (gr b) cs S j) →
  cache_full M {| cache_slen := Z.of_nat cs; cache_kv := kvs |} bs cs S.
Proof.
  intros Hbs Hc Hafter. split; [done |]. split.
  - intros id e He. specialize (Hc id). cbn [cache_kv] in He. rewrite He in Hc.
    destruct Hc as ((? & _) & (? & _) & _). done.
  - intros j Hj. cbn [cache_kv].
    assert (Hone : ∀ id len,
              (∀ b, (b < bs)%nat →
                 ∃ e, gr b !! id = Some e ∧ length e.1 = len ∧ length e.2 = len) →
              ∃ e, kvs !! id = Some e ∧ rect bs len e.1 ∧ rect bs len e.2).
    { intros id len Hid. specialize (Hc id). destruct (kvs !! id) as [e |].
      - exists e. split; [done |]. destruct Hc as (Hk & Hv & _).
        split; eapply rows_rect; try done.
        + intros b Hb. destruct (Hid b Hb) as (e' & -> & ? & ?). done.
        + intros b Hb. destruct (Hid b Hb) as (e' & -> & ? & ?). done.
      - destruct (Hid 0%nat Hbs) as (e' & He' & _). by rewrite Hc in He'. }
    split; apply Hone; intros b Hb; destruct (Hafter b j Hb Hj) as [H1 H2]; done.
Qed.

(** The incremental pass on a batch, called as the decoders call it (a
    decoder, with source, positions and language ids), on a cache that holds
    [cs < slen] steps: it returns the hidden states of the [slen - cs] new
    steps of every sentence and a cache that holds [slen] steps. *)
Lemma fwd_cached_spec M c x lengths enc sl pos lang bs slen cs S :
  is_decoder M = true → (0 < bs)%nat → (cs < slen)%nat →
  rect bs slen x → length lengths = bs →
  Forall (λ len, len <= Z.of_nat slen) lengths →
  rect bs S enc → length sl = bs → rect bs slen pos → rect bs slen lang →
  Forall (Forall (tok_ok M)) x → Forall (Forall pos_ok) pos →
  Forall (Forall (lang_ok M)) lang →
  cache_ok M c bs cs S →
  ∃ out c',
    fwd M (Some c) x lengths true (Some enc) (Some sl) (Some pos) (Some lang) true
      = Some (out, Some c')
    ∧ rect bs (slen - cs) out
    ∧ cache_full M c' bs slen S
    ∧ rows_are out bs (λ b,
        (default ([], ∅)
           (row_fwd M cs slen (default 0 (lengths !! b)) (default [] (x !! b))
              (default [] (pos !! b)) (default [] (lang !! b))
              (default [] (enc !! b)) (default 0 (sl !! b))
              (cache_row (cache_kv c) b))).1)
    ∧ cache_rows (cache_kv c') bs (λ b,
        (default ([], ∅)
           (row_fwd M cs slen (default 0 (lengths !! b)) (default [] (x !! b))
              (default [] (pos !! b)) (default [] (lang !! b))
              (default [] (enc !! b)) (default 0 (sl !! b))
              (cache_row (cache_kv c) b))).2).
Proof.
  intros Hd Hbs Hcs Hx Hlen Hle Henc Hsl Hpos Hlang Htok Hpok Hlok Hc.
  destruct (rect_rows _ _ _ Hx) as [Hxr Hxn].
  destruct (rect_rows _ _ _ Henc) as [Hencr Hencn].
  destruct (rect_rows _ _ _ Hpos) as [Hposr Hposn].
  destruct (rect_rows _ _ _ Hlang) as [Hlangr Hlangn].
  pose proof (rows_are_default lengths 0) as Hlenr. rewrite Hlen in Hlenr.
  pose proof (rows_are_default sl 0) as Hslr. rewrite Hsl in Hslr.
  set (grow := λ b,
         row_fwd M cs slen (default 0 (lengths !! b)) (default [] (x !! b))
           (default [] (pos !! b)) (default [] (lang !! b))
           (default [] (enc !! b)) (default 0 (sl !! b))
           (cache_row (cache_kv c) b)).
  assert (Hin : ∀ {A} (P : A → Prop) (t : list (list A)) b,
            Forall (Forall P) t → Forall P (drop cs (default [] (t !! b)))).
  { intros A P t b Hall. apply Forall_drop.
    destruct (t !! b) as [r |] eqn:E; [| constructor].
    by eapply (proj1 (Forall_lookup _ _) Hall). }
  assert (Hsome : ∀ b, (b < bs)%nat → grow b = Some (default ([], ∅) (grow b))).
  { intros b Hb. unfold grow.
    destruct (row_fwd_total M cs slen (default 0 (lengths !! b))
                (default [] (x !! b)) (default [] (pos !! b))
                (default [] (lang !! b)) (default [] (enc !! b))
                (default 0 (sl !! b)) (cache_row (cache_kv c) b)) as [res ->];
      auto. }
  destruct Hc as (Hcs0 & Hrows & Hlayers).
  destruct (fwd_rows M c x lengths enc sl pos lang bs slen cs S
              (λ b, default [] (x !! b)) (λ b, default 0 (lengths !! b))
              (λ b, default [] (enc !! b)) (λ b, default 0 (sl !! b))
              (λ b, default [] (pos !! b)) (λ b, default [] (lang !! b))
              (cache_row (cache_kv c)) (λ b, default ([], ∅) (grow b))
              Hd Hbs Hcs Hxr Hxn Hlenr) as (out & kvs' & Hrun & Hout & Hkvs);
    try done.
  { intros b Hb. rewrite <- Hlen in Hb.
    destruct (lookup_lt_is_Some_2 lengths b Hb) as [y Hy]. rewrite Hy. simpl.
    by eapply (proj1 (Forall_lookup _ _) Hle). }
  { by apply cache_rows_cache_row. }
  { intros b j Hb Hj. by apply (cache_ok_entry_before M c bs cs S b j). }
  assert (Hshape : ∀ b, (b < bs)%nat →
            length (default ([], ∅) (grow b)).1 = (slen - cs)%nat
            ∧ ∀ j, (j < n_layers M)%nat →
                   entry_after M (default ([], ∅) (grow b)).2 slen S j).
  { intros b Hb.
    eapply (row_fwd_shape M cs slen _ _ _ _ _ _ _ _ S Hd); try (by apply Hsome);
      auto; try lia.
    intros j Hj. by apply (cache_ok_entry_before M c bs cs S b j). }
  exists out, {| cache_slen := Z.of_nat slen; cache_kv := kvs' |}.
  split; [done |]. split; [| split; [| done]].
  - eapply rows_rect; [exact Hout |]. intros b Hb. by apply Hshape.
  - eapply cache_rows_full; [done | exact Hkvs |].
    intros b j Hb Hj. by apply Hshape.
Qed.

End fwd_batch.

Section fwd_claims.
Context {H KV : Type}.
Implicit Types (M : @TransformerModel H KV) (c : @Cache KV).

(** C3, as the code has it.  A pass with cache-use over [slen] steps on a
    cache that holds [cs < slen] of them returns, adds to [cache['slen']] the
    number of new steps it processed, and leaves every self-attention entry
    with exactly [cache['slen']] steps on its time axis; the entries of the
    attention over the source keep the length [S] of the source. *)
Theorem cache_slen_invariant M c x lengths enc sl pos lang bs slen cs S :
  is_decoder M = true → (0 < bs)%nat → (cs < slen)%nat →
  rect bs slen x → length lengths = bs →
  Forall (λ len, len <= Z.of_nat slen) lengths →
  rect bs S enc → length sl = bs → rect bs slen pos → rect bs slen lang →
  Forall (Forall (tok_ok M)) x → Forall (Forall pos_ok) pos →
  Forall (Forall (lang_ok M)) lang →
  cache_ok M c bs cs S →
  ∃ out c',
    fwd M (Some c) x lengths true (Some enc) (Some sl) (Some pos) (Some lang) true
      = Some (out, Some c')
    ∧ dim1 out = (slen - cs)%nat
    ∧ cache_slen c' = cache_slen c + Z.of_nat (dim1 out)
    ∧ ∀ j, (j < n_layers M)%nat →
        (∃ e, cache_kv c' !! layer_id (attentions M j) = Some e
              ∧ rect bs (Z.to_nat (cache_slen c')) e.1
              ∧ rect bs (Z.to_nat (cache_slen c')) e.2)
        ∧ (∃ e, cache_kv c' !! layer_id (encoder_attn M j) = Some e
                ∧ rect bs S e.1 ∧ rect bs S e.2).
Proof.
  intros Hd Hbs Hcs Hx Hlen Hle Henc Hsl Hpos Hlang Htok Hpok Hlok Hc.
  destruct (fwd_cached_spec M c x lengths enc sl pos lang bs slen cs S)
    as (out & c' & Hrun & Hout & (Hs' & _ & Hfull) & _); try done.
  assert (Hdim : dim1 out = (slen - cs)%nat).
  { destruct Hout as [Hl Hall]. destruct out as [|r out]; [simpl in Hl; lia |].
    simpl. by apply Forall_cons in Hall as [? _]. }
  exists out, c'. split; [done |]. split; [done |]. split.
  - rewrite Hs', Hdim, (proj1 Hc). lia.
  - rewrite Hs', Nat2Z.id. exact Hfull.
Qed.


End fwd_claims.

(** *** Instances *)

(** A source of three positions for a batch of one sentence. *)
Definition toy_src : list (list (list Z)) := [[[5]; [6]; [7]]].

Ltac toy_side :=
  first
    [ exact (cache_ok_empty _ _ _)
    | split; [reflexivity | repeat constructor]
    | repeat constructor; first [reflexivity | by right | lia]
    | reflexivity
    | cbn; lia ].

Lemma cache_slen_invariant_witness :
  ∃ out c',
    fwd (toy_model toy_pred) (Some empty_cache) [[1; 0]] [2] true
      (Some toy_src) (Some [3]) (Some [[0; 1]]) (Some [[1; 1]]) true
      = Some (out, Some c')
    ∧ dim1 out = (2 - 0)%nat
    ∧ cache_slen c' = cache_slen (@empty_cache Z) + Z.of_nat (dim1 out)
    ∧ ∀ j, (j < n_layers (toy_model toy_pred))%nat →
        (∃ e, cache_kv c' !! layer_id (attentions (toy_model toy_pred) j) = Some e
              ∧ rect 1 (Z.to_nat (cache_slen c')) e.1
              ∧ rect 1 (Z.to_nat (cache_slen c')) e.2)
        ∧ (∃ e, cache_kv c' !! layer_id (encoder_attn (toy_model toy_pred) j) = Some e
                ∧ rect 1 3 e.1 ∧ rect 1 3 e.2).
Proof.
  apply (cache_slen_invariant (toy_model toy_pred) empty_cache [[1; 0]] [2]
           toy_src [3] [[0; 1]] [[1; 1]] 1 2 0 3); toy_side.
Defined.

(** C3, as the specification states it, fails for the entries of the
    attention over the source: after the first pass over a source of three
    positions the accumulated length is 1 and the cached keys of that
    attention have three steps on their time axis. *)
Lemma cross_attention_entry_keeps_source_length :
  ∃ out c' e,
    fwd (toy_model toy_pred) (Some empty_cache) [[1]] [1] true
      (Some toy_src) (Some [3]) (Some [[0]]) (Some [[1]]) true
      = Some (out, Some c')
    ∧ cache_slen c' = 1
    ∧ cache_kv c' !! layer_id (encoder_attn (toy_model toy_pred) 0) = Some e
    ∧ length <$> e.1 = [3%nat]
    ∧ Z.of_nat 3 ≠ cache_slen c'.
Proof.
  eexists _, _, _. split; [vm_compute; reflexivity |].
  split; [reflexivity |]. split; [vm_compute; reflexivity |].
  split; [reflexivity | done].
Qed.



(** ** Boolean masks over the batch *)

(** The indices of the set bits of a mask, in order. *)
Fixpoint active_from (i : nat) (m : list bool) : list nat :=
  match m with
  | [] => []
  | b :: m' => if b then i :: active_from (S i) m' else active_from (S i) m'
  end.

Definition active (m : list bool) : list nat := active_from 0 m.

(** Row [j] of a tensor restricted to the set bits [act] belongs to sentence
    [act !! j]. *)
Definition idx_fun {A} (act : list nat) (G : nat → A) : nat → A :=
  λ j, G (default 0%nat (act !! j)).

Lemma select_rows_fmap {A B} (f : A → B) m (t : list A) :
  select_rows m (f <$> t) = f <$> select_rows m t.
Proof.
  revert t. induction m as [|b m IH]; intros [|x t]; simpl; try done.
  destruct b; simpl; by rewrite IH.
Qed.

Section mask_facts.
Context {A B : Type}.

Lemma active_from_shift i m : active_from (S i) m = S <$> active_from i m.
Proof.
  revert i. induction m as [|b m IH]; intros i; simpl; [done |].
  destruct b; simpl; by rewrite IH.
Qed.

Lemma select_rows_seq i m :
  select_rows m (seq i (length m)) = active_from i m.
Proof.
  revert i. induction m as [|b m IH]; intros i; simpl; [done |].
  destruct b; by rewrite IH.
Qed.

(** Selecting rows of a tensor given sentence by sentence. *)
Lemma select_rows_active (g : nat → A) m :
  select_rows m (g <$> seq 0 (length m)) = g <$> active m.
Proof. by rewrite select_rows_fmap, select_rows_seq. Qed.

Lemma elem_of_active_from i m s :
  s ∈ active_from i m ↔ (i ≤ s)%nat ∧ m !! (s - i)%nat = Some true.
Proof.
  revert i. induction m as [|b m IH]; intros i; simpl.
  - rewrite elem_of_nil. naive_solver.
  - destruct b.
    + rewrite elem_of_cons, IH. split.
      * intros [-> | [Hle Hs]].
        -- split; [lia |]. by rewrite Nat.sub_diag.
        -- split; [lia |]. by replace (s - i)%nat with (S (s - S i)) by lia.
      * intros [Hle Hs]. destruct (decide (s = i)) as [-> | Hne]; [by left | right].
        split; [lia |]. by replace (s - i)%nat with (S (s - S i)) in Hs by lia.
    + rewrite IH. split.
      * intros [Hle Hs]. split; [lia |].
        by replace (s - i)%nat with (S (s - S i)) by lia.
      * intros [Hle Hs]. destruct (decide (s = i)) as [-> | Hne].
        -- by rewrite Nat.sub_diag in Hs.
        -- split; [lia |]. by replace (s - i)%nat with (S (s - S i)) in Hs by lia.
Qed.

Lemma elem_of_active m s : s ∈ active m ↔ m !! s = Some true.
Proof.
  unfold active. rewrite elem_of_active_from.
  replace (s - 0)%nat with s by lia. naive_solver lia.
Qed.

Lemma active_lt m s : s ∈ active m → (s < length m)%nat.
Proof. rewrite elem_of_active. apply lookup_lt_Some. Qed.

(** Restricting again: the rows kept by [cur] among those kept by [prev]. *)
Lemma select_rows_restrict (prev cur : list bool) (t : list A) :
  length prev = length cur → length t = length prev →
  (∀ s, cur !! s = Some true → prev !! s = Some true) →
  select_rows (select_rows prev cur) (select_rows prev t) = select_rows cur t.
Proof.
  revert cur t. induction prev as [|p prev IH]; intros [|b cur] [|x t] Hl Hl' Hsub;
    simpl in *; try done.
  assert (Hsub' : ∀ s, cur !! s = Some true → prev !! s = Some true).
  { intros s Hs. apply (Hsub (S s) Hs). }
  destruct p; simpl.
  - destruct b; rewrite IH by (done || lia); done.
  - destruct b; [| apply IH; (done || lia)].
    by specialize (Hsub 0%nat eq_refl).
Qed.

Lemma length_select_rows m (t : list A) :
  length t = length m → length (select_rows m t) = length (active m).
Proof.
  intros Hl. unfold active. generalize 0%nat. revert t Hl.
  induction m as [|b m IH]; intros [|x t] Hl i; simpl in *; try done.
  assert (Hl' : length t = length m) by lia.
  destruct b; simpl; rewrite (IH t Hl' (S i)); done.
Qed.

(** Scattering values computed sentence by sentence back into the batch. *)
Lemma masked_update_active_from (f : B → A → B) (h : nat → A) i m (l : list B) :
  length l = length m →
  masked_update f m (h <$> active_from i m) l
  = imap (λ s x, if default false (m !! s) then f x (h (i + s)%nat) else x) l.
Proof.
  revert i l. induction m as [|b m IH]; intros i [|x l] Hl; simpl in *; try done.
  assert (Hl' : length l = length m) by lia.
  destruct b; simpl.
  - rewrite Nat.add_0_r. f_equal. etrans; [apply (IH (S i) l Hl') |].
    apply imap_ext. intros s y _. simpl. by replace (i + S s)%nat with (S (i + s)) by lia.
  - f_equal. etrans; [apply (IH (S i) l Hl') |].
    apply imap_ext. intros s y _. simpl. by replace (i + S s)%nat with (S (i + s)) by lia.
Qed.

Lemma masked_update_active (f : B → A → B) (h : nat → A) m (l : list B) :
  length l = length m →
  masked_update f m (h <$> active m) l
  = imap (λ s x, if default false (m !! s) then f x (h s) else x) l.
Proof. intros Hl. unfold active. by rewrite masked_update_active_from. Qed.

End mask_facts.

Lemma rows_are_idx {A} (act : list nat) (G : nat → A) :
  rows_are (G <$> act) (length act) (idx_fun act G).
Proof.
  split; [by rewrite length_fmap |]. intros j Hj.
  destruct (lookup_lt_is_Some_2 act j Hj) as [s Hs].
  unfold idx_fun. by rewrite list_lookup_fmap, Hs.
Qed.

Lemma rows_are_idx_eq {A} (t : list A) (act : list nat) (G : nat → A) :
  rows_are t (length act) (idx_fun act G) ↔ t = G <$> act.
Proof.
  split.
  - intros Ht. eapply rows_are_unique; [exact Ht | apply rows_are_idx].
  - intros ->. apply rows_are_idx.
Qed.

Lemma xor_masks_equal (a b : list bool) :
  length a = length b → existsb id (zip_with xorb a b) = false → a = b.
Proof.
  revert b. induction a as [|x a IH]; intros [|y b] Hl; simpl in *; try done.
  rewrite orb_false_iff. intros [Hxy Hrest]. f_equal.
  - by destruct x, y.
  - apply IH; [lia | done].
Qed.

Section restrict.
Context {KV : Type}.
Local Abbreviation RowCache := (gmap nat (list KV * list KV)).
Implicit Types (c : @Cache KV) (R : nat → RowCache).

(** Restricting every cached tensor to the rows still active keeps each row
    with its sentence. *)
Lemma restrict_cache_rows c (prev cur : list bool) R :
  length prev = length cur →
  (∀ s, cur !! s = Some true → prev !! s = Some true) →
  cache_rows (cache_kv c) (length (active prev)) (idx_fun (active prev) R) →
  ∃ c',
    restrict_cache (select_rows prev cur) c = Some c'
    ∧ cache_slen c' = cache_slen c
    ∧ cache_kv c' = (λ e, (select_rows (select_rows prev cur) e.1,
                            select_rows (select_rows prev cur) e.2)) <$> cache_kv c
    ∧ cache_rows (cache_kv c') (length (active cur)) (idx_fun (active cur) R).
Proof.
  intros Hl Hsub Hc.
  assert (Hres : length (select_rows prev cur) = length (active prev)).
  { by apply length_select_rows. }
  assert (Hact : ∀ {A} (F : nat → A),
            select_rows (select_rows prev cur) (F <$> active prev) = F <$> active cur).
  { intros A F. unfold active. rewrite <- !select_rows_seq, <- !select_rows_fmap.
    rewrite <- Hl. apply select_rows_restrict; [done | | done].
    by rewrite length_fmap, length_seq. }
  unfold restrict_cache. rewrite bool_decide_eq_true_2; first last.
  { intros id e He. specialize (Hc id). rewrite He in Hc.
    destruct Hc as ((H1 & _) & (H2 & _) & _). rewrite Hres. done. }
  cbn [py_assert mbind option_bind]. eexists. split; [done |].
  split; [done |]. split; [done |]. cbn [cache_kv].
  intros id. rewrite lookup_fmap. specialize (Hc id).
  destruct (cache_kv c !! id) as [e |]; cbn [fmap option_fmap option_map].
  - destruct Hc as (H1 & H2 & H3). cbn [fst snd].
    apply (rows_are_idx_eq _ (active prev) (λ s, (default ([], []) (R s !! id)).1))
      in H1.
    apply (rows_are_idx_eq _ (active prev) (λ s, (default ([], []) (R s !! id)).2))
      in H2.
    rewrite H1, H2, !Hact.
    split; [apply (rows_are_idx (active cur) (λ s, (default ([], []) (R s !! id)).1)) |].
    split; [apply (rows_are_idx (active cur) (λ s, (default ([], []) (R s !! id)).2)) |].
    intros j Hj. unfold idx_fun.
    destruct (lookup_lt_is_Some_2 (active cur) j Hj) as [s Hs]. rewrite Hs.
    cbn [default from_option].
    assert (Hin : s ∈ active prev).
    { apply elem_of_active, Hsub, elem_of_active. by eapply list_elem_of_lookup_2. }
    apply list_elem_of_lookup_1 in Hin as [j' Hj'].
    specialize (H3 j' (lookup_lt_Some _ _ _ Hj')). unfold idx_fun in H3.
    by rewrite Hj' in H3.
  - intros j Hj. unfold idx_fun.
    destruct (lookup_lt_is_Some_2 (active cur) j Hj) as [s Hs]. rewrite Hs.
    cbn [default from_option].
    assert (Hin : s ∈ active prev).
    { apply elem_of_active, Hsub, elem_of_active. by eapply list_elem_of_lookup_2. }
    apply list_elem_of_lookup_1 in Hin as [j' Hj'].
    specialize (Hc j' (lookup_lt_Some _ _ _ Hj')). unfold idx_fun in Hc.
    by rewrite Hj' in Hc.
Qed.

End restrict.

(** ** One sentence decoded alone *)

Section sentence.
Context {H KV : Type}.
Local Abbreviation RowCache := (gmap nat (list KV * list KV)).
Implicit Types (M : @TransformerModel H KV).

(** The pass of decoding step [t + 1] on the sentence whose tokens so far are
    the first [t + 1] of [col]: the last of them is new, the cache [r] holds
    the others. *)
Definition sent_fwd M (enc : list H) (srclen lang : Z) (col : list Z) (t : nat)
    (r : RowCache) : option (list H * RowCache) :=
  row_fwd M t (S t) (Z.of_nat (S t)) (take (S t) col)
    (map Z.of_nat (seq 0 (S t))) (replicate (S t) lang) enc srclen r.

(** The cache of the sentence after its first [t] tokens, decoded alone from
    an empty cache. *)
Fixpoint sent_cache M (enc : list H) (srclen lang : Z) (col : list Z) (t : nat)
    : RowCache :=
  match t with
  | O => ∅
  | S t' =>
      (default ([], ∅)
         (sent_fwd M enc srclen lang col t' (sent_cache M enc srclen lang col t'))).2
  end.

(** The hidden state from which the token after the first [t + 1] is
    predicted. *)
Definition sent_hidden M (enc : list H) (srclen lang : Z) (col : list Z) (t : nat)
    : option H :=
  last (default ([], ∅)
          (sent_fwd M enc srclen lang col t (sent_cache M enc srclen lang col t))).1.

Lemma sent_fwd_take M enc srclen lang col col' t r :
  take (S t) col = take (S t) col' →
  sent_fwd M enc srclen lang col t r = sent_fwd M enc srclen lang col' t r.
Proof. intros Heq. unfold sent_fwd. by rewrite Heq. Qed.

Lemma take_take_le {A} (l : list A) n k :
  (n ≤ k)%nat → take n (take k l) = take n l.
Proof. intros Hle. by rewrite take_take, Nat.min_l. Qed.

Lemma take_take_eq {A} (l l' : list A) n k :
  (n ≤ k)%nat → take k l = take k l' → take n l = take n l'.
Proof.
  intros Hle Heq.
  rewrite <- (take_take_le l n k), <- (take_take_le l' n k) by done.
  by rewrite Heq.
Qed.

Lemma sent_cache_take M enc srclen lang col col' t :
  take t col = take t col' →
  sent_cache M enc srclen lang col t = sent_cache M enc srclen lang col' t.
Proof.
  induction t as [|t IH]; intros Heq; [done |]. simpl.
  rewrite IH by (eapply take_take_eq; [| exact Heq]; lia).
  by rewrite (sent_fwd_take M enc srclen lang col col' t).
Qed.

Lemma sent_hidden_take M enc srclen lang col col' t :
  take (S t) col = take (S t) col' →
  sent_hidden M enc srclen lang col t = sent_hidden M enc srclen lang col' t.
Proof.
  intros Heq. unfold sent_hidden.
  rewrite (sent_cache_take M enc srclen lang col col' t)
    by (eapply take_take_eq; [| exact Heq]; lia).
  by rewrite (sent_fwd_take M enc srclen lang col col' t).
Qed.

(** Positions below [N_MAX_POSITIONS] are accepted. *)
Lemma pos_ok_seq n : (Z.of_nat n <= N_MAX_POSITIONS) → Forall pos_ok (map Z.of_nat (seq 0 n)).
Proof.
  intros Hn. apply Forall_map, Forall_forall. intros p Hp.
  apply elem_of_seq in Hp. unfold pos_ok, in_range. cbn beta.
  apply andb_true_iff. split; [apply Z.leb_le | apply Z.ltb_lt]; lia.
Qed.

Lemma sent_fwd_total M enc srclen lang col t r :
  Forall (tok_ok M) (take (S t) col) → Z.of_nat (S t) <= N_MAX_POSITIONS →
  lang_ok M lang →
  is_Some (sent_fwd M enc srclen lang col t r).
Proof.
  intros Htok Ht Hlang. apply row_fwd_total.
  - by apply Forall_drop.
  - by apply Forall_drop, pos_ok_seq.
  - by apply Forall_drop, Forall_replicate.
Qed.

(** The cache of a sentence after [t] tokens: nothing yet for [t = 0], and
    afterwards for every layer [t] steps of keys and values, and the source's
    length for the attention over the source. *)
Lemma sent_cache_entries M enc srclen lang col t L :
  is_decoder M = true → length enc = L →
  (t ≤ length col)%nat → Forall (tok_ok M) (take t col) →
  Z.of_nat t <= N_MAX_POSITIONS → lang_ok M lang →
  ∀ j, (j < n_layers M)%nat →
    entry_before M (sent_cache M enc srclen lang col t) t L j
    ∧ (0 < t → entry_after M (sent_cache M enc srclen lang col t) t L j)%nat.
Proof.
  intros Hd Hs. induction t as [|t IH]; intros Hlen Htok Ht Hlang j Hj.
  - split; [| lia]. unfold entry_before. simpl. by rewrite !lookup_empty.
  - assert (Hafter : entry_after M (sent_cache M enc srclen lang col (S t)) (S t) L j).
    { simpl.
      destruct (sent_fwd_total M enc srclen lang col t
                  (sent_cache M enc srclen lang col t)) as [res Hres]; try done.
      rewrite Hres. cbn [default from_option].
      eapply (row_fwd_shape M t (S t) _ _ _ _ _ _ _ res L Hd); try exact Hres;
        try done; try lia.
      - rewrite length_take. lia.
      - by rewrite length_map, length_seq.
      - by rewrite length_replicate.
      - intros i Hi. apply IH; try done; try lia.
        rewrite <- (take_take_le col t (S t)) by lia. by apply Forall_take. }
    split; [| done].
    destruct Hafter as [(e1 & He1 & ?) (e2 & He2 & ?)].
    unfold entry_before. by rewrite He1, He2.
Qed.

End sentence.

(** ** Top-k selection *)

Lemma elem_of_topk k row l e :
  topk k row = Some l → e ∈ l → row !! e.2 = Some e.1.
Proof.
  unfold topk. destruct (k <=? length row)%nat; [| done].
  intros [= <-] He. apply elem_of_take in He as (i & He & _).
  apply list_elem_of_lookup_2 in He.
  rewrite sorted_by_perm in He.
  apply elem_of_lookup_imap in He as (j & v & -> & Hj). done.
Qed.

Lemma length_topk k row l : topk k row = Some l → length l = k.
Proof.
  unfold topk. destruct (Nat.leb_spec k (length row)); [| done].
  intros [= <-]. rewrite length_take, sorted_by_length, length_imap. lia.
Qed.

Lemma topk_is_Some k row : (k ≤ length row)%nat → is_Some (topk k row).
Proof. intros Hk. unfold topk. by rewrite (proj2 (Nat.leb_le _ _) Hk). Qed.

(** The word greedy decoding picks from a row of scores. *)
Definition greedy_word (row : list Q) : Z :=
  default 0 (top ← topk 1 row; e ← top !! 0%nat; Some (Z.of_nat e.2)).

Section next_words.
Context {H KV : Type} `{NumericBackend}.
Implicit Types (M : @TransformerModel H KV).

Lemma greedy_word_ok M row :
  length row = n_words M → (0 < n_words M)%nat →
  (top ← topk 1 row; e ← top !! 0%nat; Some (Z.of_nat e.2)) = Some (greedy_word row)
  ∧ tok_ok M (greedy_word row).
Proof.
  intros Hl Hn. unfold greedy_word.
  destruct (topk_is_Some 1 row) as [top Htop]; [lia |]. rewrite Htop. simpl.
  pose proof (length_topk _ _ _ Htop) as Hlt.
  destruct top as [|e top]; [done |]. simpl. split; [done |].
  assert (He : row !! e.2 = Some e.1).
  { apply (elem_of_topk 1 row (e :: top)); [done | set_solver]. }
  apply lookup_lt_Some in He. unfold tok_ok, in_range.
  apply andb_true_iff. split; [apply Z.leb_le | apply Z.ltb_lt]; lia.
Qed.

(** The word chosen at decoding step [t] for row [j] of the scores: the
    greedy one, or with a temperature the one drawn from the softmax of the
    scores over the temperature. *)
Definition choose_word (temp : option Q) (t j : nat) (row : list Q) : Z :=
  match temp with
  | None => greedy_word row
  | Some q => Z.of_nat (multinomial t j (softmax (map (λ s, s / q)%Q row)))
  end.

(** The next words exist, one per row of scores, and are words of the
    vocabulary; without a temperature they are the greedy ones. *)
Lemma next_words_of_ok M (temp : option Q) (t : nat) (scores : list (list Q)) :
  (0 < n_words M)%nat →
  Forall (λ row, length row = n_words M) scores →
  (∀ q, temp = Some q → ¬ (q == 0)%Q) →
  ∃ words,
    next_words_of temp t scores = Some words
    ∧ length words = length scores
    ∧ Forall (tok_ok M) words
    ∧ (temp = None → words = greedy_word <$> scores)
    ∧ words = imap (choose_word temp t) scores.
Proof.
  intros Hn Hrows Htemp. unfold next_words_of. destruct temp as [q |].
  - rewrite (proj2 (Qeq_bool_false q 0)) by (by apply Htemp).
    cbn [negb py_assert mbind option_bind].
    set (f := λ ir : nat * list Q,
           Z.of_nat (multinomial t ir.1 (softmax (map (λ s, s / q)%Q ir.2)))).
    exists (f <$> imap pair scores).
    split; [| split; [| split; [| split; [done |]]]].
    + apply mapM_Some. apply Forall2_fmap_r, Forall_Forall2_diag.
      apply Forall_forall. intros [i row] Hin.
      apply elem_of_lookup_imap in Hin as (i' & row' & [= -> ->] & Hrow).
      cbn [fst snd].
      assert (Hl : length row' = n_words M)
        by (eapply (proj1 (Forall_lookup _ _) Hrows); eauto).
      rewrite bool_decide_eq_false_2 by (intros ->; simpl in Hl; lia).
      done.
    + by rewrite length_fmap, length_imap.
    + apply Forall_fmap, Forall_forall. intros [i row] Hin.
      apply elem_of_lookup_imap in Hin as (i' & row' & [= -> ->] & Hrow).
      assert (Hl : length row' = n_words M)
        by (eapply (proj1 (Forall_lookup _ _) Hrows); eauto).
      unfold f, tok_ok, in_range. cbn [fst snd].
      pose proof (multinomial_range t i' (softmax (map (λ s, s / q)%Q row'))) as Hr.
      rewrite softmax_length, length_map, Hl in Hr.
      assert (Hne : softmax (map (λ s, (s / q)%Q) row') ≠ []).
      { intros Heq. apply (f_equal length) in Heq.
        rewrite softmax_length, length_map, Hl in Heq. simpl in Heq. lia. }
      specialize (Hr Hne). unfold compose. cbn beta. cbn [fst snd].
      apply andb_true_iff. split; [apply Z.leb_le | apply Z.ltb_lt]; lia.
    + apply list_eq. intros i. rewrite list_lookup_fmap, !list_lookup_imap.
      by destruct (scores !! i).
  - exists (greedy_word <$> scores).
    split; [| split; [| split; [| split; [done |]]]].
    + apply mapM_Some. apply Forall2_fmap_r, Forall_Forall2_diag.
      eapply Forall_impl; [exact Hrows |]. intros row Hl. cbn beta.
      by apply (greedy_word_ok M).
    + by rewrite length_fmap.
    + apply Forall_fmap. eapply Forall_impl; [exact Hrows |]. intros row Hl.
      by apply (greedy_word_ok M).
    + apply list_eq. intros i. rewrite list_lookup_fmap, list_lookup_imap.
      by destruct (scores !! i).
Qed.

End next_words.

(** ** Batches given sentence by sentence *)

Lemma rows_are_seq {A} (t : list A) bs g : rows_are t bs g ↔ t = g <$> seq 0 bs.
Proof.
  split.
  - intros [Hl Hr]. apply list_eq. intros b. rewrite list_lookup_fmap.
    destruct (decide (b < bs)%nat) as [Hb | Hb].
    + by rewrite Hr, lookup_seq_lt.
    + rewrite lookup_ge_None_2 by lia.
      by rewrite (lookup_ge_None_2 (seq 0 bs)) by (rewrite length_seq; lia).
  - intros ->. split; [by rewrite length_fmap, length_seq |].
    intros b Hb. by rewrite list_lookup_fmap, lookup_seq_lt.
Qed.

Lemma bool_index_active {A} (t : list A) m bs g :
  rows_are t bs g → length m = bs → bool_index t m = Some (g <$> active m).
Proof.
  intros Ht Hm. unfold bool_index.
  rewrite (proj1 Ht), Hm, Nat.eqb_refl.
  apply rows_are_seq in Ht. rewrite Ht, <- Hm. by rewrite select_rows_active.
Qed.

Lemma active_from_lt i m s : s ∈ active_from i m → (i ≤ s)%nat.
Proof. intros Hs. by apply elem_of_active_from in Hs as [Hle _]. Qed.

Lemma NoDup_active_from i m : NoDup (active_from i m).
Proof.
  revert i. induction m as [|b m IH]; intros i; simpl; [constructor |].
  destruct b; [| apply IH]. constructor; [| apply IH].
  intros Hin. apply active_from_lt in Hin. lia.
Qed.

Lemma NoDup_active m : NoDup (active m).
Proof. apply NoDup_active_from. Qed.

(** A tensor over the active sentences gives one value per active sentence. *)
Lemma fmap_active_fun {A} (d : A) (act : list nat) (l : list A) :
  NoDup act → length l = length act → ∃ W, l = W <$> act.
Proof.
  intros Hnd. revert l. induction Hnd as [|a act Ha Hnd IH]; intros [|x l] Hl;
    try done.
  - by exists (λ _, d).
  - destruct (IH l) as [W HW]; [simpl in Hl; lia |].
    exists (λ s, if decide (s = a) then x else W s). rewrite fmap_cons.
    rewrite decide_True by done. f_equal. rewrite HW.
    apply list_fmap_ext. intros i s Hs.
    rewrite decide_False; [done |]. intros ->.
    apply Ha. by eapply list_elem_of_lookup_2.
Qed.

Lemma fmap_active_inj {A} (act : list nat) (W W' : nat → A) s :
  W <$> act = W' <$> act → s ∈ act → W s = W' s.
Proof.
  intros Heq Hs. apply list_elem_of_lookup_1 in Hs as [i Hi].
  apply (f_equal (λ l, l !! i)) in Heq.
  rewrite !list_lookup_fmap, Hi in Heq. by injection Heq.
Qed.

Lemma lookup_masked_update_active {A B} (f : B → A → B) (h : nat → A) m (l : list B)
    s x :
  length l = length m → l !! s = Some x →
  masked_update f m (h <$> active m) l !! s
  = Some (if default false (m !! s) then f x (h s) else x).
Proof.
  intros Hl Hs. rewrite masked_update_active by done.
  by rewrite list_lookup_imap, Hs.
Qed.

Lemma length_masked_update {A B} (f : B → A → B) m (vals : list A) (l : list B) :
  length (masked_update f m vals l) = length l.
Proof.
  revert vals l. induction m as [|b m IH]; intros vals [|x l]; simpl; try done;
    try (by destruct b).
  destruct b; [destruct vals |]; simpl; by rewrite ?IH.
Qed.

Lemma take_seq_map n k : (n ≤ k)%nat →
  take n (map Z.of_nat (seq 0 k)) = map Z.of_nat (seq 0 n).
Proof.
  intros Hle. change (map Z.of_nat) with (fmap (M := list) Z.of_nat).
  rewrite <- fmap_take, take_seq. by rewrite Nat.min_l.
Qed.

Lemma insert_after {A} (l1 l2 : list A) (x y : A) n :
  length l1 = n → <[n := y]> (l1 ++ x :: l2) = l1 ++ y :: l2.
Proof. intros <-. by rewrite insert_app_r_alt, Nat.sub_diag by lia. Qed.

(** The row of sentence [s] in a tensor restricted to the set bits of [m]:
    the number of set bits before [s]. *)
Definition act_index (m : list bool) (s : nat) : nat :=
  length (filter (λ b, b = true) (take s m)).

Lemma active_from_index i m j s :
  active_from i m !! j = Some s → act_index m (s - i) = j.
Proof.
  unfold act_index. revert i j. induction m as [|b m IH]; intros i j Hj; [done |].
  assert (Hle : (i ≤ s)%nat).
  { apply list_elem_of_lookup_2, elem_of_active_from in Hj. lia. }
  cbn [active_from] in Hj. destruct b.
  - destruct j as [|j]; cbn in Hj.
    + injection Hj as ->. by rewrite Nat.sub_diag.
    + assert (Hlt : (S i ≤ s)%nat) by (by eapply active_from_lt, list_elem_of_lookup_2).
      replace (s - i)%nat with (S (s - S i)) by lia. cbn [take].
      rewrite filter_cons_True by done. cbn [length]. f_equal. by apply IH.
  - assert (Hlt : (S i ≤ s)%nat) by (by eapply active_from_lt, list_elem_of_lookup_2).
    replace (s - i)%nat with (S (s - S i)) by lia. cbn [take].
    rewrite filter_cons_False by done. by apply IH.
Qed.

Lemma active_index m j s : active m !! j = Some s → act_index m s = j.
Proof.
  intros Hj. apply active_from_index in Hj. by rewrite Nat.sub_0_r in Hj.
Qed.

(** Counting over the first [s] rows of two tensors given row by row. *)
Lemma count_rows_ext {A B} (P : A → Prop) (Q : B → Prop)
    `{∀ x, Decision (P x)} `{∀ x, Decision (Q x)}
    (t : list A) (u : list B) bs g h s :
  rows_are t bs g → rows_are u bs h → (s ≤ bs)%nat →
  (∀ s', (s' < s)%nat → P (g s') ↔ Q (h s')) →
  length (filter P (take s t)) = length (filter Q (take s u)).
Proof.
  intros Ht Hu Hs Hext. apply rows_are_seq in Ht, Hu. subst t u.
  rewrite <- !fmap_take, !take_seq, Nat.min_l by lia.
  assert (Hall : ∀ s', s' ∈ seq 0 s → P (g s') ↔ Q (h s')).
  { intros s' Hin. apply elem_of_seq in Hin. apply Hext. lia. }
  clear Hext. induction (seq 0 s) as [|x l IH]; [done |].
  rewrite !fmap_cons. specialize (IH (λ s' Hin, Hall s' (list_elem_of_further _ _ _ Hin))).
  destruct (decide (P (g x))) as [Hp | Hp].
  - rewrite !filter_cons_True; [| by apply (Hall x); [left |] | done].
    simpl. by rewrite IH.
  - rewrite !filter_cons_False; [done | | done].
    intros Hq. apply Hp. by apply (Hall x); [left |].
Qed.

(** ** Greedy and sampling decoding: the loop of generate *)

Section greedy.
Context {H KV : Type} `{NumericBackend}.
Local Abbreviation RowCache := (gmap nat (list KV * list KV)).
Variables (M : @TransformerModel H KV) (pred : H → list Q).
Variables (src_enc : list (list H)) (src_len : list Z) (lang : Z).
Variables (max_lengths : list Z) (temp : option Q) (bs gml L : nat).

(** The inputs and the loop variables, sentence by sentence. *)
Definition enc_of (s : nat) : list H := default [] (src_enc !! s).
Definition sl_of (s : nat) : Z := default 0 (src_len !! s).
Definition ml_of (s : nat) : Z := default 0 (max_lengths !! s).
Definition col_of (st : @GenState KV) (s : nat) : list Z :=
  default [] (generated st !! s).
Definition len_of (st : @GenState KV) (s : nat) : Z := default 0 (gen_len st !! s).
Definition unf_of (st : @GenState KV) (s : nat) : Z :=
  default 0 (unfinished_sents st !! s).

(** The cache of sentence [s] decoded alone, after the first [t] tokens of
    its column. *)
Definition sent_ref (st : @GenState KV) (t s : nat) : RowCache :=
  sent_cache M (enc_of s) (sl_of s) lang (col_of st s) t.

(** The cache of the state holds, for every sentence of the mask [m] and in
    the order of the batch, the cache of that sentence decoded alone. *)
Definition cache_aligned (c : @Cache KV) (m : list bool) (st : @GenState KV) : Prop :=
  cache_slen c = Z.of_nat (cur_len st - 1)
  ∧ cache_rows (cache_kv c) (length (active m))
      (idx_fun (active m) (sent_ref st (cur_len st - 1))).

(** A sentence at the head of iteration [t]: still running, with [t] tokens
    and no end marker after the first; or ended at position [e], with
    padding behind the end marker. *)
Definition sent_inv (t : nat) (ml : Z) (col : list Z) (gl u : Z) : Prop :=
  (u = 1 ∧ gl = Z.of_nat t ∧ Z.of_nat t < ml
   ∧ ∃ ws, col = eos_index M :: ws ++ replicate (gml - t) (pad_index M)
           ∧ length ws = (t - 1)%nat
           ∧ Forall (λ w, w ≠ eos_index M ∧ tok_ok M w) ws)
  ∨ (u = 0
     ∧ ∃ (e : nat) ws,
         (1 ≤ e < t)%nat ∧ gl = Z.of_nat e + 1 ∧ Z.of_nat e + 1 <= ml
         ∧ col = eos_index M :: ws ++ eos_index M
                   :: replicate (gml - e - 1) (pad_index M)
         ∧ length ws = (e - 1)%nat
         ∧ Forall (λ w, w ≠ eos_index M ∧ tok_ok M w) ws).

(** The invariant of the loop, at the head of an iteration. *)
Record GenInv (st : @GenState KV) : Prop := mkGenInv {
  gi_cur : (1 ≤ cur_len st ≤ gml)%nat;
  gi_gen : length (generated st) = bs;
  gi_len : length (gen_len st) = bs;
  gi_unf : length (unfinished_sents st) = bs;
  gi_prev : length (previous_unfinished_mask st) = bs;
  gi_sent : ∀ s, (s < bs)%nat →
    sent_inv (cur_len st) (ml_of s) (col_of st s) (len_of st s) (unf_of st s);
  gi_sub : ∀ s, unfinished_mask_of st !! s = Some true →
    previous_unfinished_mask st !! s = Some true;
  gi_cache : ∃ c, gen_cache st = Some c
                  ∧ cache_aligned c (previous_unfinished_mask st) st;
}.

(** The head of an iteration: the cache restricted to the sentences still
    unfinished, whatever the caches [R] of the sentences are. *)
Lemma step_cache_rows (st : @GenState KV) c (R : nat → RowCache) :
  length (unfinished_sents st) = length (previous_unfinished_mask st) →
  (∀ s, unfinished_mask_of st !! s = Some true →
        previous_unfinished_mask st !! s = Some true) →
  gen_cache st = Some c →
  cache_rows (cache_kv c) (length (active (previous_unfinished_mask st)))
    (idx_fun (active (previous_unfinished_mask st)) R) →
  ∃ c',
    step_cache st = Some (Some c')
    ∧ cache_slen c' = cache_slen c
    ∧ cache_rows (cache_kv c') (length (active (unfinished_mask_of st)))
        (idx_fun (active (unfinished_mask_of st)) R)
    ∧ (unfinished_mask_of st = previous_unfinished_mask st → c' = c)
    ∧ (unfinished_mask_of st ≠ previous_unfinished_mask st →
       cache_kv c'
       = (λ e, (select_rows
                  (select_rows (previous_unfinished_mask st) (unfinished_mask_of st))
                  e.1,
                select_rows
                  (select_rows (previous_unfinished_mask st) (unfinished_mask_of st))
                  e.2)) <$> cache_kv c).
Proof.
  intros Hl Hsub Hc Hrows. unfold step_cache.
  assert (Hlm : length (unfinished_mask_of st)
                = length (previous_unfinished_mask st)).
  { unfold unfinished_mask_of. by rewrite length_map. }
  rewrite Hlm, Nat.eqb_refl. cbn [py_assert mbind option_bind].
  unfold bool_index. rewrite Hlm, Nat.eqb_refl. cbn [mbind option_bind].
  rewrite Hc.
  destruct (existsb id (zip_with xorb (unfinished_mask_of st)
                          (previous_unfinished_mask st))) eqn:E.
  - destruct (restrict_cache_rows c (previous_unfinished_mask st)
                (unfinished_mask_of st) R) as (c' & Hr & Hs & Hkv & Hrows');
      [done | done | done |].
    exists c'. rewrite Hr. split; [done |]. split; [done |]. split; [done |].
    split; [| done]. intros Heq. rewrite Heq in E.
    exfalso. clear -E. induction (previous_unfinished_mask st) as [|b m IH];
      [done |]. simpl in E. rewrite xorb_nilpotent in E. simpl in E. auto.
  - apply xor_masks_equal in E; [| done].
    exists c. split; [done |]. split; [done |]. split; [by rewrite E |].
    split; [done |]. intros Hne. by destruct Hne.
Qed.

(** *** One iteration *)

Hypothesis Hdec : is_decoder M = true.
Hypothesis Hpred : pred_layer M = Some pred.
Hypothesis Hpred_len : ∀ h, length (pred h) = n_words M.
Hypothesis Hwords : (0 < n_words M)%nat.
Hypothesis Heos : tok_ok M (eos_index M).
Hypothesis Hlang : lang_ok M lang.
Hypothesis Hpos : Z.of_nat gml <= N_MAX_POSITIONS.
Hypothesis Henc : rect bs L src_enc.
Hypothesis Hsl : length src_len = bs.
Hypothesis Hml : length max_lengths = bs.
Hypothesis Htemp : ∀ q, temp = Some q → ¬ (q == 0)%Q.

Local Abbreviation positions := (replicate bs (map Z.of_nat (seq 0 gml))).
Local Abbreviation langs := (replicate bs (replicate gml lang)).

(** The pass of sentence [s] at the head of iteration [t + 1]. *)
Definition sent_out (st : @GenState KV) (t s : nat) : list H * RowCache :=
  default ([], ∅)
    (sent_fwd M (enc_of s) (sl_of s) lang (col_of st s) t (sent_ref st t s)).

Lemma mask_lookup (st : @GenState KV) s :
  unfinished_mask_of st !! s = Some true
  ↔ ∃ u, unfinished_sents st !! s = Some u ∧ u ≠ 0.
Proof.
  unfold unfinished_mask_of.
  change (map (λ u, negb (u =? 0))) with (fmap (M := list) (λ u, negb (u =? 0))).
  rewrite list_lookup_fmap. split.
  - destruct (unfinished_sents st !! s) as [u |]; [| done]. simpl.
    intros [= Hu]. exists u. split; [done |]. intros ->. done.
  - intros (u & -> & Hu). simpl. f_equal.
    apply negb_true_iff, Z.eqb_neq. done.
Qed.

Lemma active_running (st : @GenState KV) s :
  GenInv st → s ∈ active (unfinished_mask_of st) →
  (s < bs)%nat ∧ unf_of st s = 1 ∧ len_of st s = Z.of_nat (cur_len st)
  ∧ Z.of_nat (cur_len st) < ml_of s
  ∧ ∃ ws, col_of st s
          = eos_index M :: ws ++ replicate (gml - cur_len st) (pad_index M)
          ∧ length ws = (cur_len st - 1)%nat
          ∧ Forall (λ w, w ≠ eos_index M ∧ tok_ok M w) ws.
Proof.
  intros Hinv Hs. apply elem_of_active in Hs.
  pose proof Hs as Hs'. apply mask_lookup in Hs' as (u & Hu & Hne).
  assert (Hb : (s < bs)%nat).
  { rewrite <- (gi_unf st Hinv). by eapply lookup_lt_Some. }
  split; [done |].
  destruct (gi_sent st Hinv s Hb) as [(Hu1 & Hgl & Hml' & Hcol) | (Hu0 & _)].
  - done.
  - unfold unf_of in Hu0. rewrite Hu in Hu0. simpl in Hu0. done.
Qed.

(** An unfinished sentence at the head of iteration [t + 1]: its pass alone
    returns, with one hidden state. *)
Lemma active_pass (st : @GenState KV) (t s : nat) :
  GenInv st → cur_len st = S t → (S t < gml)%nat →
  s ∈ active (unfinished_mask_of st) →
  length (take (S t) (col_of st s)) = S t
  ∧ length (enc_of s) = L
  ∧ (∀ j, (j < n_layers M)%nat → entry_before M (sent_ref st t s) t L j)
  ∧ sent_fwd M (enc_of s) (sl_of s) lang (col_of st s) t (sent_ref st t s)
    = Some (sent_out st t s)
  ∧ length (sent_out st t s).1 = 1%nat
  ∧ ∀ j, (j < n_layers M)%nat → entry_after M (sent_out st t s).2 (S t) L j.
Proof.
  intros Hinv Ht Hlt Hs.
  destruct (active_running st s Hinv Hs) as (Hsb & _ & _ & _ & ws & Hcol & Hws & Hall).
  rewrite Ht in Hcol, Hws.
  assert (Htake : take (S t) (col_of st s) = eos_index M :: ws).
  { rewrite Hcol. replace (S t) with (length (eos_index M :: ws)) by (simpl; lia).
    by rewrite app_comm_cons, take_app_length. }
  assert (Htok : Forall (tok_ok M) (take (S t) (col_of st s))).
  { rewrite Htake. constructor; [done |].
    eapply Forall_impl; [exact Hall |]. by intros w [_ ?]. }
  assert (Hlen : length (take (S t) (col_of st s)) = S t).
  { rewrite Htake. simpl. lia. }
  assert (HL : length (enc_of s) = L).
  { destruct (rect_rows _ _ _ Henc) as [_ Hn]. by apply Hn. }
  assert (Hent : ∀ j, (j < n_layers M)%nat → entry_before M (sent_ref st t s) t L j).
  { intros j Hj. unfold sent_ref.
    eapply (sent_cache_entries M (enc_of s) (sl_of s) lang (col_of st s) t L);
      try done.
    - rewrite length_take in Hlen. lia.
    - rewrite <- (take_take_le (col_of st s) t (S t)) by lia. by apply Forall_take.
    - lia. }
  destruct (sent_fwd_total M (enc_of s) (sl_of s) lang (col_of st s) t
              (sent_ref st t s)) as [res Hres]; [done | lia | done |].
  assert (Hout : sent_out st t s = res) by (unfold sent_out; by rewrite Hres).
  rewrite Hout. split; [done |]. split; [done |]. split; [done |]. split; [done |].
  destruct (row_fwd_shape M t (S t) (Z.of_nat (S t)) (take (S t) (col_of st s))
              (map Z.of_nat (seq 0 (S t))) (replicate (S t) lang) (enc_of s)
              (sl_of s) (sent_ref st t s) res L Hdec (Nat.le_succ_diag_r t) Hlen)
    as [Hn Hafter]; try done.
  - by rewrite length_map, length_seq.
  - by rewrite length_replicate.
  - split; [| done]. rewrite Hn. lia.
Qed.

(** The pass of an iteration: it returns, for every unfinished sentence and
    in the order of the batch, the hidden state and the cache of that
    sentence decoded alone. *)
Lemma generate_fwd (st : @GenState KV) (t : nat) :
  GenInv st → cur_len st = S t → (S t < gml)%nat →
  active (unfinished_mask_of st) ≠ [] →
  let act := active (unfinished_mask_of st) in
  ∃ c0 out c',
    step_cache st = Some (Some c0)
    ∧ cache_aligned c0 (unfinished_mask_of st) st
    ∧ fwd M (Some c0) (map (take (S t)) (col_of st <$> act)) (len_of st <$> act)
        true (Some (enc_of <$> act)) (Some (sl_of <$> act))
        (Some (map (take (S t)) ((λ _, map Z.of_nat (seq 0 gml)) <$> act)))
        (Some (map (take (S t)) ((λ _, replicate gml lang) <$> act))) true
      = Some (out, Some c')
    ∧ out = (λ s, (sent_out st t s).1) <$> act
    ∧ cache_slen c' = Z.of_nat (S t)
    ∧ cache_rows (cache_kv c') (length act) (idx_fun act (sent_ref st (S t))).
Proof.
  intros Hinv Ht Hlt Hne act.
  destruct (gi_cache st Hinv) as (c & Hc & Hslen & Hrows).
  destruct (step_cache_rows st c (sent_ref st (cur_len st - 1)))
    as (c0 & Hstep & Hslen0 & Hrows0 & _); try done.
  { by rewrite (gi_unf st Hinv), (gi_prev st Hinv). }
  { apply (gi_sub st Hinv). }
  rewrite Ht in Hslen, Hrows0. replace (S t - 1)%nat with t in * by lia.
  assert (Hact : ∀ b, (b < length act)%nat →
            ∃ s, act !! b = Some s ∧ s ∈ act).
  { intros b Hb. destruct (lookup_lt_is_Some_2 act b Hb) as [s Hs].
    exists s. split; [done |]. by eapply list_elem_of_lookup_2. }
  destruct (fwd_rows M c0 (map (take (S t)) (col_of st <$> act)) (len_of st <$> act)
              (enc_of <$> act) (sl_of <$> act)
              (map (take (S t)) ((λ _, map Z.of_nat (seq 0 gml)) <$> act))
              (map (take (S t)) ((λ _, replicate gml lang) <$> act))
              (length act) (S t) t L
              (idx_fun act (λ s, take (S t) (col_of st s)))
              (idx_fun act (len_of st))
              (idx_fun act enc_of) (idx_fun act sl_of)
              (idx_fun act (λ _, map Z.of_nat (seq 0 (S t))))
              (idx_fun act (λ _, replicate (S t) lang))
              (idx_fun act (sent_ref st t))
              (idx_fun act (sent_out st t)))
    as (out & kvs' & Hrun & Hout & Hkvs); try done.
  - apply Nat.neq_0_lt_0. intros Hz. by apply Hne, nil_length_inv.
  - lia.
  - apply rows_are_idx_eq. symmetry. apply (list_fmap_compose (col_of st) (take (S t))).
  - intros b Hb. destruct (Hact b Hb) as (s & Hs & Hin). unfold idx_fun.
    rewrite Hs. by apply active_pass.
  - apply rows_are_idx.
  - intros b Hb. destruct (Hact b Hb) as (s & Hs & Hin). unfold idx_fun.
    rewrite Hs. cbn [default from_option id].
    destruct (active_running st s Hinv Hin) as (_ & _ & -> & _). lia.
  - apply rows_are_idx.
  - intros b Hb. destruct (Hact b Hb) as (s & Hs & Hin). unfold idx_fun.
    rewrite Hs. by apply (active_pass st t).
  - apply rows_are_idx.
  - apply rows_are_idx_eq.
    etrans; [symmetry; apply (list_fmap_compose (λ _ : nat, map Z.of_nat (seq 0 gml))
                                (take (S t))) |].
    apply list_fmap_ext. intros i s _. unfold compose. apply take_seq_map. lia.
  - intros b Hb. unfold idx_fun. by rewrite length_map, length_seq.
  - apply rows_are_idx_eq.
    etrans; [symmetry; apply (list_fmap_compose (λ _ : nat, replicate gml lang)
                                (take (S t))) |].
    apply list_fmap_ext. intros i s _. unfold compose.
    rewrite take_replicate. f_equal. lia.
  - intros b Hb. unfold idx_fun. by rewrite length_replicate.
  - congruence.
  - intros b j Hb Hj. destruct (Hact b Hb) as (s & Hs & Hin). unfold idx_fun.
    rewrite Hs. by apply (active_pass st t).
  - intros b Hb. destruct (Hact b Hb) as (s & Hs & Hin). unfold idx_fun.
    rewrite Hs. cbn [default from_option id].
    destruct (active_running st s Hinv Hin) as (_ & _ & -> & _). rewrite Ht.
    by apply active_pass.
  - exists c0, out, {| cache_slen := Z.of_nat (S t); cache_kv := kvs' |}.
    split; [done |]. split.
    { split; rewrite Ht; replace (S t - 1)%nat with t by lia; [congruence | done]. }
    split; [exact Hrun |]. split.
    + apply (rows_are_idx_eq out act (λ s, (sent_out st t s).1)). exact Hout.
    + split; [done |]. exact Hkvs.
Qed.

Lemma rows_are_masked_update {A B} (f : B → A → B) (h : nat → A) m (l : list B) g :
  rows_are l bs g → length m = bs →
  rows_are (masked_update f m (h <$> active m) l) bs
    (λ s, if default false (m !! s) then f (g s) (h s) else g s).
Proof.
  intros [Hl Hg] Hm. split; [by rewrite length_masked_update |].
  intros s Hs. apply lookup_masked_update_active; [lia | by apply Hg].
Qed.

Lemma mapM_default {A B C} (f : A → option B) (g : B → C) (d : C) l k :
  mapM f l = Some k → g <$> k = (λ x, default d (g <$> f x)) <$> l.
Proof.
  intros Hm. apply mapM_Some in Hm.
  induction Hm as [|x y l k Hxy _ IH]; [done |].
  rewrite !fmap_cons, IH, Hxy. done.
Qed.

(** The sentence's column and flag after iteration [t] with next word [w]. *)
Definition next_col (t : nat) (ml w : Z) (col : list Z) (u : Z) : list Z :=
  let col1 := if negb (u =? 0) then <[t := w]> col else col in
  if (ml =? Z.of_nat t + 1) && (u =? 1) then <[t := eos_index M]> col1 else col1.

Definition next_unf (t : nat) (ml w u : Z) : Z :=
  if negb (u =? 0)
  then u * ((if w =? eos_index M then 0 else 1)
            * (if ml =? Z.of_nat t + 1 then 0 else 1))
  else u.

(** The scores from which the next word of sentence [s] is chosen. *)
Definition sent_scores (st : @GenState KV) (t s : nat) : list Q :=
  default [] (pred <$> last (sent_out st t s).1).

Lemma rows_of_state (st : @GenState KV) :
  GenInv st →
  rows_are (generated st) bs (col_of st)
  ∧ rows_are (gen_len st) bs (len_of st)
  ∧ rows_are (unfinished_sents st) bs (unf_of st)
  ∧ rows_are (unfinished_mask_of st) bs (λ s, negb (unf_of st s =? 0))
  ∧ rows_are max_lengths bs ml_of
  ∧ rows_are src_enc bs enc_of
  ∧ rows_are src_len bs sl_of.
Proof.
  intros Hinv.
  assert (Hu : rows_are (unfinished_sents st) bs (unf_of st)).
  { rewrite <- (gi_unf st Hinv). apply rows_are_default. }
  split; [rewrite <- (gi_gen st Hinv); apply rows_are_default |].
  split; [rewrite <- (gi_len st Hinv); apply rows_are_default |].
  split; [done |].
  split; [apply (rows_are_map (λ u, negb (u =? 0))); exact Hu |].
  split; [rewrite <- Hml; apply rows_are_default |].
  split; [rewrite <- (proj1 Henc); apply rows_are_default |].
  rewrite <- Hsl; apply rows_are_default.
Qed.

(** One iteration, sentence by sentence: the pass returns, a word [W s] of
    the vocabulary is chosen for every unfinished sentence [s] (without a
    temperature, the greedy word of its scores), and the loop variables are
    updated row by row. *)
Lemma generate_step_spec (st : @GenState KV) (t : nat) :
  GenInv st → cur_len st = S t → (S t < gml)%nat →
  active (unfinished_mask_of st) ≠ [] →
  let act := active (unfinished_mask_of st) in
  ∃ st' W c',
    generate_step M src_enc src_len positions langs max_lengths temp st = Some st'
    ∧ cur_len st' = S (S t)
    ∧ previous_unfinished_mask st' = unfinished_mask_of st
    ∧ gen_cache st' = Some c'
    ∧ cache_slen c' = Z.of_nat (S t)
    ∧ cache_rows (cache_kv c') (length act) (idx_fun act (sent_ref st (S t)))
    ∧ rows_are (generated st') bs
        (λ s, next_col (S t) (ml_of s) (W s) (col_of st s) (unf_of st s))
    ∧ rows_are (gen_len st') bs (λ s, len_of st s + unf_of st s)
    ∧ rows_are (unfinished_sents st') bs
        (λ s, next_unf (S t) (ml_of s) (W s) (unf_of st s))
    ∧ (∀ s, s ∈ act → tok_ok M (W s))
    ∧ (temp = None → ∀ s, s ∈ act → W s = greedy_word (sent_scores st t s))
    ∧ ∀ s, s ∈ act →
        W s = choose_word temp (S t) (act_index (unfinished_mask_of st) s)
                (sent_scores st t s).
Proof.
  intros Hinv Ht Hlt Hne act.
  destruct (generate_fwd st t Hinv Ht Hlt Hne)
    as (c0 & out & c' & Hstep & _ & Hrun & Hout & Hslen & Hrows).
  destruct (rows_of_state st Hinv) as (Hg & Hgl & Hu & Hm & Hmlr & Hencr & Hslr).
  assert (Hlm : length (unfinished_mask_of st) = bs) by apply Hm.
  fold act in Hrun, Hout, Hrows.
  assert (Hrow1 : Forall (λ row : list H, length row = 1%nat) out).
  { rewrite Hout. apply Forall_fmap, Forall_forall. intros s Hs.
    by apply (active_pass st t s). }
  assert (Hdim : dim1 out = 1%nat).
  { destruct out as [|row out']; [| by inversion Hrow1].
    symmetry in Hout. apply fmap_nil_inv in Hout. done. }
  destruct (mapM_is_Some_2 (λ row : list H, last row) out) as [last_h Hlast].
  { eapply Forall_impl; [exact Hrow1 |]. intros [|h [|h' row]] Hl; try done.
    by eexists. }
  assert (Hscores : map pred last_h = sent_scores st t <$> act).
  { etrans; [apply (mapM_default _ pred [] _ _ Hlast) |].
    rewrite Hout. symmetry.
    apply (list_fmap_compose (λ s, (sent_out st t s).1)
             (λ x : list H, default [] (pred <$> last x))). }
  destruct (next_words_of_ok M temp (S t) (map pred last_h) Hwords)
    as (words & Hwords' & Hwl & Hwok & Hgreedy & Hchoose); [| done |].
  { apply Forall_map, Forall_forall. intros h _. apply Hpred_len. }
  destruct (fmap_active_fun 0 act words (NoDup_active _)) as [W HW].
  { rewrite Hwl, Hscores. by rewrite length_fmap. }
  eexists _, W, c'. split.
  { unfold generate_step. rewrite Hstep. cbn [mbind option_bind].
    rewrite (bool_index_active (generated st) _ bs (col_of st)) by done.
    cbn [mbind option_bind].
    rewrite (bool_index_active (gen_len st) _ bs (len_of st)) by done.
    cbn [mbind option_bind].
    rewrite (bool_index_active positions _ bs (λ _, map Z.of_nat (seq 0 gml)))
      by (done || apply rows_are_replicate).
    cbn [mbind option_bind].
    rewrite (bool_index_active langs _ bs (λ _, replicate gml lang))
      by (done || apply rows_are_replicate).
    cbn [mbind option_bind].
    rewrite (bool_index_active src_enc _ bs enc_of) by done.
    cbn [mbind option_bind].
    rewrite (bool_index_active src_len _ bs sl_of) by done.
    cbn [mbind option_bind].
    rewrite Ht. fold act. rewrite Hrun. cbn [mbind option_bind fst snd].
    rewrite Hdim. rewrite Hout at 1. rewrite !length_fmap, !Nat.eqb_refl.
    cbn [py_assert andb mbind option_bind].
    rewrite Hlast. cbn [mbind option_bind]. rewrite Hpred. cbn [mbind option_bind].
    rewrite Hwords'. cbn [mbind option_bind].
    rewrite (proj1 Hgl), (proj1 Hu), Nat.eqb_refl. cbn [py_assert mbind option_bind].
    rewrite Hml, Nat.eqb_refl, length_masked_update, (proj1 Hg), Nat.eqb_refl.
    cbn [py_assert andb mbind option_bind].
    rewrite (bool_index_active max_lengths _ bs ml_of) by done.
    cbn [mbind option_bind]. reflexivity. }
  cbn [cur_len previous_unfinished_mask gen_cache generated gen_len unfinished_sents].
  split; [done |]. split; [done |]. split; [done |]. split; [done |].
  split; [done |].
  assert (Hmask : ∀ s, (s < bs)%nat →
            default false (unfinished_mask_of st !! s) = negb (unf_of st s =? 0)).
  { intros s Hs. by rewrite (proj2 Hm s Hs). }
  split.
  { rewrite HW.
    eapply rows_are_ext;
      [| apply rows_are_zip_with;
         [apply (rows_are_masked_update (λ col w, <[S t := w]> col) W _ _ _ Hg Hlm)
         | apply (rows_are_zip_with
                    (λ ml u, (ml =? Z.of_nat (S t) + 1) && (u =? 1)) _ _ _ _ _ Hmlr Hu)]].
    intros s Hs. cbn beta. rewrite (Hmask s Hs). unfold next_col.
    by destruct (_ && _). }
  split; [by apply rows_are_zip_with |].
  split.
  { rewrite HW. rewrite (zip_with_fmap_l _ W), (zip_with_fmap_r _ ml_of).
    rewrite zip_with_diag.
    eapply rows_are_ext;
      [| apply (rows_are_masked_update Z.mul
                  (λ s, (if W s =? eos_index M then 0 else 1)
                        * (if ml_of s =? Z.of_nat (S t) + 1 then 0 else 1))
                  _ _ _ Hu Hlm)].
    intros s Hs. cbn beta. rewrite (Hmask s Hs). done. }
  split.
  { intros s Hs. apply list_elem_of_lookup_1 in Hs as [i Hi].
    eapply (proj1 (Forall_lookup _ _) Hwok i). rewrite HW, list_lookup_fmap, Hi. done. }
  split.
  { intros HNone s Hs. specialize (Hgreedy HNone).
    rewrite Hscores, HW in Hgreedy.
    rewrite <- list_fmap_compose in Hgreedy.
    by apply (fmap_active_inj act W (greedy_word ∘ sent_scores st t) s). }
  intros s Hs. apply list_elem_of_lookup_1 in Hs as [j Hj].
  rewrite Hscores, HW in Hchoose.
  apply (f_equal (λ l, l !! j)) in Hchoose.
  rewrite list_lookup_fmap, list_lookup_imap, list_lookup_fmap, Hj in Hchoose.
  cbn in Hchoose. injection Hchoose as ->.
  by rewrite (active_index _ _ _ Hj).
Qed.

Lemma next_col_take (t : nat) (ml w : Z) (col : list Z) (u : Z) :
  take t (next_col t ml w col u) = take t col.
Proof.
  unfold next_col. destruct (negb (u =? 0)), ((ml =? Z.of_nat t + 1) && (u =? 1));
    by rewrite ?take_insert_ge by lia.
Qed.

Lemma next_unf_running (t : nat) (ml w u : Z) : next_unf t ml w u ≠ 0 → u ≠ 0.
Proof. unfold next_unf. destruct (Z.eqb_spec u 0); simpl; lia. Qed.

(** One sentence across an iteration. *)
Lemma sent_inv_next (t : nat) (ml w : Z) (col : list Z) (gl u : Z) :
  (S t < gml)%nat → (u = 1 → tok_ok M w) →
  sent_inv (S t) ml col gl u →
  sent_inv (S (S t)) ml (next_col (S t) ml w col u) (gl + u) (next_unf (S t) ml w u).
Proof.
  intros Hlt Hw [(-> & -> & Hml' & ws & -> & Hws & Hall)
                | (-> & e & ws & He & -> & Hle & -> & Hws & Hall)].
  - specialize (Hw eq_refl). unfold next_col, next_unf.
    cbn [Z.eqb negb andb].
    replace (gml - S t)%nat with (S (gml - S t - 1)) by lia.
    cbn [replicate]. rewrite !app_comm_cons.
    rewrite (insert_after _ _ _ w (S t)) by (simpl; lia).
    rewrite andb_true_r.
    destruct (Z.eqb_spec ml (Z.of_nat (S t) + 1)) as [Hforce | Hfree].
    + right. split; [destruct (w =? eos_index M); lia |].
      exists (S t), ws. rewrite (insert_after _ _ _ _ (S t)) by (simpl; lia).
      split; [lia |]. split; [lia |]. split; [lia |]. split; [done |].
      split; [lia | done].
    + destruct (Z.eqb_spec w (eos_index M)) as [-> | Hne].
      * right. split; [done |]. exists (S t), ws.
        split; [lia |]. split; [lia |]. split; [lia |]. split; [done |].
      split; [lia | done].
      * left. split; [done |]. split; [lia |]. split; [lia |].
        exists (ws ++ [w]). rewrite <- !app_assoc. cbn [app].
        replace (gml - S (S t))%nat with (gml - S t - 1)%nat by lia.
        split; [done |]. split; [rewrite length_app; simpl; lia |].
        apply Forall_app. split; [done |]. by repeat constructor.
  - right. unfold next_col, next_unf. cbn [Z.eqb negb andb].
    rewrite andb_false_r. split; [done |]. exists e, ws.
    split; [lia |]. split; [lia |]. done.
Qed.

Lemma cache_rows_ext (kvs : gmap nat (list (list KV) * list (list KV))) n
    (rc rc' : nat → RowCache) :
  (∀ b, (b < n)%nat → rc b = rc' b) → cache_rows kvs n rc → cache_rows kvs n rc'.
Proof.
  intros Hext Hc id. specialize (Hc id). destruct (kvs !! id) as [e |].
  - destruct Hc as (H1 & H2 & H3). split; [| split].
    + eapply rows_are_ext; [| exact H1]. intros b Hb. cbn beta. by rewrite Hext.
    + eapply rows_are_ext; [| exact H2]. intros b Hb. cbn beta. by rewrite Hext.
    + intros b Hb. rewrite <- Hext by done. by apply H3.
  - intros b Hb. rewrite <- Hext by done. by apply Hc.
Qed.

(** The invariant is kept by an iteration. *)
Lemma generate_step_inv (st : @GenState KV) (t : nat) :
  GenInv st → cur_len st = S t → (S t < gml)%nat →
  active (unfinished_mask_of st) ≠ [] →
  ∃ st',
    generate_step M src_enc src_len positions langs max_lengths temp st = Some st'
    ∧ cur_len st' = S (S t)
    ∧ GenInv st'.
Proof.
  intros Hinv Ht Hlt Hne.
  destruct (generate_step_spec st t Hinv Ht Hlt Hne)
    as (st' & W & c' & Hstep & Hcur & Hprev & Hc' & Hslen & Hrows & Hg & Hgl & Hu
        & Hwok & _).
  destruct (rows_of_state st Hinv) as (_ & _ & Hu0 & Hm & _).
  exists st'. split; [done |]. split; [done |].
  assert (Hcol : ∀ s, (s < bs)%nat →
            col_of st' s = next_col (S t) (ml_of s) (W s) (col_of st s) (unf_of st s)).
  { intros s Hs. unfold col_of at 1. by rewrite (proj2 Hg s Hs). }
  assert (Hunf : ∀ s, (s < bs)%nat →
            unf_of st' s = next_unf (S t) (ml_of s) (W s) (unf_of st s)).
  { intros s Hs. unfold unf_of at 1. by rewrite (proj2 Hu s Hs). }
  assert (Hlen : ∀ s, (s < bs)%nat → len_of st' s = len_of st s + unf_of st s).
  { intros s Hs. unfold len_of at 1. by rewrite (proj2 Hgl s Hs). }
  assert (Hrun : ∀ s, (s < bs)%nat → unf_of st s ≠ 0 →
            s ∈ active (unfinished_mask_of st)).
  { intros s Hs Hne0. apply elem_of_active. rewrite (proj2 Hm s Hs).
    f_equal. by apply negb_true_iff, Z.eqb_neq. }
  constructor.
  - rewrite Hcur. lia.
  - apply Hg.
  - apply Hgl.
  - apply Hu.
  - rewrite Hprev. apply Hm.
  - intros s Hs. rewrite Hcur, (Hcol s Hs), (Hunf s Hs), (Hlen s Hs).
    apply sent_inv_next; [done | |].
    + intros Hu1. apply Hwok, Hrun; [done | lia].
    + rewrite <- Ht. by apply (gi_sent st Hinv).
  - intros s Hs. rewrite Hprev.
    apply mask_lookup in Hs as (u & Hus & Hne0).
    assert (Hsb : (s < bs)%nat).
    { rewrite <- (proj1 Hu). by eapply lookup_lt_Some. }
    rewrite (proj2 Hu s Hsb) in Hus. injection Hus as <-.
    apply next_unf_running in Hne0.
    apply elem_of_active. by apply Hrun.
  - exists c'. split; [done |]. rewrite Hprev. split.
    + rewrite Hcur. replace (S (S t) - 1)%nat with (S t) by lia. done.
    + rewrite Hcur. replace (S (S t) - 1)%nat with (S t) by lia.
      eapply cache_rows_ext; [| exact Hrows].
      intros b Hb. unfold idx_fun.
      destruct (lookup_lt_is_Some_2 _ b Hb) as [s Hs]. rewrite Hs.
      cbn [default from_option id].
      assert (Hsb : (s < bs)%nat).
      { apply list_elem_of_lookup_2 in Hs.
        by destruct (active_running st s Hinv Hs). }
      unfold sent_ref. apply sent_cache_take.
      rewrite (Hcol s Hsb). symmetry. apply next_col_take.
Qed.

(** *** The loop *)

Hypothesis Hbs : (0 < bs)%nat.
Hypothesis Hmax : Forall (λ ml, 2 <= ml <= Z.of_nat gml) max_lengths.

Lemma ml_of_range s : (s < bs)%nat → 2 <= ml_of s <= Z.of_nat gml.
Proof.
  intros Hs. rewrite <- Hml in Hs.
  destruct (lookup_lt_is_Some_2 _ s Hs) as [ml Hl]. unfold ml_of. rewrite Hl.
  by eapply (proj1 (Forall_lookup _ _) Hmax).
Qed.

Lemma active_nonempty (st : @GenState KV) s :
  GenInv st → (s < bs)%nat → unf_of st s ≠ 0 →
  active (unfinished_mask_of st) ≠ [].
Proof.
  intros Hinv Hs Hne.
  destruct (rows_of_state st Hinv) as (_ & _ & _ & Hm & _).
  assert (Hin : s ∈ active (unfinished_mask_of st)).
  { apply elem_of_active. rewrite (proj2 Hm s Hs). f_equal.
    by apply negb_true_iff, Z.eqb_neq. }
  intros Hnil. rewrite Hnil in Hin. by apply elem_of_nil in Hin.
Qed.

(** The loop ends, with every sentence ended. *)
Lemma generate_loop_inv (n : nat) (st : @GenState KV) :
  GenInv st → n = (gml - cur_len st)%nat →
  active (unfinished_mask_of st) ≠ [] →
  ∃ st',
    generate_loop M src_enc src_len positions langs max_lengths temp n st = Some st'
    ∧ GenInv st'
    ∧ ∀ s, (s < bs)%nat → unf_of st' s = 0.
Proof.
  revert st. induction n as [|n IH]; intros st Hinv Hn Hne.
  - exfalso. destruct (active (unfinished_mask_of st)) as [|s act] eqn:E; [done |].
    assert (Hs : s ∈ active (unfinished_mask_of st)) by (rewrite E; set_solver).
    destruct (active_running st s Hinv Hs) as (Hsb & _ & _ & Hlt & _).
    pose proof (ml_of_range s Hsb). pose proof (gi_cur st Hinv). lia.
  - pose proof (gi_cur st Hinv) as Hcur.
    destruct (cur_len st) as [|t] eqn:Ht; [lia |].
    destruct (generate_step_inv st t Hinv Ht) as (st' & Hstep & Hcur' & Hinv');
      [lia | done |].
    cbn [generate_loop]. rewrite Hstep. cbn [mbind option_bind].
    destruct (max_list_spec (unfinished_sents st')) as (mx & Hmx & Hin & Hle).
    { intros Hnil. pose proof (gi_unf st' Hinv') as Hl. rewrite Hnil in Hl.
      simpl in Hl. lia. }
    rewrite Hmx. cbn [mbind option_bind].
    destruct (Z.eqb_spec mx 0) as [-> | Hmx0].
    + exists st'. split; [done |]. split; [done |].
      intros s Hs.
      destruct (gi_sent st' Hinv' s Hs) as [(Hu1 & _) | (Hu0 & _)]; [| done].
      exfalso. rewrite <- (gi_unf st' Hinv') in Hs.
      destruct (lookup_lt_is_Some_2 _ s Hs) as [u Hu].
      unfold unf_of in Hu1. rewrite Hu in Hu1. simpl in Hu1. subst u.
      apply list_elem_of_lookup_2 in Hu. specialize (Hle 1 Hu). lia.
    + apply IH; [done | lia |].
      apply list_elem_of_lookup_1 in Hin as [s Hs].
      apply (active_nonempty st' s); [done | |].
      * rewrite <- (gi_unf st' Hinv'). by eapply lookup_lt_Some.
      * unfold unf_of. by rewrite Hs.
Qed.

Hypothesis Hpad : eos_index M ≠ pad_index M.

(** The loop variables before the first iteration. *)
Definition gen_init : @GenState KV :=
  {| generated := replicate bs (eos_index M :: replicate (gml - 1) (pad_index M));
     gen_len := replicate bs 1;
     unfinished_sents := replicate bs 1;
     gen_cache := Some empty_cache;
     cur_len := 1;
     previous_unfinished_mask := replicate bs true |}.

Lemma gen_init_inv : GenInv gen_init.
Proof.
  pose proof (ml_of_range 0%nat Hbs) as Hgml.
  constructor; cbn [gen_init cur_len generated gen_len unfinished_sents
                      previous_unfinished_mask gen_cache].
  - lia.
  - by rewrite length_replicate.
  - by rewrite length_replicate.
  - by rewrite length_replicate.
  - by rewrite length_replicate.
  - intros s Hs. left. unfold col_of, len_of, unf_of.
    cbn [gen_init generated gen_len unfinished_sents].
    rewrite !lookup_replicate_2 by done. cbn [default from_option id].
    pose proof (ml_of_range s Hs).
    split; [done |]. split; [done |]. split; [lia |].
    exists []. split; [done |]. split; [done | constructor].
  - intros s Hs. apply mask_lookup in Hs as (u & Hu & _).
    cbn [gen_init unfinished_sents] in Hu. apply lookup_replicate in Hu as [_ Hs].
    by apply lookup_replicate_2.
  - exists empty_cache. split; [done |]. split; [done |].
    cbn [gen_init cur_len]. intros id. unfold empty_cache. cbn [cache_kv].
    rewrite lookup_empty. intros b _. unfold idx_fun, sent_ref. simpl.
    by rewrite lookup_empty.
Qed.

Lemma filter_none (P : Z → Prop) `{∀ x, Decision (P x)} (l : list Z) :
  Forall (λ x, ¬ P x) l → filter P l = [].
Proof.
  induction 1 as [|x l Hx _ IH]; [done |]. by rewrite filter_cons_False.
Qed.

Lemma count_column (ws : list Z) (n : nat) :
  Forall (λ w, w ≠ eos_index M ∧ tok_ok M w) ws →
  filter (λ x, x = eos_index M)
    (eos_index M :: ws ++ eos_index M :: replicate n (pad_index M))
  = [eos_index M; eos_index M].
Proof.
  intros Hall. rewrite filter_cons_True by done. f_equal.
  rewrite filter_app, filter_cons_True by done.
  rewrite (filter_none _ ws), (filter_none _ (replicate n _)); [done | |].
  - apply Forall_replicate. intros Heq. by apply Hpad.
  - eapply Forall_impl; [exact Hall |]. by intros w [? _].
Qed.

(** The result of the loop: every column starts with the end marker, goes
    on with words that are not the end marker, then has the end marker at
    position [e] and padding behind it; the length of the sentence is
    [e + 1], at most its maximum.  The tensor holds two end markers for each
    sentence, as generate then checks. *)
Lemma generate_loop_result :
  ∃ st',
    generate_loop M src_enc src_len positions langs max_lengths temp (gml - 1)
      gen_init = Some st'
    ∧ count_tok (eos_index M) (generated st') = (2 * bs)%nat
    ∧ (cur_len st' ≤ gml)%nat
    ∧ length (generated st') = bs ∧ length (gen_len st') = bs
    ∧ ∀ s, (s < bs)%nat →
        ∃ (e : nat) ws,
          (1 ≤ e < cur_len st')%nat
          ∧ len_of st' s = Z.of_nat e + 1 ∧ len_of st' s <= ml_of s
          ∧ col_of st' s = eos_index M :: ws ++ eos_index M
                             :: replicate (gml - e - 1) (pad_index M)
          ∧ length ws = (e - 1)%nat
          ∧ Forall (λ w, w ≠ eos_index M ∧ tok_ok M w) ws.
Proof.
  destruct (generate_loop_inv (gml - 1) gen_init gen_init_inv) as (st' & Hloop & Hinv & Hdone).
  { done. }
  { apply (active_nonempty gen_init 0%nat gen_init_inv Hbs).
    unfold unf_of. cbn [gen_init unfinished_sents].
    by rewrite lookup_replicate_2. }
  assert (Hcols : ∀ s, (s < bs)%nat →
            ∃ (e : nat) ws,
              (1 ≤ e < cur_len st')%nat
              ∧ len_of st' s = Z.of_nat e + 1 ∧ len_of st' s <= ml_of s
              ∧ col_of st' s = eos_index M :: ws ++ eos_index M
                                 :: replicate (gml - e - 1) (pad_index M)
              ∧ length ws = (e - 1)%nat
              ∧ Forall (λ w, w ≠ eos_index M ∧ tok_ok M w) ws).
  { intros s Hs.
    destruct (gi_sent st' Hinv s Hs) as [(Hu1 & _) | (_ & e & ws & He & Hgl & Hle & Hc & Hws & Hall)].
    - rewrite (Hdone s Hs) in Hu1. done.
    - exists e, ws. rewrite Hgl. done. }
  exists st'. split; [done |]. split; [| split; [apply (gi_cur st' Hinv) |
    split; [apply (gi_gen st' Hinv) | split; [apply (gi_len st' Hinv) | done]]]].
  unfold count_tok.
  assert (Hall : Forall (λ col, length (filter (λ x, x = eos_index M) col) = 2%nat)
                   (generated st')).
  { apply Forall_lookup. intros s col Hcol.
    assert (Hs : (s < bs)%nat).
    { rewrite <- (gi_gen st' Hinv). by eapply lookup_lt_Some. }
    destruct (Hcols s Hs) as (e & ws & _ & _ & _ & Hc & _ & Hws).
    unfold col_of in Hc. rewrite Hcol in Hc. simpl in Hc. subst col.
    by rewrite count_column. }
  rewrite <- (gi_gen st' Hinv). clear -Hall.
  induction Hall as [|col cols Hcol _ IH]; [done |].
  cbn [concat]. rewrite filter_app, length_app, Hcol, IH. simpl. lia.
Qed.

(** *** The states at the head of the iterations *)

(** The states in which the loop of generate starts an iteration: the
    initial one, and the one an iteration leaves when neither the [break]
    nor the test of the [while] ends the loop. *)
Inductive gen_head : @GenState KV → Prop :=
| head_init : gen_head gen_init
| head_next st st' :
    gen_head st →
    generate_step M src_enc src_len positions langs max_lengths temp st = Some st' →
    max_list (unfinished_sents st') ≠ Some 0 →
    (cur_len st' < gml)%nat →
    gen_head st'.

Lemma gen_head_inv (st : @GenState KV) :
  gen_head st →
  GenInv st ∧ active (unfinished_mask_of st) ≠ [] ∧ (cur_len st < gml)%nat.
Proof.
  induction 1 as [|st st' _ (Hinv & Hne & Hlt) Hstep Hmx Hlt'].
  - split; [apply gen_init_inv |]. split.
    + apply (active_nonempty gen_init 0%nat gen_init_inv Hbs).
      unfold unf_of. cbn [gen_init unfinished_sents].
      by rewrite lookup_replicate_2.
    + pose proof (ml_of_range 0%nat Hbs). cbn [gen_init cur_len]. lia.
  - pose proof (gi_cur st Hinv) as Hcur.
    destruct (cur_len st) as [|t] eqn:Ht; [lia |].
    destruct (generate_step_inv st t Hinv Ht Hlt Hne) as (st'' & Hstep' & _ & Hinv').
    assert (st'' = st') by congruence. subst st''.
    split; [done |]. split; [| done].
    destruct (max_list_spec (unfinished_sents st')) as (mx & Hmx' & Hin & _).
    { intros Hnil. pose proof (gi_unf st' Hinv') as Hl. rewrite Hnil in Hl.
      simpl in Hl. lia. }
    apply list_elem_of_lookup_1 in Hin as [s Hs].
    apply (active_nonempty st' s); [done | |].
    + rewrite <- (gi_unf st' Hinv'). by eapply lookup_lt_Some.
    + unfold unf_of. rewrite Hs. simpl. intros ->. by rewrite Hmx' in Hmx.
Qed.

(** C4.  At the head of every iteration of greedy or sampling decoding, the
    cache handed to the pass holds, for every layer entry and in the order
    of the batch, exactly the rows of the sentences still unfinished: row
    [j] of every cached tensor is the cache of the [j]-th unfinished
    sentence decoded alone.  When the mask of unfinished sentences differs
    from the previous one, every entry of the cache has been filtered, keys
    and values alike, by the new mask restricted to the previous one; when
    it does not differ, the cache is handed over as it is. *)
Theorem cache_refiltered (st : @GenState KV) :
  gen_head st →
  let prev := previous_unfinished_mask st in
  let cur := unfinished_mask_of st in
  ∃ c c',
    gen_cache st = Some c
    ∧ step_cache st = Some (Some c')
    ∧ (cur ≠ prev →
       cache_kv c' = (λ e, (select_rows (select_rows prev cur) e.1,
                            select_rows (select_rows prev cur) e.2)) <$> cache_kv c)
    ∧ (cur = prev → c' = c)
    ∧ cache_slen c' = Z.of_nat (cur_len st - 1)
    ∧ cache_rows (cache_kv c') (length (active cur))
        (idx_fun (active cur) (sent_ref st (cur_len st - 1)))
    ∧ ∃ st', generate_step M src_enc src_len positions langs max_lengths temp st
             = Some st'.
Proof.
  intros Hhead prev cur.
  destruct (gen_head_inv st Hhead) as (Hinv & Hne & Hlt).
  destruct (gi_cache st Hinv) as (c & Hc & Hslen & Hrows).
  destruct (step_cache_rows st c (sent_ref st (cur_len st - 1)))
    as (c' & Hstep & Hslen' & Hrows' & Hsame & Hfilter); try done.
  { by rewrite (gi_unf st Hinv), (gi_prev st Hinv). }
  { apply (gi_sub st Hinv). }
  exists c, c'. split; [done |]. split; [done |]. split; [done |].
  split; [done |]. split; [congruence |]. split; [done |].
  pose proof (gi_cur st Hinv) as Hcur.
  destruct (cur_len st) as [|t] eqn:Ht; [lia |].
  destruct (generate_step_inv st t Hinv Ht Hlt Hne) as (st' & Hstep' & _).
  by exists st'.
Qed.

(** *** Each sentence is decoded as if alone *)

(** The scores of the next word of a sentence decoded alone, from the first
    [t + 1] tokens of its column. *)
Definition ref_scores (enc : list H) (sl : Z) (col : list Z) (t : nat) : list Q :=
  default [] (pred <$> sent_hidden M enc sl lang col t).

(** One iteration and [k] iterations of greedy decoding on one sentence:
    its column, its length and its flag. *)
Definition ref_step (enc : list H) (sl ml : Z) (t : nat) (x : list Z * Z * Z)
    : list Z * Z * Z :=
  let w := greedy_word (ref_scores enc sl x.1.1 t) in
  (next_col (S t) ml w x.1.1 x.2, x.1.2 + x.2, next_unf (S t) ml w x.2).

Fixpoint ref_run (enc : list H) (sl ml : Z) (k : nat) : list Z * Z * Z :=
  match k with
  | O => (eos_index M :: replicate (gml - 1) (pad_index M), 1, 1)
  | S k' => ref_step enc sl ml k' (ref_run enc sl ml k')
  end.

Definition sent_state (st : @GenState KV) (s : nat) : list Z * Z * Z :=
  (col_of st s, len_of st s, unf_of st s).

Lemma ref_step_finished enc sl ml t col gl :
  ref_step enc sl ml t (col, gl, 0) = (col, gl, 0).
Proof.
  unfold ref_step, next_col, next_unf. cbn [fst snd Z.eqb negb].
  rewrite andb_false_r, Z.add_0_r. done.
Qed.

Lemma ref_run_finished enc sl ml k j :
  (ref_run enc sl ml k).2 = 0 → (k ≤ j)%nat →
  ref_run enc sl ml j = ref_run enc sl ml k.
Proof.
  intros Hu Hle. induction Hle as [|j Hle IH]; [done |].
  cbn [ref_run]. rewrite IH.
  destruct (ref_run enc sl ml k) as [[col gl] u]. cbn [snd] in Hu. subst u.
  apply ref_step_finished.
Qed.

(** An iteration without sampling does to every sentence of the batch what
    it does to the sentence alone. *)
Lemma generate_step_ref (st : @GenState KV) (t : nat) :
  temp = None →
  GenInv st → cur_len st = S t → (S t < gml)%nat →
  active (unfinished_mask_of st) ≠ [] →
  ∃ st',
    generate_step M src_enc src_len positions langs max_lengths temp st = Some st'
    ∧ cur_len st' = S (S t)
    ∧ GenInv st'
    ∧ ∀ s, (s < bs)%nat →
        sent_state st' s
        = ref_step (enc_of s) (sl_of s) (ml_of s) t (sent_state st s).
Proof.
  intros Htmp Hinv Ht Hlt Hne.
  destruct (generate_step_spec st t Hinv Ht Hlt Hne)
    as (st' & W & c' & Hstep & Hcur & _ & _ & _ & _ & Hg & Hgl & Hu & _ & HW & _).
  destruct (generate_step_inv st t Hinv Ht Hlt Hne) as (st'' & Hstep' & _ & Hinv').
  assert (st'' = st') by congruence. subst st''.
  destruct (rows_of_state st Hinv) as (_ & _ & _ & Hm & _).
  exists st'. split; [done |]. split; [done |]. split; [done |].
  intros s Hs. unfold sent_state at 1, col_of at 1, len_of at 1, unf_of at 1.
  rewrite (proj2 Hg s Hs), (proj2 Hgl s Hs), (proj2 Hu s Hs).
  cbn [default from_option id]. unfold ref_step, sent_state. cbn [fst snd].
  destruct (Z.eqb_spec (unf_of st s) 0) as [Hz | Hnz].
  - rewrite Hz. unfold next_col, next_unf. cbn [Z.eqb negb]. done.
  - assert (Hin : s ∈ active (unfinished_mask_of st)).
    { apply elem_of_active. rewrite (proj2 Hm s Hs). f_equal.
      by apply negb_true_iff, Z.eqb_neq. }
    rewrite (HW Htmp s Hin). done.
Qed.

(** The loop without sampling: at its end the column, length and flag of
    every sentence are those of the sentence decoded alone for as many
    iterations. *)
Lemma generate_loop_ref (n : nat) (st : @GenState KV) (k : nat) :
  temp = None →
  GenInv st → cur_len st = S k → n = (gml - S k)%nat →
  active (unfinished_mask_of st) ≠ [] →
  (∀ s, (s < bs)%nat →
     sent_state st s = ref_run (enc_of s) (sl_of s) (ml_of s) k) →
  ∃ st' k',
    generate_loop M src_enc src_len positions langs max_lengths temp n st = Some st'
    ∧ GenInv st'
    ∧ cur_len st' = S k'
    ∧ ∀ s, (s < bs)%nat →
        sent_state st' s = ref_run (enc_of s) (sl_of s) (ml_of s) k'
        ∧ unf_of st' s = 0.
Proof.
  intros Htmp. revert st k. induction n as [|n IH]; intros st k Hinv Hk Hn Hne Href.
  - exfalso. destruct (active (unfinished_mask_of st)) as [|s act] eqn:E; [done |].
    assert (Hs : s ∈ active (unfinished_mask_of st)) by (rewrite E; set_solver).
    destruct (active_running st s Hinv Hs) as (Hsb & _ & _ & Hlt & _).
    pose proof (ml_of_range s Hsb). pose proof (gi_cur st Hinv). lia.
  - destruct (generate_step_ref st k Htmp Hinv Hk) as (st' & Hstep & Hcur' & Hinv' & Hst');
      [lia | done |].
    cbn [generate_loop]. rewrite Hstep. cbn [mbind option_bind].
    assert (Href' : ∀ s, (s < bs)%nat →
              sent_state st' s = ref_run (enc_of s) (sl_of s) (ml_of s) (S k)).
    { intros s Hs. rewrite (Hst' s Hs), (Href s Hs). done. }
    destruct (max_list_spec (unfinished_sents st')) as (mx & Hmx & Hin & Hle).
    { intros Hnil. pose proof (gi_unf st' Hinv') as Hl. rewrite Hnil in Hl.
      simpl in Hl. lia. }
    rewrite Hmx. cbn [mbind option_bind].
    destruct (Z.eqb_spec mx 0) as [-> | Hmx0].
    + exists st', (S k). split; [done |]. split; [done |]. split; [done |].
      intros s Hs. split; [by apply Href' |].
      destruct (gi_sent st' Hinv' s Hs) as [(Hu1 & _) | (Hu0 & _)]; [| done].
      exfalso. rewrite <- (gi_unf st' Hinv') in Hs.
      destruct (lookup_lt_is_Some_2 _ s Hs) as [u Hu].
      unfold unf_of in Hu1. rewrite Hu in Hu1. simpl in Hu1. subst u.
      apply list_elem_of_lookup_2 in Hu. specialize (Hle 1 Hu). lia.
    + apply (IH st' (S k)); [done | done | lia | | done].
      apply list_elem_of_lookup_1 in Hin as [s Hs].
      apply (active_nonempty st' s); [done | |].
      * rewrite <- (gi_unf st' Hinv'). by eapply lookup_lt_Some.
      * unfold unf_of. by rewrite Hs.
Qed.

(** The end of the loop of generate without sampling, sentence by sentence:
    the sentence decoded alone has ended after [k] iterations, and what the
    loop leaves for it is what it has then. *)
Lemma generate_loop_alone :
  temp = None →
  ∃ st' k,
    generate_loop M src_enc src_len positions langs max_lengths temp (gml - 1)
      gen_init = Some st'
    ∧ count_tok (eos_index M) (generated st') = (2 * bs)%nat
    ∧ cur_len st' = S k ∧ (S k ≤ gml)%nat
    ∧ length (generated st') = bs ∧ length (gen_len st') = bs
    ∧ ∀ s, (s < bs)%nat →
        (ref_run (enc_of s) (sl_of s) (ml_of s) k).2 = 0
        ∧ generated st' !! s = Some (ref_run (enc_of s) (sl_of s) (ml_of s) k).1.1
        ∧ gen_len st' !! s = Some (ref_run (enc_of s) (sl_of s) (ml_of s) k).1.2
        ∧ ∃ (e : nat) ws,
            (1 ≤ e < S k)%nat
            ∧ (ref_run (enc_of s) (sl_of s) (ml_of s) k).1.2 = Z.of_nat e + 1
            ∧ (ref_run (enc_of s) (sl_of s) (ml_of s) k).1.1
              = eos_index M :: ws ++ eos_index M
                  :: replicate (gml - e - 1) (pad_index M)
            ∧ length ws = (e - 1)%nat
            ∧ Forall (λ w, w ≠ eos_index M ∧ tok_ok M w) ws.
Proof.
  intros Htmp.
  destruct (generate_loop_ref (gml - 1) gen_init 0 Htmp gen_init_inv)
    as (st' & k & Hloop & Hinv & Hcur & Hst); try done.
  { apply (active_nonempty gen_init 0%nat gen_init_inv Hbs).
    unfold unf_of. cbn [gen_init unfinished_sents].
    by rewrite lookup_replicate_2. }
  { intros s Hs. unfold sent_state, col_of, len_of, unf_of.
    cbn [gen_init generated gen_len unfinished_sents ref_run].
    by rewrite !lookup_replicate_2. }
  destruct generate_loop_result as (st'' & Hloop' & Hcount & _).
  assert (st'' = st') by congruence. subst st''.
  exists st', k. split; [done |]. split; [done |]. split; [done |].
  pose proof (gi_cur st' Hinv) as Hc. split; [lia |].
  split; [apply (gi_gen st' Hinv) |]. split; [apply (gi_len st' Hinv) |].
  intros s Hs. destruct (Hst s Hs) as [Href Hu].
  unfold sent_state in Href. rewrite <- Href. cbn [fst snd].
  split; [done |]. split.
  { unfold col_of. pose proof Hs as Hs'. rewrite <- (gi_gen st' Hinv) in Hs'.
    by destruct (lookup_lt_is_Some_2 _ s Hs') as [col ->]. }
  split.
  { unfold len_of. pose proof Hs as Hs'. rewrite <- (gi_len st' Hinv) in Hs'.
    by destruct (lookup_lt_is_Some_2 _ s Hs') as [gl ->]. }
  destruct (gi_sent st' Hinv s Hs)
    as [(Hu1 & _) | (_ & e & ws & He & Hgl & _ & Hcol & Hws & Hall)].
  - rewrite Hu in Hu1. done.
  - exists e, ws. rewrite Hcur in He. done.
Qed.

(** *** The words of a sentence *)

(** The row of sentence [s] in the batch of the sentences still unfinished
    when position [i] is written, read off the lengths [lens] the loop
    leaves: a sentence is still unfinished then exactly when its length in
    the end exceeds [i], so that the row is the number of sentences before
    [s] that are longer than [i]. *)
Definition row_of (lens : list Z) (s i : nat) : nat :=
  length (filter (λ l, Z.of_nat i < l) (take s lens)).

(** The word the decoder emits for position [t + 1] of sentence [s]: the one
    chosen, at step [t + 1] and for the row of the sentence, from the scores
    of the first [t + 1] tokens of its column [col]. *)
Definition next_word (lens : list Z) (s t : nat) (col : list Z) : Z :=
  choose_word temp (S t) (row_of lens s (S t))
    (ref_scores (enc_of s) (sl_of s) col t).

Lemma next_word_take lens s t col col' :
  take (S t) col = take (S t) col' →
  next_word lens s t col = next_word lens s t col'.
Proof.
  intros Heq. unfold next_word, ref_scores.
  by rewrite (sent_hidden_take M (enc_of s) (sl_of s) lang col col' t).
Qed.

(** The positions written so far, while the sentence was unfinished, hold the
    end marker where the maximum length of the sentence forces it and the
    emitted word elsewhere. *)
Definition words_inv (st : @GenState KV) : Prop :=
  ∀ s t, (s < bs)%nat → (S t < cur_len st)%nat → Z.of_nat (S t) < len_of st s →
    is_Some (sent_hidden M (enc_of s) (sl_of s) lang (col_of st s) t)
    ∧ col_of st s !! S t
      = Some (if ml_of s =? Z.of_nat (S t) + 1 then eos_index M
              else next_word (gen_len st) s t (col_of st s)).

Lemma generate_step_words (st : @GenState KV) (t : nat) :
  GenInv st → words_inv st → cur_len st = S t → (S t < gml)%nat →
  active (unfinished_mask_of st) ≠ [] →
  ∃ st',
    generate_step M src_enc src_len positions langs max_lengths temp st = Some st'
    ∧ cur_len st' = S (S t)
    ∧ GenInv st'
    ∧ words_inv st'.
Proof.
  intros Hinv Hw Ht Hlt Hne.
  destruct (generate_step_spec st t Hinv Ht Hlt Hne)
    as (st' & W & c' & Hstep & Hcur & _ & _ & _ & _ & Hg & Hgl & Hu & _ & _ & HW).
  destruct (generate_step_inv st t Hinv Ht Hlt Hne) as (st'' & Hstep' & _ & Hinv').
  assert (st'' = st') by congruence. subst st''.
  destruct (rows_of_state st Hinv) as (_ & Hgl0 & _ & Hm & _).
  exists st'. split; [done |]. split; [done |]. split; [done |].
  assert (Hcol : ∀ s, (s < bs)%nat →
            col_of st' s = next_col (S t) (ml_of s) (W s) (col_of st s) (unf_of st s)).
  { intros s Hs. unfold col_of at 1. by rewrite (proj2 Hg s Hs). }
  assert (Hlen : ∀ s, (s < bs)%nat → len_of st' s = len_of st s + unf_of st s).
  { intros s Hs. unfold len_of at 1. by rewrite (proj2 Hgl s Hs). }
  assert (Htake : ∀ s i, (s < bs)%nat → (i ≤ t)%nat →
            take (S i) (col_of st' s) = take (S i) (col_of st s)).
  { intros s i Hs Hi. apply (take_take_eq _ _ (S i) (S t)); [lia |].
    rewrite (Hcol s Hs). apply next_col_take. }
  assert (Hold : ∀ s i, (s < bs)%nat → (S i < S t)%nat →
            Z.of_nat (S i) < len_of st s + unf_of st s ↔ Z.of_nat (S i) < len_of st s).
  { intros s i Hs Hi.
    destruct (gi_sent st Hinv s Hs) as [(Hu1 & Hgl1 & _) | (Hu0 & _)].
    - rewrite Hu1, Hgl1, Ht. lia.
    - rewrite Hu0. lia. }
  assert (Hnew : ∀ s, (s < bs)%nat →
            Z.of_nat (S t) < len_of st s + unf_of st s
            ↔ negb (unf_of st s =? 0) = true).
  { intros s Hs.
    destruct (gi_sent st Hinv s Hs)
      as [(Hu1 & Hgl1 & _) | (Hu0 & e & ws & He & Hgl1 & _)].
    - rewrite Hu1, Hgl1, Ht. cbn [Z.eqb negb]. split; [done | lia].
    - rewrite Hu0, Hgl1, Ht in *. cbn [Z.eqb negb]. split; [lia | done]. }
  intros s i Hs Hi Hl. rewrite Hcur in Hi. rewrite (Hlen s Hs) in Hl.
  destruct (decide (i = t)) as [-> | Hit].
  - destruct (gi_sent st Hinv s Hs)
      as [(Hu1 & Hgl1 & Hml1 & ws & Hc & Hws & Hall) | (Hu0 & e & ws & He & Hgl1 & _)];
      [| rewrite Hu0, Hgl1, Ht in *; lia].
    assert (Hin : s ∈ active (unfinished_mask_of st)).
    { apply elem_of_active. rewrite (proj2 Hm s Hs). by rewrite Hu1. }
    assert (Hword : W s = next_word (gen_len st') s t (col_of st' s)).
    { rewrite (HW s Hin). unfold next_word. f_equal.
      - unfold act_index, row_of. symmetry.
        apply (count_rows_ext _ _ (gen_len st') (unfinished_mask_of st) bs
                 (λ s, len_of st s + unf_of st s) (λ s, negb (unf_of st s =? 0)) s);
          [exact Hgl | exact Hm | lia |].
        intros s' Hs'. apply Hnew. lia.
      - unfold ref_scores.
        rewrite (sent_hidden_take M (enc_of s) (sl_of s) lang (col_of st' s)
                   (col_of st s) t) by (apply Htake; [done | lia]).
        reflexivity. }
    assert (Hlc : (S t < length (col_of st s))%nat).
    { rewrite Hc, Ht. cbn [length]. rewrite length_app, length_replicate. lia. }
    split.
    { rewrite (sent_hidden_take M (enc_of s) (sl_of s) lang (col_of st' s)
                 (col_of st s) t) by (apply Htake; [done | lia]).
      destruct (active_pass st t s Hinv Ht Hlt Hin) as (_ & _ & _ & Hrun & Hone & _).
      unfold sent_hidden. fold (sent_ref st t s). rewrite Hrun.
      cbn [default from_option id].
      by destruct ((sent_out st t s).1) as [|h [|h' hs]]. }
    rewrite <- Hword, (Hcol s Hs), Hu1. unfold next_col. cbn [Z.eqb negb].
    rewrite andb_true_r.
    destruct (ml_of s =? Z.of_nat (S t) + 1).
    + apply list_lookup_insert_eq. by rewrite length_insert.
    + by apply list_lookup_insert_eq.
  - assert (Hi' : (S i < S t)%nat) by lia.
    apply (Hold s i Hs Hi') in Hl.
    rewrite <- Ht in Hi'. destruct (Hw s i Hs Hi' Hl) as [Hh Hwi]. rewrite Ht in Hi'.
    split.
    { rewrite (sent_hidden_take M (enc_of s) (sl_of s) lang (col_of st' s)
                 (col_of st s) i); [done |].
      apply Htake; [done | lia]. }
    rewrite <- (lookup_take_lt (col_of st' s) (S t) (S i)) by lia.
    rewrite (Htake s t Hs) by lia.
    rewrite (lookup_take_lt (col_of st s) (S t) (S i)) by lia.
    assert (Hsame : next_word (gen_len st') s i (col_of st' s)
                    = next_word (gen_len st) s i (col_of st s)).
    { unfold next_word. f_equal.
      - unfold row_of.
        apply (count_rows_ext _ _ (gen_len st') (gen_len st) bs
                 (λ s, len_of st s + unf_of st s) (len_of st) s);
          [exact Hgl | exact Hgl0 | lia |].
        intros s' Hs'. apply Hold; lia.
      - unfold ref_scores.
        rewrite (sent_hidden_take M (enc_of s) (sl_of s) lang (col_of st' s)
                   (col_of st s) i); [reflexivity |].
        apply Htake; [done | lia]. }
    by rewrite Hwi, Hsame.
Qed.

Lemma generate_loop_words_inv (n : nat) (st : @GenState KV) :
  GenInv st → words_inv st → n = (gml - cur_len st)%nat →
  active (unfinished_mask_of st) ≠ [] →
  ∃ st',
    generate_loop M src_enc src_len positions langs max_lengths temp n st = Some st'
    ∧ GenInv st'
    ∧ words_inv st'
    ∧ ∀ s, (s < bs)%nat → unf_of st' s = 0.
Proof.
  revert st. induction n as [|n IH]; intros st Hinv Hw Hn Hne.
  - exfalso. destruct (active (unfinished_mask_of st)) as [|s act] eqn:E; [done |].
    assert (Hs : s ∈ active (unfinished_mask_of st)) by (rewrite E; set_solver).
    destruct (active_running st s Hinv Hs) as (Hsb & _ & _ & Hlt & _).
    pose proof (ml_of_range s Hsb). pose proof (gi_cur st Hinv). lia.
  - pose proof (gi_cur st Hinv) as Hcur.
    destruct (cur_len st) as [|t] eqn:Ht; [lia |].
    destruct (generate_step_words st t Hinv Hw Ht)
      as (st' & Hstep & Hcur' & Hinv' & Hw'); [lia | done |].
    cbn [generate_loop]. rewrite Hstep. cbn [mbind option_bind].
    destruct (max_list_spec (unfinished_sents st')) as (mx & Hmx & Hin & Hle).
    { intros Hnil. pose proof (gi_unf st' Hinv') as Hl. rewrite Hnil in Hl.
      simpl in Hl. lia. }
    rewrite Hmx. cbn [mbind option_bind].
    destruct (Z.eqb_spec mx 0) as [-> | Hmx0].
    + exists st'. split; [done |]. split; [done |]. split; [done |].
      intros s Hs.
      destruct (gi_sent st' Hinv' s Hs) as [(Hu1 & _) | (Hu0 & _)]; [| done].
      exfalso. rewrite <- (gi_unf st' Hinv') in Hs.
      destruct (lookup_lt_is_Some_2 _ s Hs) as [u Hu].
      unfold unf_of in Hu1. rewrite Hu in Hu1. simpl in Hu1. subst u.
      apply list_elem_of_lookup_2 in Hu. specialize (Hle 1 Hu). lia.
    + apply IH; [done | done | lia |].
      apply list_elem_of_lookup_1 in Hin as [s Hs].
      apply (active_nonempty st' s); [done | |].
      * rewrite <- (gi_unf st' Hinv'). by eapply lookup_lt_Some.
      * unfold unf_of. by rewrite Hs.
Qed.

(** The result of the loop, word by word: in the column of every sentence
    the words between the two end markers are the emitted ones, and the
    second end marker stands where the emitted word is the end marker or
    where the maximum length of the sentence forces it. *)
Lemma generate_loop_words :
  ∃ st',
    generate_loop M src_enc src_len positions langs max_lengths temp (gml - 1)
      gen_init = Some st'
    ∧ ∀ s, (s < bs)%nat →
        ∃ (e : nat) ws,
          (1 ≤ e < cur_len st')%nat
          ∧ len_of st' s = Z.of_nat e + 1 ∧ len_of st' s <= ml_of s
          ∧ col_of st' s = eos_index M :: ws ++ eos_index M
                             :: replicate (gml - e - 1) (pad_index M)
          ∧ length ws = (e - 1)%nat
          ∧ Forall (λ w, w ≠ eos_index M ∧ tok_ok M w) ws
          ∧ (∀ i, (i ≤ length ws)%nat →
               is_Some (sent_hidden M (enc_of s) (sl_of s) lang (col_of st' s) i))
          ∧ (∀ i w, ws !! i = Some w →
               w = next_word (gen_len st') s i (col_of st' s))
          ∧ (next_word (gen_len st') s (length ws) (col_of st' s) = eos_index M
             ∨ ml_of s = Z.of_nat (length ws) + 2).
Proof.
  destruct (generate_loop_words_inv (gml - 1) gen_init gen_init_inv)
    as (st' & Hloop & Hinv & Hw & Hdone).
  { intros s t _ Ht. cbn [gen_init cur_len] in Ht. lia. }
  { done. }
  { apply (active_nonempty gen_init 0%nat gen_init_inv Hbs).
    unfold unf_of. cbn [gen_init unfinished_sents].
    by rewrite lookup_replicate_2. }
  exists st'. split; [done |]. intros s Hs.
  destruct (gi_sent st' Hinv s Hs)
    as [(Hu1 & _) | (_ & e & ws & He & Hgl & Hle & Hc & Hws & Hall)].
  { rewrite (Hdone s Hs) in Hu1. done. }
  exists e, ws. split; [done |]. split; [done |]. split; [lia |].
  split; [done |]. split; [done |]. split; [done |].
  assert (Hat : ∀ i, (i < e)%nat →
            col_of st' s !! S i
            = Some (if ml_of s =? Z.of_nat (S i) + 1 then eos_index M
                    else next_word (gen_len st') s i (col_of st' s))).
  { intros i Hi. apply Hw; [done | lia | lia]. }
  split.
  { intros i Hi. apply Hw; [done | lia | lia]. }
  assert (Hlk : ∀ i, col_of st' s !! S i
                     = (ws ++ eos_index M :: replicate (gml - e - 1) (pad_index M)) !! i).
  { intros i. by rewrite Hc. }
  split.
  - intros i w Hi. pose proof (lookup_lt_Some _ _ _ Hi) as Hlt.
    specialize (Hat i ltac:(lia)). rewrite Hlk in Hat.
    rewrite lookup_app_l, Hi in Hat by done. injection Hat as Hat.
    assert (Hne : w ≠ eos_index M).
    { by destruct (proj1 (Forall_lookup _ _) Hall i w Hi). }
    destruct (ml_of s =? Z.of_nat (S i) + 1); [done | done].
  - specialize (Hat (length ws) ltac:(lia)). rewrite Hlk in Hat.
    rewrite lookup_app_r, Nat.sub_diag in Hat by done. cbn in Hat.
    injection Hat as Hat.
    destruct (Z.eqb_spec (ml_of s) (Z.of_nat (S (length ws)) + 1)) as [Hml' | _].
    + right. lia.
    + by left.
Qed.

End greedy.

(** ** The result of generate *)

Section generate_result.
Context {H KV : Type} `{NumericBackend}.

(** The maximum length of sentence [s]. *)
Definition max_length_of (max_len : MaxLen) (s : nat) : Z :=
  match max_len with
  | MaxInt n => n
  | MaxTensor l => default 0 (l !! s)
  end.

(** The maximum lengths generate handles: at least 2, room for the start
    marker and an end marker, at most the number of positions of the model,
    and one for each sentence when given as a tensor. *)
Definition valid_max_len (bs : nat) (max_len : MaxLen) : Prop :=
  match max_len with
  | MaxInt n => 2 <= n <= N_MAX_POSITIONS
  | MaxTensor l => length l = bs ∧ Forall (λ ml, 2 <= ml <= N_MAX_POSITIONS) l
  end.

Lemma take_column (eos pad : Z) (ws : list Z) (e T k : nat) :
  length ws = (e - 1)%nat → (1 ≤ e < T)%nat → (T ≤ e + 1 + k)%nat →
  take T (eos :: ws ++ eos :: replicate k pad)
  = eos :: ws ++ eos :: replicate (T - e - 1) pad.
Proof.
  intros Hws He HT.
  change (eos :: ws ++ eos :: replicate k pad)
    with ((eos :: ws) ++ eos :: replicate k pad).
  rewrite take_app_ge by (simpl; lia). cbn [length app].
  rewrite Hws. replace (T - S (e - 1))%nat with (S (T - e - 1)) by lia.
  cbn [take]. rewrite take_replicate. do 4 f_equal. lia.
Qed.

(** C5.  On a valid input generate returns, and in the token batch it
    returns the sequence of every sentence is the end-of-sequence marker
    (the synthetic start, at position 0), then words that are not the
    marker, then the marker again, then only padding: exactly two
    end-of-sequence markers.  Every word between the two markers is the word
    the decoder emitted for its position: the pass over the tokens before it
    returns a hidden state, and the word is the greedy word of its scores
    or, with a temperature, the word drawn from them for the row the
    sentence has among the sentences then unfinished.  The second marker is
    the true end of the sentence: where it stands the emitted word is the
    marker, or the sentence has reached its maximum length and the marker
    is forced; at no earlier position is either the case.  The length
    returned for the sentence counts the tokens up to and including the
    second marker and is at most the sentence's maximum length. *)
Theorem generate_two_eos (M : @TransformerModel H KV) (pred : H → list Q)
    (src_enc : list (list H)) (src_len : list Z) (tgt_lang_id : Z)
    (max_len : MaxLen) (sample_temperature : option Q) (L : nat) :
  is_decoder M = true →
  pred_layer M = Some pred →
  (∀ h, length (pred h) = n_words M) →
  tok_ok M (eos_index M) →
  eos_index M ≠ pad_index M →
  lang_ok M tgt_lang_id →
  (0 < length src_len)%nat →
  rect (length src_len) L src_enc →
  valid_max_len (length src_len) max_len →
  (∀ q, sample_temperature = Some q → ¬ (q == 0)%Q) →
  ∃ out lens,
    generate M src_enc src_len tgt_lang_id max_len sample_temperature
      = Some (out, lens)
    ∧ length out = length src_len
    ∧ length lens = length src_len
    ∧ ∀ s, (s < length src_len)%nat →
        ∃ col ws (n : nat),
          out !! s = Some col
          ∧ col = eos_index M :: ws ++ eos_index M :: replicate n (pad_index M)
          ∧ Forall (λ w, w ≠ eos_index M) ws
          ∧ filter (λ x, x = eos_index M) col = [eos_index M; eos_index M]
          ∧ lens !! s = Some (Z.of_nat (length ws) + 2)
          ∧ Z.of_nat (length ws) + 2 <= max_length_of max_len s
          ∧ (∀ i, (i ≤ length ws)%nat →
               is_Some (sent_hidden M (enc_of src_enc s) (sl_of src_len s)
                          tgt_lang_id col i))
          ∧ (∀ i w, ws !! i = Some w →
               w = next_word M pred src_enc src_len tgt_lang_id sample_temperature
                     lens s i col)
          ∧ (next_word M pred src_enc src_len tgt_lang_id sample_temperature
               lens s (length ws) col = eos_index M
             ∨ Z.of_nat (length ws) + 2 = max_length_of max_len s).
Proof.
  intros Hdec Hpred Hpl Heos Hpad Hlang Hbs Henc Hvalid Htemp.
  set (bs := length src_len) in *.
  assert (Hwords : (0 < n_words M)%nat).
  { unfold tok_ok, in_range in Heos. apply andb_true_iff in Heos as [H1 H2].
    apply Z.leb_le in H1. apply Z.ltb_lt in H2. lia. }
  assert (Hmax : ∃ max_lengths gml,
            match max_len with
            | MaxInt n => Some (replicate bs n, n)
            | MaxTensor l => mx ← max_list l; Some (l, mx)
            end = Some (max_lengths, Z.of_nat gml)
            ∧ length max_lengths = bs
            ∧ Z.of_nat gml <= N_MAX_POSITIONS
            ∧ Forall (λ ml, 2 <= ml <= Z.of_nat gml) max_lengths
            ∧ ∀ s, (s < bs)%nat → ml_of max_lengths s = max_length_of max_len s).
  { destruct max_len as [n | l]; cbn [valid_max_len] in Hvalid.
    - exists (replicate bs n), (Z.to_nat n). rewrite Z2Nat.id by lia.
      split; [done |]. split; [by rewrite length_replicate |]. split; [lia |].
      split; [apply Forall_replicate; lia |].
      intros s Hs. unfold ml_of. by rewrite lookup_replicate_2.
    - destruct Hvalid as [Hl Hall].
      destruct (max_list_spec l) as (mx & Hmx & Hin & Hle).
      { intros ->. simpl in Hl. lia. }
      assert (Hmxr : 2 <= mx <= N_MAX_POSITIONS).
      { by apply (proj1 (Forall_forall _ _) Hall). }
      exists l, (Z.to_nat mx). rewrite Z2Nat.id by lia. rewrite Hmx.
      split; [done |]. split; [done |]. split; [lia |]. split; [| done].
      apply Forall_forall. intros ml Hml.
      pose proof (proj1 (Forall_forall _ _) Hall ml Hml) as Hr. cbn beta in Hr.
      specialize (Hle ml Hml). lia. }
  destruct Hmax as (max_lengths & gml & Hmatch & Hml & Hpos & Hrange & Hmlof).
  assert (Hgml : (2 ≤ gml)%nat).
  { destruct max_lengths as [|ml mls]; [simpl in Hml; lia |].
    inversion Hrange; subst. lia. }
  destruct (generate_loop_result M pred src_enc src_len tgt_lang_id max_lengths
              sample_temperature bs gml L)
    as (st' & Hloop & Hcount & Hcur & Hlg & Hll & _); try done.
  destruct (generate_loop_words M pred src_enc src_len tgt_lang_id max_lengths
              sample_temperature bs gml L)
    as (st'' & Hloop' & Hcols); try done.
  assert (st'' = st') by congruence. subst st''.
  unfold generate. fold bs. rewrite Hmatch. cbn [mbind option_bind].
  rewrite (proj1 Henc), Nat.eqb_refl. cbn [py_assert mbind option_bind].
  rewrite (proj2 (Z.leb_le 1 (Z.of_nat gml))) by lia.
  cbn [py_assert mbind option_bind]. rewrite Nat2Z.id.
  change (mkGenState _ _ _ _ _ _) with (gen_init M bs gml).
  rewrite Hloop. cbn [mbind option_bind]. rewrite Hcount, Nat.eqb_refl.
  cbn [py_assert mbind option_bind].
  eexists _, _. split; [done |]. split; [by rewrite length_map |].
  split; [done |]. intros s Hs.
  destruct (Hcols s Hs)
    as (e & ws & He & Hlen & Hle & Hcol & Hws & Hall & Hhid & Hemit & Hend).
  assert (Hlk : generated st' !! s = Some (col_of st' s)).
  { unfold col_of. rewrite <- Hlg in Hs.
    by destruct (lookup_lt_is_Some_2 _ s Hs) as [col ->]. }
  assert (Hlk' : gen_len st' !! s = Some (len_of st' s)).
  { unfold len_of. rewrite <- Hll in Hs.
    by destruct (lookup_lt_is_Some_2 _ s Hs) as [gl ->]. }
  exists (take (cur_len st') (col_of st' s)), ws, (cur_len st' - e - 1)%nat.
  split.
  { change (map (take (cur_len st')) (generated st'))
      with (take (cur_len st') <$> generated st').
    by rewrite list_lookup_fmap, Hlk. }
  assert (Htake : take (cur_len st') (col_of st' s)
                  = eos_index M :: ws ++ eos_index M
                      :: replicate (cur_len st' - e - 1) (pad_index M)).
  { rewrite Hcol. apply take_column; [done | done | lia]. }
  split; [done |]. split; [eapply Forall_impl; [exact Hall |]; by intros w [? _] |].
  split; [rewrite Htake; by apply count_column |].
  assert (Hgl : len_of st' s = Z.of_nat (length ws) + 2) by (rewrite Hlen, Hws; lia).
  split; [by rewrite Hlk', Hgl |].
  split; [rewrite <- Hgl, <- Hmlof by done; done |].
  assert (Hword : ∀ i, (i < e)%nat →
            next_word M pred src_enc src_len tgt_lang_id sample_temperature
              (gen_len st') s i (take (cur_len st') (col_of st' s))
            = next_word M pred src_enc src_len tgt_lang_id sample_temperature
                (gen_len st') s i (col_of st' s)).
  { intros i Hi. apply next_word_take. rewrite take_take_le by lia. done. }
  split.
  { intros i Hi.
    rewrite (sent_hidden_take M _ _ _ (take (cur_len st') (col_of st' s))
               (col_of st' s) i) by (rewrite take_take_le by lia; done).
    by apply Hhid. }
  split.
  - intros i w Hi. pose proof (lookup_lt_Some _ _ _ Hi).
    rewrite Hword by lia. by apply Hemit.
  - rewrite Hword by lia. rewrite <- Hmlof by done.
    destruct Hend as [Hend | Hend]; [by left | right; lia].
Qed.

End generate_result.

(** *** Instances *)

(** Two sources of three positions. *)
Definition toy_src2 : list (list (list Z)) := [[[5]; [6]; [7]]; [[8]; [9]; [4]]].

Lemma toy_pred_length (h : list Z) : length (toy_pred h) = 4%nat.
Proof. destruct h as [|[|[p|p|]|p] [|z h]]; reflexivity. Qed.

Lemma toy_lang_ok : lang_ok (toy_model toy_pred) 1.
Proof. right. split; [simpl; lia | reflexivity]. Qed.

Lemma toy_src2_rect : rect 2 3 toy_src2.
Proof. split; [reflexivity | repeat constructor]. Qed.

Lemma generate_two_eos_witness :
  ∃ out lens,
    @generate _ _ unit_backend (toy_model toy_pred) toy_src2 [3; 3] 1
      (MaxTensor [2; 6]) None = Some (out, lens)
    ∧ length out = 2%nat
    ∧ length lens = 2%nat
    ∧ ∀ s, (s < 2)%nat →
        ∃ col ws (n : nat),
          out !! s = Some col
          ∧ col = 1 :: ws ++ 1 :: replicate n 2
          ∧ Forall (λ w, w ≠ 1) ws
          ∧ filter (λ x, x = 1) col = [1; 1]
          ∧ lens !! s = Some (Z.of_nat (length ws) + 2)
          ∧ Z.of_nat (length ws) + 2 <= max_length_of (MaxTensor [2; 6]) s
          ∧ (∀ i, (i ≤ length ws)%nat →
               is_Some (sent_hidden (toy_model toy_pred) (enc_of toy_src2 s)
                          (sl_of [3; 3] s) 1 col i))
          ∧ (∀ i w, ws !! i = Some w →
               w = @next_word _ _ unit_backend (toy_model toy_pred) toy_pred toy_src2
                     [3; 3] 1 None lens s i col)
          ∧ (@next_word _ _ unit_backend (toy_model toy_pred) toy_pred toy_src2
               [3; 3] 1 None lens s (length ws) col = 1
             ∨ Z.of_nat (length ws) + 2 = max_length_of (MaxTensor [2; 6]) s).
Proof.
  apply (@generate_two_eos _ _ unit_backend (toy_model toy_pred) toy_pred toy_src2
           [3; 3] 1 (MaxTensor [2; 6]) None 3).
  - reflexivity.
  - reflexivity.
  - exact toy_pred_length.
  - reflexivity.
  - discriminate.
  - exact toy_lang_ok.
  - simpl. lia.
  - exact toy_src2_rect.
  - split; [reflexivity |]. repeat constructor; unfold N_MAX_POSITIONS; lia.
  - discriminate.
Defined.

(** The second iteration of that run: the first sentence has been ended at
    its maximum length, the mask has changed, and the cache of the two
    sentences is cut down to the second one. *)
Lemma cache_refiltered_witness :
  ∃ st,
    gen_head (H0 := unit_backend) (toy_model toy_pred) toy_src2 [3; 3] 1 [2; 6]
      None 2 6 st
    ∧ previous_unfinished_mask st = [true; true]
    ∧ unfinished_mask_of st = [false; true]
    ∧ ∃ c c',
        gen_cache st = Some c
        ∧ step_cache st = Some (Some c')
        ∧ (unfinished_mask_of st ≠ previous_unfinished_mask st →
           cache_kv c'
           = (λ e, (select_rows
                      (select_rows (previous_unfinished_mask st)
                         (unfinished_mask_of st)) e.1,
                    select_rows
                      (select_rows (previous_unfinished_mask st)
                         (unfinished_mask_of st)) e.2)) <$> cache_kv c)
        ∧ (unfinished_mask_of st = previous_unfinished_mask st → c' = c)
        ∧ cache_slen c' = Z.of_nat (cur_len st - 1)
        ∧ cache_rows (cache_kv c') (length (active (unfinished_mask_of st)))
            (idx_fun (active (unfinished_mask_of st))
               (sent_ref (toy_model toy_pred) toy_src2 [3; 3] 1 st (cur_len st - 1)))
        ∧ ∃ st',
            generate_step (H0 := unit_backend) (toy_model toy_pred) toy_src2 [3; 3]
              (replicate 2 (map Z.of_nat (seq 0 6))) (replicate 2 (replicate 6 1))
              [2; 6] None st = Some st'.
Proof.
  eexists. split.
  { eapply head_next; [apply head_init | vm_compute; reflexivity | |].
    - vm_compute. discriminate.
    - vm_compute. lia. }
  split; [reflexivity |]. split; [reflexivity |].
  apply (@cache_refiltered _ _ unit_backend (toy_model toy_pred) toy_pred toy_src2
           [3; 3] 1 [2; 6] None 2 6 3).
  - reflexivity.
  - reflexivity.
  - exact toy_pred_length.
  - simpl. lia.
  - reflexivity.
  - exact toy_lang_ok.
  - unfold N_MAX_POSITIONS. lia.
  - exact toy_src2_rect.
  - reflexivity.
  - reflexivity.
  - discriminate.
  - lia.
  - repeat constructor; lia.
  - eapply head_next; [apply head_init | vm_compute; reflexivity | |].
    + vm_compute. discriminate.
    + vm_compute. lia.
Defined.

(** ** Beam search: the hypothesis pools *)

Section pool_shape.
Context `{NumericBackend}.

(** [add] returns whenever the length normaliser is defined and not zero;
    the pool then holds one more hypothesis, or as many as before once it is
    full, and every hypothesis it holds was there before or is the new one. *)
Lemma add_shape (p : BeamHypotheses) (h : list Z) (s d : Q) :
  (1 ≤ n_hyp p)%nat → (length (hyp p) ≤ n_hyp p)%nat →
  float_pow (Z.of_nat (length h)) (length_penalty p) = Some d → ¬ (d == 0)%Q →
  ∃ p',
    add p h s = Some p'
    ∧ length (hyp p') = (n_hyp p `min` (length (hyp p) + 1))%nat
    ∧ ∀ e, e ∈ hyp p' → e ∈ hyp p ∨ e.2 = h.
Proof.
  intros Hn Hlen Hd Hd0. unfold add. rewrite Hd. cbn [mbind option_bind].
  rewrite py_div_Some by done. cbn [mbind option_bind].
  set (score := (s / d)%Q).
  destruct ((length (hyp p) <? n_hyp p)%nat || Qlt_bool (worst_score p) score) eqn:E.
  - set (hyp1 := hyp p ++ [(score, h)]).
    assert (Hl1 : length hyp1 = S (length (hyp p))).
    { unfold hyp1. rewrite length_app. simpl. lia. }
    assert (Hin1 : ∀ e, e ∈ hyp1 → e ∈ hyp p ∨ e.2 = h).
    { intros e He. apply elem_of_app in He as [He | He]; [by left | right].
      apply list_elem_of_singleton in He. by subst e. }
    destruct (Nat.ltb_spec (n_hyp p) (length hyp1)) as [Hfull | Hroom].
    + set (sorted := sorted_by score_idx_le (imap (λ idx e, (e.1, idx)) hyp1)).
      assert (Hls : length sorted = length hyp1).
      { unfold sorted. by rewrite sorted_by_length, length_imap. }
      destruct (lookup_lt_is_Some_2 sorted 0) as [lowest Hlow]; [lia |].
      destruct (lookup_lt_is_Some_2 sorted 1) as [second Hsec]; [lia |].
      rewrite Hlow, Hsec. cbn [mbind option_bind].
      assert (Hidx : (lowest.2 < length hyp1)%nat).
      { apply list_elem_of_lookup_2 in Hlow. unfold sorted in Hlow.
        rewrite sorted_by_perm in Hlow.
        apply elem_of_lookup_imap in Hlow as (i & e & -> & Hi).
        simpl. by eapply lookup_lt_Some. }
      unfold py_del. rewrite (proj2 (Nat.ltb_lt _ _) Hidx).
      cbn [mbind option_bind]. eexists. split; [done |].
      cbn [set_hyp hyp]. split.
      * rewrite length_delete by (by apply lookup_lt_is_Some). lia.
      * intros e He. apply elem_of_delete_lookup in He as (j & _ & Hj).
        apply Hin1. by eapply list_elem_of_lookup_2.
    + eexists. split; [done |]. cbn [set_hyp hyp]. split; [lia | done].
  - apply orb_false_iff in E as [E _]. apply Nat.ltb_ge in E.
    exists p. split; [done |]. split; [lia |]. by left.
Qed.

End pool_shape.

(** ** Beam search: the candidates *)




(** ** Beam search: the loop of generate_beam *)

Section beam.
Context {H KV : Type} `{NumericBackend}.
Local Abbreviation RowCache := (gmap nat (list KV * list KV)).
Variables (M : @TransformerModel H KV) (pred : H → list Q).
Variables (src_enc : list (list H)) (src_len : list Z) (lang : Z).
Variables (beam_size : nat) (lp : Q) (es : bool) (bs gml L : nat).





Hypothesis Hwords : (2 ≤ n_words M)%nat.
Hypothesis Heos : tok_ok M (eos_index M).
Hypothesis Hpadok : tok_ok M (pad_index M).
Hypothesis Hpad : eos_index M ≠ pad_index M.
Hypothesis Hbs : (0 < bs)%nat.
Hypothesis Hbeam : (1 ≤ beam_size)%nat.
Hypothesis Hpow : ∀ n : nat, (1 ≤ n ≤ gml)%nat →
  ∃ d, float_pow (Z.of_nat n) lp = Some d ∧ ¬ (d == 0)%Q.






Hypothesis Hgml : (2 ≤ gml)%nat.






(** *** Gathers and chunks *)








(** *** One iteration *)

Hypothesis Hdec : is_decoder M = true.
Hypothesis Hpred : pred_layer M = Some pred.
Hypothesis Hpred_len : ∀ h, length (pred h) = n_words M.
Hypothesis Hlang : lang_ok M lang.
Hypothesis Hpos : Z.of_nat gml <= N_MAX_POSITIONS.
Hypothesis Henc : rect bs L src_enc.
Hypothesis Hsl : length src_len = bs.

Local Abbreviation enc_x := (concat (map (replicate beam_size) src_enc)).
Local Abbreviation sl_x := (concat (map (replicate beam_size) src_len)).
Local Abbreviation positions := (replicate (bs * beam_size) (map Z.of_nat (seq 0 gml))).
Local Abbreviation langs := (replicate (bs * beam_size) (replicate gml lang)).








(** *** The loop *)




(** *** The selection of the best hypotheses *)







(** *** The result of generate_beam *)



End beam.

(** *** Instance *)



(** * Further properties of the code *)

(** ** get_masks *)

(** get_masks raises exactly when [lengths] is empty ([lengths.max()] of an
    empty tensor) or some length exceeds [slen] (the first assertion),
    whatever [causal] is. *)
Theorem get_masks_raises (slen : nat) (lengths : list Z) (causal : bool) :
  get_masks slen lengths causal = None
  ↔ lengths = [] ∨ ∃ len, len ∈ lengths ∧ Z.of_nat slen < len.
Proof.
  unfold get_masks. destruct lengths as [|l0 ls].
  - split; [by left | done].
  - destruct (max_list_spec (l0 :: ls)) as (mx & Hmx & Hin & Hle); [done |].
    rewrite Hmx. cbn [mbind option_bind].
    destruct (Z.leb_spec mx (Z.of_nat slen)) as [Hok | Hbad];
      cbn [py_assert mbind option_bind].
    + split; [done |]. intros [? | (len & Hlen & Hgt)]; [done |].
      specialize (Hle len Hlen). lia.
    + split; [| done]. intros _. right. by exists mx.
Qed.

(** Without [causal], the attention mask get_masks returns is the mask of
    the hidden states itself: of shape (bs, slen), true at (b, t) exactly
    when [t] is below the length of sentence [b]. *)
Theorem get_masks_padding (slen : nat) (lengths : list Z) :
  lengths ≠ [] →
  (∀ len, len ∈ lengths → len <= Z.of_nat slen) →
  ∃ mask,
    get_masks slen lengths false = Some (mask, Mask2 mask)
    ∧ length mask = length lengths
    ∧ Forall (λ row, length row = slen) mask
    ∧ ∀ b t len, lengths !! b = Some len → (t < slen)%nat →
        entry2 mask b t = Some (bool_decide (Z.of_nat t < len)).
Proof.
  intros Hne Hle. unfold get_masks.
  destruct (max_list_spec lengths Hne) as (mx & -> & Hin & _). simpl.
  rewrite (proj2 (Z.leb_le _ _)) by (by apply Hle). simpl.
  eexists. split; [done |].
  split; [by unfold length_mask; rewrite length_fmap |]. split.
  - unfold length_mask. apply Forall_map, Forall_forall. intros len _.
    by rewrite length_map, length_seq.
  - intros b t len Hb Ht.
    rewrite (lookup_length_mask _ _ b t len t Hb) by (by apply lookup_seq_lt).
    f_equal. destruct (Z.ltb_spec (Z.of_nat t) len).
    + by rewrite bool_decide_eq_true_2.
    + by rewrite bool_decide_eq_false_2 by lia.
Qed.

Lemma get_masks_padding_witness :
  ∃ mask,
    get_masks 3 [1; 3] false = Some (mask, Mask2 mask)
    ∧ length mask = length [1; 3]
    ∧ Forall (λ row, length row = 3%nat) mask
    ∧ ∀ b t len, [1; 3] !! b = Some len → (t < 3)%nat →
        entry2 mask b t = Some (bool_decide (Z.of_nat t < len)).
Proof.
  apply (get_masks_padding 3 [1; 3]); [done |].
  intros len Hlen. repeat (apply elem_of_cons in Hlen as [-> | Hlen]; [lia |]).
  by apply elem_of_nil in Hlen.
Defined.

(** ** The incremental pass: the rows of a batch are independent *)

Section pass_rows.
Context {H KV : Type}.
Local Abbreviation RowCache := (gmap nat (list KV * list KV)).
Implicit Types (M : @TransformerModel H KV) (c : @Cache KV).

Lemma cache_rows_row (kvs : gmap nat (list (list KV) * list (list KV))) bs
    (rc : nat → RowCache) b :
  cache_rows kvs bs rc → (b < bs)%nat → cache_row kvs b = rc b.
Proof.
  intros Hc Hb. apply map_eq. intros id. unfold cache_row. rewrite lookup_fmap.
  specialize (Hc id). destruct (kvs !! id) as [e |]; cbn [fmap option_fmap option_map].
  - destruct Hc as ([_ H1] & [_ H2] & H3).
    destruct (H3 b Hb) as [[k v] Hkv]. rewrite (H1 b Hb), (H2 b Hb), Hkv. done.
  - by rewrite Hc.
Qed.

(** A call of the pass as the decoders make it: a decoder, a non-empty batch
    of [bs] rows of [slen] tokens of the vocabulary, of which [cs] are
    already in the cache, with their positions and language ids, the
    lengths, and the encoded sources of [S] positions. *)
Definition valid_pass M c (x : list (list Z)) (lengths : list Z)
    (enc : list (list H)) (sl : list Z) (pos lang : list (list Z))
    (bs slen cs S : nat) : Prop :=
  is_decoder M = true ∧ (0 < bs)%nat ∧ (cs < slen)%nat
  ∧ rect bs slen x ∧ length lengths = bs
  ∧ Forall (λ len, len <= Z.of_nat slen) lengths
  ∧ rect bs S enc ∧ length sl = bs ∧ rect bs slen pos ∧ rect bs slen lang
  ∧ Forall (Forall (tok_ok M)) x ∧ Forall (Forall pos_ok) pos
  ∧ Forall (Forall (lang_ok M)) lang
  ∧ cache_ok M c bs cs S.

(** The hidden states and the cache the pass returns for a row depend on
    that row alone: two batches, of whatever sizes, that agree on a row
    (tokens, length, positions, language ids, source, and the row's share
    of the cache) get the same hidden states and the same share of the new
    cache for it. *)
Theorem fwd_row_independent M c1 c2 x1 x2 lengths1 lengths2 enc1 enc2 sl1 sl2
    pos1 pos2 lang1 lang2 (bs1 bs2 slen cs S b1 b2 : nat) :
  valid_pass M c1 x1 lengths1 enc1 sl1 pos1 lang1 bs1 slen cs S →
  valid_pass M c2 x2 lengths2 enc2 sl2 pos2 lang2 bs2 slen cs S →
  (b1 < bs1)%nat → (b2 < bs2)%nat →
  x1 !! b1 = x2 !! b2 → lengths1 !! b1 = lengths2 !! b2 →
  enc1 !! b1 = enc2 !! b2 → sl1 !! b1 = sl2 !! b2 →
  pos1 !! b1 = pos2 !! b2 → lang1 !! b1 = lang2 !! b2 →
  cache_row (cache_kv c1) b1 = cache_row (cache_kv c2) b2 →
  ∃ out1 c1' out2 c2' row,
    fwd M (Some c1) x1 lengths1 true (Some enc1) (Some sl1) (Some pos1)
      (Some lang1) true = Some (out1, Some c1')
    ∧ fwd M (Some c2) x2 lengths2 true (Some enc2) (Some sl2) (Some pos2)
        (Some lang2) true = Some (out2, Some c2')
    ∧ out1 !! b1 = Some row ∧ out2 !! b2 = Some row
    ∧ cache_row (cache_kv c1') b1 = cache_row (cache_kv c2') b2.
Proof.
  intros (Hd & Hbs1 & Hcs & Hx1 & Hl1 & Hle1 & He1 & Hs1 & Hp1 & Hg1 & Ht1 & Hpo1 & Hlo1 & Hc1)
         (_ & Hbs2 & _ & Hx2 & Hl2 & Hle2 & He2 & Hs2 & Hp2 & Hg2 & Ht2 & Hpo2 & Hlo2 & Hc2)
         Hb1 Hb2 Hx Hl He Hs Hp Hg Hc.
  destruct (fwd_cached_spec M c1 x1 lengths1 enc1 sl1 pos1 lang1 bs1 slen cs S)
    as (out1 & c1' & Hrun1 & _ & _ & Hout1 & Hkv1); try done.
  destruct (fwd_cached_spec M c2 x2 lengths2 enc2 sl2 pos2 lang2 bs2 slen cs S)
    as (out2 & c2' & Hrun2 & _ & _ & Hout2 & Hkv2); try done.
  eexists out1, c1', out2, c2', _. split; [done |]. split; [done |].
  split; [apply (proj2 Hout1 b1 Hb1) |]. split.
  - rewrite (proj2 Hout2 b2 Hb2). by rewrite Hx, Hl, He, Hs, Hp, Hg, Hc.
  - rewrite (cache_rows_row _ _ _ b1 Hkv1 Hb1), (cache_rows_row _ _ _ b2 Hkv2 Hb2).
    by rewrite Hx, Hl, He, Hs, Hp, Hg, Hc.
Qed.

End pass_rows.

(** The second row of a batch of two and the same row alone. *)
Lemma fwd_row_independent_witness :
  ∃ out1 c1' out2 c2' row,
    fwd (toy_model toy_pred) (Some empty_cache) [[1; 0]; [1; 3]] [2; 2] true
      (Some toy_src2) (Some [3; 3]) (Some [[0; 1]; [0; 1]])
      (Some [[1; 1]; [1; 1]]) true = Some (out1, Some c1')
    ∧ fwd (toy_model toy_pred) (Some empty_cache) [[1; 3]] [2] true
        (Some [[[8]; [9]; [4]]]) (Some [3]) (Some [[0; 1]])
        (Some [[1; 1]]) true = Some (out2, Some c2')
    ∧ out1 !! 1%nat = Some row ∧ out2 !! 0%nat = Some row
    ∧ cache_row (cache_kv c1') 1 = cache_row (cache_kv c2') 0.
Proof.
  apply (fwd_row_independent (toy_model toy_pred) empty_cache empty_cache
           [[1; 0]; [1; 3]] [[1; 3]] [2; 2] [2] toy_src2 [[[8]; [9]; [4]]]
           [3; 3] [3] [[0; 1]; [0; 1]] [[0; 1]] [[1; 1]; [1; 1]] [[1; 1]]
           2 1 2 0 3 1 0); try reflexivity; try lia.
  - unfold valid_pass. do 13 (split; [toy_side |]). toy_side.
  - unfold valid_pass. do 13 (split; [toy_side |]). toy_side.
Defined.

(** ** The checks of fwd *)

Section pass_checks.
Context {H KV : Type}.
Implicit Types (M : @TransformerModel H KV).

Lemma py_assert_Some {A} (b : bool) (k : unit → option A) (r : A) :
  (py_assert b ≫= k) = Some r → b = true ∧ k () = Some r.
Proof. destruct b; [done | discriminate]. Qed.

(** fwd never returns on an input its checks reject: a result means that a
    cache was there if asked for, that there is one length for every column
    of [x] and none exceeds the number of steps, that the encoded source and
    its lengths were given together, to a decoder, one for every column, and
    that positions and language ids, when given, have the shape of [x]. *)
Theorem fwd_checks M (cache : option (@Cache KV)) (x : list (list Z))
    (lengths : list Z) (causal : bool) (src_enc : option (list (list H)))
    (src_len : option (list Z)) (positions langs : option (list (list Z)))
    (use_cache : bool) r :
  fwd M cache x lengths causal src_enc src_len positions langs use_cache = Some r →
  (use_cache = true → is_Some cache)
  ∧ length lengths = length x
  ∧ lengths ≠ []
  ∧ (∀ len, len ∈ lengths → len <= Z.of_nat (dim1 x))
  ∧ (is_Some src_enc ↔ is_Some src_len)
  ∧ (∀ enc, src_enc = Some enc → is_decoder M = true ∧ length enc = length x)
  ∧ (∀ p, positions = Some p → has_shape (length x) (dim1 x) p = true)
  ∧ (∀ l, langs = Some l → has_shape (length x) (dim1 x) l = true).
Proof.
  unfold fwd. intros Hrun.
  apply py_assert_Some in Hrun as [Hcache Hrun].
  apply py_assert_Some in Hrun as [Hlen Hrun].
  destruct (max_list lengths) as [mx |] eqn:Hmx; [| done].
  cbn [mbind option_bind] in Hrun.
  apply py_assert_Some in Hrun as [Hmax Hrun].
  apply py_assert_Some in Hrun as [Hboth Hrun].
  apply py_assert_Some in Hrun as [Hsrc Hrun].
  destruct (get_masks (dim1 x) lengths causal) as [[mask attn_mask] |]; [| done].
  cbn [mbind option_bind] in Hrun.
  destruct (checked_arg (length x) (dim1 x) positions) as [pos' |] eqn:Hpos; [| done].
  cbn [mbind option_bind] in Hrun.
  destruct (checked_arg (length x) (dim1 x) langs) as [lang' |] eqn:Hlang; [| done].
  clear Hrun.
  assert (Hne : lengths ≠ []) by (by intros ->).
  split.
  { intros ->. simpl in Hcache. apply negb_true_iff, negb_false_iff in Hcache.
    by apply bool_decide_eq_true in Hcache. }
  split; [by apply Nat.eqb_eq |]. split; [done |]. split.
  { intros len Hin. destruct (max_list_spec lengths Hne) as (mx' & Hmx' & _ & Hle).
    assert (mx' = mx) by congruence. subst mx'.
    apply Z.leb_le in Hmax. specialize (Hle len Hin). lia. }
  split.
  { apply Bool.eqb_prop in Hboth.
    split; intros Hs.
    - rewrite (bool_decide_eq_true_2 _ Hs) in Hboth. symmetry in Hboth.
      by apply bool_decide_eq_true in Hboth.
    - rewrite (bool_decide_eq_true_2 _ Hs) in Hboth.
      by apply bool_decide_eq_true in Hboth. }
  split.
  { intros enc ->. rewrite bool_decide_eq_true_2 in Hsrc by done.
    cbn [negb orb default from_option id] in Hsrc.
    apply andb_true_iff in Hsrc as [Hd Hl]. split; [done | by apply Nat.eqb_eq]. }
  split.
  - intros p ->. cbn [checked_arg] in Hpos. by destruct (has_shape _ _ p).
  - intros l ->. cbn [checked_arg] in Hlang. by destruct (has_shape _ _ l).
Qed.

End pass_checks.

Lemma fwd_checks_witness :
  (true = true → is_Some (Some (@empty_cache Z)))
  ∧ length [2] = length [[1; 0]]
  ∧ [2] ≠ []
  ∧ (∀ len, len ∈ [2] → len <= Z.of_nat (dim1 [[1; 0]]))
  ∧ (is_Some (Some toy_src) ↔ is_Some (Some [3]))
  ∧ (∀ enc, Some toy_src = Some enc →
       is_decoder (toy_model toy_pred) = true ∧ length enc = length [[1; 0]])
  ∧ (∀ p, Some [[0; 1]] = Some p →
       has_shape (length [[1; 0]]) (dim1 [[1; 0]]) p = true)
  ∧ (∀ l, Some [[1; 1]] = Some l →
       has_shape (length [[1; 0]]) (dim1 [[1; 0]]) l = true).
Proof.
  eapply (fwd_checks (toy_model toy_pred) (Some empty_cache) [[1; 0]] [2] true
            (Some toy_src) (Some [3]) (Some [[0; 1]]) (Some [[1; 1]]) true).
  vm_compute. reflexivity.
Defined.

(** ** Maximum lengths too small for a sentence *)

Section short_max_len.
Context {H KV : Type} `{NumericBackend}.
Implicit Types (M : @TransformerModel H KV).

Lemma count_tok_start (tok : Z) (bs : nat) :
  count_tok tok (replicate bs [tok]) = bs.
Proof.
  unfold count_tok. induction bs as [|bs IH]; [done |].
  cbn [replicate concat app]. rewrite filter_cons_True by done.
  cbn [length]. by rewrite IH.
Qed.

(** With a maximum length of 1 or less generate raises on every non-empty
    batch, whatever the model: there is no room for an end marker after the
    start marker, the loop does not run, and the final check on the number of
    end markers fails (a maximum below 1 already fails when the start marker
    is written). *)
Theorem generate_max_len_one M (src_enc : list (list H)) (src_len : list Z)
    (tgt_lang_id n : Z) (sample_temperature : option Q) :
  n <= 1 → src_len ≠ [] →
  generate M src_enc src_len tgt_lang_id (MaxInt n) sample_temperature = None.
Proof.
  intros Hn Hne. unfold generate. cbn [mbind option_bind].
  destruct (length src_enc =? length src_len)%nat; [| done].
  cbn [py_assert mbind option_bind].
  destruct (Z.leb_spec 1 n) as [Hle | Hlt]; [| done].
  assert (n = 1) by lia. subst n.
  cbn [py_assert mbind option_bind]. change (Z.to_nat 1) with 1%nat.
  cbn [Nat.sub generate_loop mbind option_bind generated replicate].
  rewrite count_tok_start.
  destruct src_len as [|l ls]; [done |]. cbn [length].
  rewrite (proj2 (Nat.eqb_neq _ _)) by lia. done.
Qed.

(** generate_beam raises when the beam is empty, when the encoded sources
    and their lengths differ in number, and, on a non-empty batch, when the
    maximum length is 1 or less: no iteration runs, the pools stay empty,
    and the longest hypothesis of an empty pool is asked for. *)
Theorem generate_beam_rejects M (src_enc : list (list H)) (src_len : list Z)
    (tgt_lang_id : Z) (beam_size : nat) (length_penalty : Q)
    (early_stopping : bool) (n : Z) :
  beam_size = 0%nat ∨ length src_enc ≠ length src_len ∨ (n <= 1 ∧ src_len ≠ []) →
  generate_beam M src_enc src_len tgt_lang_id beam_size length_penalty
    early_stopping (MaxInt n) = None.
Proof.
  intros Hbad. unfold generate_beam. cbn [mbind option_bind].
  destruct (Nat.eqb_spec (length src_enc) (length src_len)) as [Hlen | Hlen];
    [| done].
  cbn [py_assert mbind option_bind].
  destruct (Nat.leb_spec 1 beam_size) as [Hbeam | Hbeam]; [| done].
  cbn [py_assert mbind option_bind].
  destruct Hbad as [-> | [Hbad | [Hn Hne]]]; [lia | done |].
  destruct (Z.leb_spec 1 n) as [Hle | Hlt]; [| done].
  assert (n = 1) by lia. subst n.
  cbn [py_assert mbind option_bind]. change (Z.to_nat 1) with 1%nat.
  cbn [Nat.sub beam_loop mbind option_bind generated_hyps].
  destruct src_len as [|l ls]; [done |].
  cbn [length replicate map BeamHypotheses_init hyp sorted_by foldr fmap list_fmap
       mapM max_list mbind option_bind].
  done.
Qed.

End short_max_len.

Lemma generate_max_len_one_witness :
  @generate _ _ unit_backend (toy_model toy_pred) toy_src [3] 1 (MaxInt 1) None = None.
Proof.
  apply (@generate_max_len_one _ _ unit_backend (toy_model toy_pred) toy_src [3] 1 1
           None); [lia | done].
Defined.

Lemma generate_beam_rejects_witness :
  @generate_beam _ _ unit_backend (toy_model toy_pred) toy_src [3] 1 2 1%Q false
    (MaxInt 1) = None.
Proof.
  apply (@generate_beam_rejects _ _ unit_backend (toy_model toy_pred) toy_src [3] 1 2
           1%Q false 1).
  right. right. split; [lia | done].
Defined.

(** ** When add returns *)

Section add_returns.
Context `{NumericBackend}.

(** On a pool of at most [n_hyp] hypotheses, with [n_hyp] at least 1, add
    returns exactly when the length normaliser [len(hyp) ** length_penalty]
    is a number other than zero; otherwise it raises (the power, or the
    division by zero).  Sorting the scores and deleting the worst
    hypothesis never fail.  After add the pool holds one hypothesis more,
    or [n_hyp] of them once it is full, each of them there before or the
    new one. *)
Theorem add_returns (p : BeamHypotheses) (h : list Z) (s : Q) :
  (1 ≤ n_hyp p)%nat → (length (hyp p) ≤ n_hyp p)%nat →
  (is_Some (add p h s)
   ↔ ∃ d, float_pow (Z.of_nat (length h)) (length_penalty p) = Some d
          ∧ ¬ (d == 0)%Q)
  ∧ ∀ p', add p h s = Some p' →
      length (hyp p') = (n_hyp p `min` (length (hyp p) + 1))%nat
      ∧ ∀ e, e ∈ hyp p' → e ∈ hyp p ∨ e.2 = h.
Proof.
  intros Hn Hlen.
  assert (Hif : is_Some (add p h s) →
            ∃ d, float_pow (Z.of_nat (length h)) (length_penalty p) = Some d
                 ∧ ¬ (d == 0)%Q).
  { unfold add. intros [p' Hadd].
    destruct (float_pow _ _) as [d |]; [| done]. exists d. split; [done |].
    cbn [mbind option_bind] in Hadd. unfold py_div in Hadd.
    destruct (Qeq_bool d 0) eqn:E; [done |]. by apply Qeq_bool_false. }
  split.
  - split; [done |]. intros (d & Hd & Hd0).
    destruct (add_shape p h s d Hn Hlen Hd Hd0) as (p' & -> & _). done.
  - intros p' Hadd. destruct Hif as (d & Hd & Hd0); [by rewrite Hadd |].
    destruct (add_shape p h s d Hn Hlen Hd Hd0) as (p'' & Hadd' & Hl & Hin).
    assert (p'' = p') by congruence. by subst p''.
Qed.

End add_returns.

Lemma add_returns_witness :
  (is_Some (@add unit_backend pool_example [1; 5] (-1 # 2))
   ↔ ∃ d, float_pow (NumericBackend := unit_backend) (Z.of_nat (length [1; 5]))
            (length_penalty pool_example) = Some d
          ∧ ¬ (d == 0)%Q)
  ∧ ∀ p', @add unit_backend pool_example [1; 5] (-1 # 2) = Some p' →
      length (hyp p')
      = (n_hyp pool_example `min` (length (hyp pool_example) + 1))%nat
      ∧ ∀ e, e ∈ hyp p' → e ∈ hyp pool_example ∨ e.2 = [1; 5].
Proof.
  apply (@add_returns unit_backend pool_example [1; 5] (-1 # 2)); simpl; lia.
Defined.

(** ** Greedy decoding of a batch and of its sentences alone *)

Section generate_alone.
Context {H KV : Type} `{NumericBackend}.
Implicit Types (M : @TransformerModel H KV).

(** generate without sampling and with an integer maximum length, sentence
    by sentence. *)
Lemma generate_int_alone M (pred : H → list Q) (src_enc : list (list H))
    (src_len : list Z) (lang n : Z) (L : nat) :
  is_decoder M = true → pred_layer M = Some pred →
  (∀ h, length (pred h) = n_words M) →
  tok_ok M (eos_index M) → eos_index M ≠ pad_index M → lang_ok M lang →
  (0 < length src_len)%nat → rect (length src_len) L src_enc →
  2 <= n <= N_MAX_POSITIONS →
  ∃ out lens k,
    generate M src_enc src_len lang (MaxInt n) None = Some (out, lens)
    ∧ length out = length src_len ∧ length lens = length src_len
    ∧ ∀ s, (s < length src_len)%nat →
        ∃ ws (pads : nat),
          (ref_run M pred lang (Z.to_nat n) (enc_of src_enc s) (sl_of src_len s) n k).2
          = 0
          ∧ out !! s = Some (eos_index M :: ws ++ eos_index M
                               :: replicate pads (pad_index M))
          ∧ lens !! s = Some (Z.of_nat (length ws) + 2)
          ∧ Forall (λ w, w ≠ eos_index M) ws
          ∧ (ref_run M pred lang (Z.to_nat n) (enc_of src_enc s) (sl_of src_len s)
               n k).1
            = (eos_index M :: ws ++ eos_index M
                 :: replicate (Z.to_nat n - length ws - 2) (pad_index M),
               Z.of_nat (length ws) + 2).
Proof.
  intros Hdec Hpred Hpl Heos Hpad Hlang Hbs Henc Hn.
  set (bs := length src_len) in *. set (gml := Z.to_nat n).
  assert (Hwords : (0 < n_words M)%nat).
  { unfold tok_ok, in_range in Heos. apply andb_true_iff in Heos as [H1 H2].
    apply Z.leb_le in H1. apply Z.ltb_lt in H2. lia. }
  destruct (generate_loop_alone M pred src_enc src_len lang (replicate bs n) None
              bs gml L)
    as (st' & k & Hloop & Hcount & Hcur & Hk & Hlg & Hll & Hs); try done.
  { unfold gml. lia. }
  { by rewrite length_replicate. }
  { apply Forall_replicate. unfold gml. lia. }
  assert (Hrun : generate M src_enc src_len lang (MaxInt n) None
                 = Some (map (take (S k)) (generated st'), gen_len st')).
  { unfold generate. fold bs. cbn [mbind option_bind].
    rewrite (proj1 Henc), Nat.eqb_refl. cbn [py_assert mbind option_bind].
    rewrite (proj2 (Z.leb_le 1 n)) by lia. cbn [py_assert mbind option_bind].
    fold gml. change (mkGenState _ _ _ _ _ _) with (gen_init M bs gml).
    rewrite Hloop. cbn [mbind option_bind]. rewrite Hcount, Nat.eqb_refl.
    cbn [py_assert mbind option_bind]. by rewrite Hcur. }
  eexists _, _, k. split; [exact Hrun |]. split; [by rewrite length_map |].
  split; [done |]. intros s Hsb.
  destruct (Hs s Hsb) as (Hu & Hcol & Hlen & e & ws & He & Hgl & Hc & Hws & Hall).
  assert (Hml : ml_of (replicate bs n) s = n).
  { unfold ml_of. by rewrite lookup_replicate_2. }
  rewrite Hml in *.
  exists ws, (S k - e - 1)%nat. split; [done |]. split.
  { change (map (take (S k)) (generated st')) with (take (S k) <$> generated st').
    rewrite list_lookup_fmap, Hcol. cbn [fmap option_fmap option_map]. f_equal.
    rewrite Hc. apply take_column; [done | done | lia]. }
  split; [rewrite Hlen, Hgl, Hws; f_equal; lia |].
  split; [eapply Forall_impl; [exact Hall |]; by intros w [? _] |].
  destruct (ref_run M pred lang gml (enc_of src_enc s) (sl_of src_len s) n k)
    as [[col gl] u]. cbn [fst snd] in *. subst col gl.
  replace (gml - length ws - 2)%nat with (gml - e - 1)%nat by lia.
  f_equal. lia.
Qed.

(** Greedy decoding treats the sentences of a batch independently: decoded
    in a batch or alone (with the same integer maximum length), a sentence
    gets the same tokens up to and including its end marker, and the same
    length; only the padding behind, which depends on the longest sentence
    of the batch, may differ. *)
Theorem generate_alone M (pred : H → list Q) (src_enc : list (list H))
    (src_len : list Z) (lang n : Z) (L s : nat) (enc : list H) (sl : Z) :
  is_decoder M = true → pred_layer M = Some pred →
  (∀ h, length (pred h) = n_words M) →
  tok_ok M (eos_index M) → eos_index M ≠ pad_index M → lang_ok M lang →
  rect (length src_len) L src_enc →
  2 <= n <= N_MAX_POSITIONS →
  src_enc !! s = Some enc → src_len !! s = Some sl →
  ∃ out lens ws len (pads pads' : nat),
    generate M src_enc src_len lang (MaxInt n) None = Some (out, lens)
    ∧ generate M [enc] [sl] lang (MaxInt n) None
      = Some ([eos_index M :: ws ++ eos_index M :: replicate pads' (pad_index M)],
              [len])
    ∧ out !! s = Some (eos_index M :: ws ++ eos_index M
                         :: replicate pads (pad_index M))
    ∧ lens !! s = Some len
    ∧ Forall (λ w, w ≠ eos_index M) ws
    ∧ len = Z.of_nat (length ws) + 2.
Proof.
  intros Hdec Hpred Hpl Heos Hpad Hlang Henc Hn Hse Hsl.
  assert (Hsb : (s < length src_len)%nat) by (by eapply lookup_lt_Some).
  assert (HL : length enc = L).
  { by eapply (proj1 (Forall_lookup _ _) (proj2 Henc)). }
  destruct (generate_int_alone M pred src_enc src_len lang n L)
    as (out & lens & k & Hrun & _ & _ & Hs); try done; [lia |].
  destruct (generate_int_alone M pred [enc] [sl] lang n L)
    as (out1 & lens1 & k1 & Hrun1 & Hlo1 & Hll1 & Hs1); try done.
  { simpl. lia. }
  { split; [done | by repeat constructor]. }
  destruct (Hs s Hsb) as (ws & pads & Hu & Hout & Hlen & Hne & Href).
  destruct (Hs1 0%nat) as (ws1 & pads1 & Hu1 & Hout1 & Hlen1 & _ & Href1);
    [simpl; lia |].
  assert (He : enc_of src_enc s = enc) by (unfold enc_of; by rewrite Hse).
  assert (Hl : sl_of src_len s = sl) by (unfold sl_of; by rewrite Hsl).
  rewrite He, Hl in Hu, Href.
  change (enc_of [enc] 0) with enc in Hu1, Href1.
  change (sl_of [sl] 0) with sl in Hu1, Href1.
  assert (Hsame : ref_run M pred lang (Z.to_nat n) enc sl n k
                  = ref_run M pred lang (Z.to_nat n) enc sl n k1).
  { destruct (Nat.le_ge_cases k k1).
    - symmetry. by apply ref_run_finished.
    - by apply ref_run_finished. }
  rewrite Hsame, Href1 in Href.
  injection Href as Hcols Hlens.
  assert (Hwl : length ws1 = length ws) by lia.
  apply app_inj_1 in Hcols as [-> _]; [| done].
  exists out, lens, ws, (Z.of_nat (length ws) + 2), pads, pads1.
  split; [done |]. split.
  { rewrite Hrun1. destruct out1 as [|c1 [|? ?]]; try done.
    destruct lens1 as [|l1 [|? ?]]; try done.
    cbn in Hout1, Hlen1. by injection Hout1 as ->; injection Hlen1 as ->. }
  done.
Qed.

End generate_alone.

Lemma generate_alone_witness :
  ∃ out lens ws len (pads pads' : nat),
    @generate _ _ unit_backend (toy_model toy_pred) toy_src2 [3; 3] 1 (MaxInt 6) None
      = Some (out, lens)
    ∧ @generate _ _ unit_backend (toy_model toy_pred) [[[8]; [9]; [4]]] [3] 1
        (MaxInt 6) None
      = Some ([1 :: ws ++ 1 :: replicate pads' 2], [len])
    ∧ out !! 1%nat = Some (1 :: ws ++ 1 :: replicate pads 2)
    ∧ lens !! 1%nat = Some len
    ∧ Forall (λ w, w ≠ 1) ws
    ∧ len = Z.of_nat (length ws) + 2.
Proof.
  apply (@generate_alone _ _ unit_backend (toy_model toy_pred) toy_pred toy_src2
           [3; 3] 1 6 3 1 [[8]; [9]; [4]] 3).
  - reflexivity.
  - reflexivity.
  - exact toy_pred_length.
  - reflexivity.
  - discriminate.
  - exact toy_lang_ok.
  - exact toy_src2_rect.
  - unfold N_MAX_POSITIONS. lia.
  - reflexivity.
  - reflexivity.
Defined.

(** ** Attention over the source with a cache *)

Section cross_attention.
Context {H KV : Type}.

(** Once the cache holds an entry for an attention module, a cached call
    of that module over a source ([kv] given) no longer reads the source:
    it takes keys and values from the cache, so that two sources with the
    same number of positions give the same result, whatever they hold, and
    the cache is left as it is. *)
Theorem cross_attention_cached (m : @MultiHeadAttention H KV) (c : @Cache KV)
    (input : list (list H)) (mask : AttnMask) (kv kv' : list (list H)) e :
  cache_kv c !! layer_id m = Some e →
  dim1 kv = dim1 kv' →
  mha_forward m (Some c) input mask (Some kv) true
  = mha_forward m (Some c) input mask (Some kv') true
  ∧ ∀ out c', mha_forward m (Some c) input mask (Some kv) true = Some (out, c') →
              c' = Some c.
Proof.
  intros He Hdim. unfold mha_forward.
  cbn [mbind option_bind from_option]. rewrite He, Hdim.
  split; [done |].
  intros out c'. cbn [py_assert andb negb mbind option_bind].
  rewrite bool_decide_eq_true_2 by done. cbn [py_assert negb mbind option_bind].
  destruct (view_mask _ _ _ _) as [mask4 |]; [| done].
  cbn [mbind option_bind]. destruct e as [k_ v_]. cbn [mbind option_bind].
  destruct (py_assert _) as [[] |]; [| done]. cbn [mbind option_bind].
  destruct (expand_mask _ _ _) as [mask5 |]; [| done]. cbn [mbind option_bind].
  intros [= _ <-]. cbn [fmap option_fmap option_map]. f_equal.
  rewrite insert_id by done. by destruct c.
Qed.

End cross_attention.

Lemma cross_attention_cached_witness :
  mha_forward (encoder_attn (toy_model toy_pred) 0)
    (Some {| cache_slen := 1; cache_kv := {[1%nat := ([[5; 6]], [[5; 6]])]} |})
    [[[0]]] (Mask2 [[true; true]]) (Some [[[5]; [6]]]) true
  = mha_forward (encoder_attn (toy_model toy_pred) 0)
      (Some {| cache_slen := 1; cache_kv := {[1%nat := ([[5; 6]], [[5; 6]])]} |})
      [[[0]]] (Mask2 [[true; true]]) (Some [[[8]; [9]]]) true
  ∧ ∀ out c',
      mha_forward (encoder_attn (toy_model toy_pred) 0)
        (Some {| cache_slen := 1; cache_kv := {[1%nat := ([[5; 6]], [[5; 6]])]} |})
        [[[0]]] (Mask2 [[true; true]]) (Some [[[5]; [6]]]) true = Some (out, c') →
      c' = Some {| cache_slen := 1; cache_kv := {[1%nat := ([[5; 6]], [[5; 6]])]} |}.
Proof.
  apply (cross_attention_cached (encoder_attn (toy_model toy_pred) 0)
           {| cache_slen := 1; cache_kv := {[1%nat := ([[5; 6]], [[5; 6]])]} |}
           [[[0]]] (Mask2 [[true; true]]) [[[5]; [6]]] [[[8]; [9]]]
           ([[5; 6]], [[5; 6]])); reflexivity.
Defined.

(** * The prediction layer: PredLayer.forward and TransformerModel.predict *)

Section predict.
Context {H KV : Type}.
Implicit Types (M : @TransformerModel H KV).

(** [F.cross_entropy(scores, y, reduction='mean')] on rows of scores and
    their targets, a float kept abstract. *)
Variable cross_entropy : list (list Q) → list Z → Q.

(** [t[m]] for a boolean mask [m] of the shape of the first two axes of [t]:
    the entries whose bit is set, in row-major order. *)
Definition masked_select {A} (t : list (list A)) (m : list (list bool)) : list A :=
  concat (zip_with (λ row mrow, select_rows mrow row) t m).

(** [PredLayer.forward]: [x] holds the hidden states to predict from, [y]
    their target words.  [proj] is [pred_layer M]; [view(-1, n_words)] cuts
    the projected values into rows of [n_words]; [F.cross_entropy] raises
    when rows and targets differ in number and on a target outside the
    vocabulary (other than its [ignore_index], -100).  [get_scores] is not
    read. *)
Definition PredLayer_forward M (x : list H) (y : list Z) (get_scores : bool)
    : option (list (list Q) * Q) :=
  _ ← py_assert (forallb (λ t, negb (t =? pad_index M)) y);
  proj ← pred_layer M;
  let flat := concat (map proj x) in
  _ ← py_assert ((0 <? n_words M)%nat && (length flat mod n_words M =? 0)%nat);
  let scores := chunks (length flat / n_words M) (n_words M) flat in
  _ ← py_assert (length scores =? length y)%nat;
  _ ← py_assert (forallb (λ t, (t =? -100) || in_range t (Z.of_nat (n_words M))) y);
  Some (scores, cross_entropy scores y).

(** [TransformerModel.predict]: [tensor], of shape (slen, bs, dim), is the
    list over the steps of the hidden states of the sentences; [pred_mask],
    of shape (slen, bs), is expanded to it. *)
Definition predict M (tensor : list (list H)) (pred_mask : list (list bool))
    (y : list Z) (get_scores : bool) : option (list (list Q) * Q) :=
  m ← expand2 (length tensor) (dim1 tensor) pred_mask;
  let masked_tensor := masked_select tensor m in
  PredLayer_forward M masked_tensor y get_scores.

(** The number of set bits of a mask. *)
Definition count_true (m : list (list bool)) : nat :=
  length (filter (λ b, b = true) (concat m)).

Lemma length_select_rows_count {A} (m : list bool) (t : list A) :
  length t = length m →
  length (select_rows m t) = length (filter (λ b, b = true) m).
Proof.
  revert t. induction m as [|b m IH]; intros [|x t] Hl; simpl in *; try done.
  destruct b.
  - rewrite filter_cons_True by done. simpl. rewrite IH by lia. done.
  - rewrite filter_cons_False by done. apply IH. lia.
Qed.

Lemma length_masked_select {A} (t : list (list A)) (m : list (list bool)) :
  Forall2 (λ row mrow, length row = length mrow) t m →
  length (masked_select t m) = count_true m.
Proof.
  unfold masked_select, count_true.
  induction 1 as [|row mrow t m Hl _ IH]; [done |].
  cbn [zip_with concat]. rewrite !length_app, filter_app, length_app.
  rewrite length_select_rows_count by done. by rewrite IH.
Qed.

(** predict raises whenever a target is the padding index, whatever the
    hidden states and the mask are. *)
Theorem predict_rejects_pad M tensor pred_mask (y : list Z) get_scores :
  pad_index M ∈ y → predict M tensor pred_mask y get_scores = None.
Proof.
  intros Hin. unfold predict.
  destruct (expand2 _ _ _) as [m |]; [| done]. cbn [mbind option_bind].
  unfold PredLayer_forward.
  assert (Hf : forallb (λ t, negb (t =? pad_index M)) y = false).
  { apply not_true_is_false. intros Hall.
    apply list_elem_of_In in Hin.
    pose proof (proj1 (forallb_forall _ _) Hall _ Hin) as Hp. cbn beta in Hp.
    by rewrite Z.eqb_refl in Hp. }
  by rewrite Hf.
Qed.

(** When and what predict returns, for a projection onto a non-empty
    vocabulary and hidden states and mask of one shape: it returns exactly
    when there is one target for every set bit of the mask, no target is the
    padding index, and every target is a word of the vocabulary or the
    ignored index -100; it then returns the scores of the hidden states at
    the set bits of the mask, in row-major order, with their cross-entropy.
    The flag [get_scores] has no effect. *)
Theorem predict_spec M (proj : H → list Q) tensor pred_mask (y : list Z)
    get_scores :
  pred_layer M = Some proj → (∀ h, length (proj h) = n_words M) →
  (0 < n_words M)%nat →
  Forall2 (λ row mrow, length row = length mrow) tensor pred_mask →
  Forall (λ row : list H, length row = dim1 tensor) tensor →
  let scores := proj <$> masked_select tensor pred_mask in
  let valid := length y = count_true pred_mask
               ∧ Forall (λ t, t ≠ pad_index M
                              ∧ (t = -100 ∨ 0 <= t < Z.of_nat (n_words M))) y in
  length scores = count_true pred_mask
  ∧ (valid → predict M tensor pred_mask y get_scores
             = Some (scores, cross_entropy scores y))
  ∧ (¬ valid → predict M tensor pred_mask y get_scores = None).
Proof.
  intros Hproj Hpl Hn Hshape Hrect scores valid.
  assert (Hexp : expand2 (length tensor) (dim1 tensor) pred_mask = Some pred_mask).
  { apply expand2_same; [symmetry; by eapply Forall2_length |].
    generalize (dim1 tensor) Hrect. clear -Hshape. intros c Hrect.
    induction Hshape as [|row mrow t m Hl _ IH]; [done |].
    apply Forall_cons in Hrect as [Hr Hrect]. constructor.
    - by rewrite <- Hl.
    - by apply IH. }
  set (x := masked_select tensor pred_mask) in *.
  assert (Hall : Forall (λ r, length r = n_words M) (map proj x)).
  { apply Forall_map, Forall_forall. intros h _. apply Hpl. }
  assert (Hflat : length (concat (map proj x)) = (length (map proj x) * n_words M)%nat).
  { by apply length_concat_rect. }
  assert (Hchunks : chunks (length (concat (map proj x)) / n_words M) (n_words M)
                      (concat (map proj x)) = scores).
  { rewrite Hflat, Nat.div_mul by lia.
    exact (chunks_concat (n_words M) (map proj x) Hall). }
  assert (Hcount : length scores = count_true pred_mask).
  { unfold scores. rewrite length_fmap. by apply length_masked_select. }
  assert (Hrun : predict M tensor pred_mask y get_scores
                 = (_ ← py_assert (forallb (λ t, negb (t =? pad_index M)) y);
                    _ ← py_assert (length scores =? length y)%nat;
                    _ ← py_assert (forallb (λ t, (t =? -100)
                                      || in_range t (Z.of_nat (n_words M))) y);
                    Some (scores, cross_entropy scores y))).
  { unfold predict. rewrite Hexp. cbn [mbind option_bind]. fold x.
    unfold PredLayer_forward. rewrite Hproj. cbn [mbind option_bind].
    rewrite Hchunks, Hflat, Nat.Div0.mod_mul, (proj2 (Nat.ltb_lt _ _) Hn).
    cbn [Nat.eqb andb py_assert mbind option_bind]. done. }
  assert (Hpadb : forallb (λ t, negb (t =? pad_index M)) y = true
                  ↔ Forall (λ t, t ≠ pad_index M) y).
  { rewrite forallb_forall, Forall_forall. split; intros Hf t Ht.
    - apply list_elem_of_In, Hf in Ht. by apply negb_true_iff, Z.eqb_neq in Ht.
    - apply list_elem_of_In, Hf in Ht. by apply negb_true_iff, Z.eqb_neq. }
  assert (Hrangeb : forallb (λ t, (t =? -100) || in_range t (Z.of_nat (n_words M))) y
                    = true
                    ↔ Forall (λ t, t = -100 ∨ 0 <= t < Z.of_nat (n_words M)) y).
  { rewrite forallb_forall, Forall_forall.
    assert (Hone : ∀ t, (t =? -100) || in_range t (Z.of_nat (n_words M)) = true
                        ↔ t = -100 ∨ 0 <= t < Z.of_nat (n_words M)).
    { intros t. unfold in_range.
      rewrite orb_true_iff, andb_true_iff, Z.eqb_eq, Z.leb_le, Z.ltb_lt. done. }
    split; intros Hf t Ht.
    - apply list_elem_of_In, Hf in Ht. by apply Hone.
    - apply list_elem_of_In, Hf in Ht. by apply Hone. }
  split; [done |]. split.
  - intros [Hly Hy]. rewrite Hrun.
    rewrite (proj2 Hpadb) by (eapply Forall_impl; [exact Hy |]; by intros t [? _]).
    cbn [py_assert mbind option_bind].
    rewrite (proj2 (Nat.eqb_eq _ _)) by lia. cbn [py_assert mbind option_bind].
    rewrite (proj2 Hrangeb) by (eapply Forall_impl; [exact Hy |]; by intros t [_ ?]).
    done.
  - intros Hnot. rewrite Hrun.
    destruct (forallb (λ t, negb (t =? pad_index M)) y) eqn:E1; [| done].
    cbn [py_assert mbind option_bind].
    destruct (Nat.eqb_spec (length scores) (length y)) as [E2 | E2]; [| done].
    cbn [py_assert mbind option_bind].
    destruct (forallb (λ t, (t =? -100) || in_range t (Z.of_nat (n_words M))) y)
      eqn:E3; [| done].
    exfalso. apply Hnot. split; [lia |].
    pose proof (proj1 Hpadb eq_refl) as Hp. pose proof (proj1 Hrangeb eq_refl) as Hr.
    apply Forall_forall. intros t Ht. split.
    + by apply (proj1 (Forall_forall _ _) Hp).
    + by apply (proj1 (Forall_forall _ _) Hr).
Qed.

End predict.

Lemma predict_rejects_pad_witness :
  predict (λ _ _, 0%Q) (toy_model toy_pred) [[[1]; [0]]] [[true; true]] [0; 2] false
  = None.
Proof.
  apply (predict_rejects_pad (λ _ _, 0%Q) (toy_model toy_pred) [[[1]; [0]]]
           [[true; true]] [0; 2] false).
  apply list_elem_of_further, list_elem_of_here.
Defined.

(** Two steps of two sentences; a word is predicted at the first step of
    the first sentence and at the second step of the second one. *)
Lemma predict_spec_witness :
  predict (λ _ _, 0%Q) (toy_model toy_pred) [[[1]; [0]]; [[3]; [1]]]
    [[true; false]; [false; true]] [0; 3] true
  = Some ([toy_pred [1]; toy_pred [1]], 0%Q).
Proof.
  destruct (predict_spec (λ _ _, 0%Q) (toy_model toy_pred) toy_pred
              [[[1]; [0]]; [[3]; [1]]] [[true; false]; [false; true]] [0; 3] true)
    as (_ & Hvalid & _).
  - reflexivity.
  - exact toy_pred_length.
  - simpl. lia.
  - repeat constructor.
  - repeat constructor.
  - apply Hvalid. split; [reflexivity |].
    repeat constructor; simpl; lia.
Defined.
